(** * A shallow embedding of [advanced-vector/vector.h]

    The header defines two class templates: [RawMemory<T>], which owns a
    block of raw storage for a fixed number of elements, and [Vector<T>],
    which owns one [RawMemory<T>] together with the number of constructed
    elements.  The embedding keeps the shape of the C++ code:

    - the free store is a finite map from block addresses to lists of
      cells, a cell being raw storage or a constructed element;
    - [size_t] is [N] with the 64-bit wrap-around written out, a [T*] is a
      block address with a signed offset;
    - member functions are written in a state-and-exception monad: the
      state is the object ([*this], possibly with the locals in scope) and
      the world (free store and the trace of allocator and element
      operations); an outcome is a normal return, a propagating exception
      or undefined behaviour;
    - the element type is an interface ([Element]): its compile-time traits,
      its value semantics and, for every operation that is not [noexcept],
      an oracle which says from the trace so far whether the call throws. *)

From stdpp Require Import gmap list.

Set Default Proof Using "Type".

(** ** Machine integers and pointers *)

Definition size_max : N := (2 ^ 64)%N.

(** Arithmetic on [size_t] is modulo [2^64]. *)
Definition wrap (n : N) : N := (n mod size_max)%N.

(** Conversion of a [ptrdiff_t] to [size_t]. *)
Definition to_size_t (z : Z) : N := Z.to_N (z mod Z.of_N size_max).

Definition addr := positive.

(** A [T*]: the block it points into ([None] for a pointer derived from
    [nullptr]) and the offset, counted in elements. *)
Record pointer := Ptr { p_base : option addr; p_off : Z }.

Definition nullptr : pointer := Ptr None 0.

Definition ptr_add (p : pointer) (n : Z) : pointer :=
  Ptr (p_base p) (p_off p + n)%Z.

Infix "+ₚ" := ptr_add (at level 50, left associativity).

#[global] Instance pointer_eq_dec : EqDecision pointer.
Proof. solve_decision. Defined.

(** [std::distance(first, last)] on pointers; the difference of two pointers
    into different blocks is undefined. *)
Definition distance (first last : pointer) : option Z :=
  if decide (p_base first = p_base last) then Some (p_off last - p_off first)%Z
  else None.

(** ** Cells, events and the world *)

Inductive cell (T : Type) : Type :=
  | Raw
  | Live (v : T).
Arguments Raw {T}.
Arguments Live {T} v.

(** A constructor call of the element type: [T()], [T(const T&)], [T(T&&)]
    and any other constructor, written as the value it builds. *)
Inductive ctor_call (T : Type) : Type :=
  | DefaultCtor
  | CopyCtor (v : T)
  | MoveCtor (v : T)
  | ArgsCtor (v : T).
Arguments DefaultCtor {T}.
Arguments CopyCtor {T} v.
Arguments MoveCtor {T} v.
Arguments ArgsCtor {T} v.

(** What the allocator and the element type are asked to do, newest first
    in the trace.  An event is recorded when the call starts, whether it
    throws or not. *)
Inductive event (T : Type) : Type :=
  | EvNew (bytes : N)
  | EvDelete (a : addr)
  | EvCtor (c : ctor_call T)
  | EvCopyAssign (dst src : T)
  | EvMoveAssign (dst src : T)
  | EvDtor (v : T).
Arguments EvNew {T} bytes.
Arguments EvDelete {T} a.
Arguments EvCtor {T} c.
Arguments EvCopyAssign {T} dst src.
Arguments EvMoveAssign {T} dst src.
Arguments EvDtor {T} v.

Record World (T : Type) : Type := MkWorld {
  heap : gmap addr (list (cell T));
  trace : list (event T)
}.
Arguments MkWorld {T} heap trace.
Arguments heap {T} w.
Arguments trace {T} w.

(** ** The element type

    The traits are the three the header inspects with [if constexpr].  A
    moved-from object holds [moved_from v].  The oracles decide, from the
    operands and the trace before the call, whether a constructor, an
    assignment or [operator new] throws; an operation whose trait says
    [noexcept] never consults its oracle. *)
Class Element (T : Type) : Type := {
  sizeof : positive;
  is_nothrow_move_constructible : bool;
  is_copy_constructible : bool;
  is_nothrow_move_assignable : bool;
  value_init : T;
  moved_from : T → T;
  ctor_throws : ctor_call T → list (event T) → bool;
  copy_assign_throws : T → T → list (event T) → bool;
  move_assign_throws : T → T → list (event T) → bool;
  operator_new_fails : N → list (event T) → bool
}.

(** ** Outcomes and the monad *)

Inductive outcome (A : Type) : Type :=
  | Ok (a : A)
  | Throw
  | Undefined.
Arguments Ok {A} a.
Arguments Throw {A}.
Arguments Undefined {A}.

Section Monad.
Context {T : Type}.

Definition M (S A : Type) : Type := S → World T → outcome A * S * World T.

Definition ret {S A} (a : A) : M S A := λ s w, (Ok a, s, w).

Definition bind {S A B} (k : A → M S B) (m : M S A) : M S B :=
  λ s w,
    match m s w with
    | (Ok a, s', w') => k a s' w'
    | (Throw, s', w') => (Throw, s', w')
    | (Undefined, s', w') => (Undefined, s', w')
    end.

#[global] Instance M_ret {S} : MRet (M S) := λ A, ret.
#[global] Instance M_bind {S} : MBind (M S) := λ A B, bind.

Definition throw {S A} : M S A := λ s w, (Throw, s, w).
Definition undefined {S A} : M S A := λ s w, (Undefined, s, w).

(** [try { m } catch (...) { h }] *)
Definition catch {S A} (m : M S A) (h : M S A) : M S A :=
  λ s w,
    match m s w with
    | (Throw, s', w') => h s' w'
    | r => r
    end.

Definition get {S} : M S S := λ s w, (Ok s, s, w).
Definition put {S} (s : S) : M S unit := λ _ w, (Ok tt, s, w).
Definition modify {S} (f : S → S) : M S unit := λ s w, (Ok tt, f s, w).

Definition get_world {S} : M S (World T) := λ s w, (Ok w, s, w).
Definition put_heap {S} (h : gmap addr (list (cell T))) : M S unit :=
  λ s w, (Ok tt, s, MkWorld h (trace w)).
Definition emit {S} (e : event T) : M S unit :=
  λ s w, (Ok tt, s, MkWorld (heap w) (e :: trace w)).

(** A local object [l] whose destructor [dtor] runs when the scope is
    left, by a normal return or by a propagating exception. *)
Definition scoped {S L A} (l : L) (dtor : L → M S unit)
    (body : M (S * L) A) : M S A :=
  λ s w,
    match body (s, l) w with
    | (Ok a, (s', l'), w') =>
        match dtor l' s' w' with
        | (Ok _, s'', w'') => (Ok a, s'', w'')
        | (Throw, s'', w'') => (Undefined, s'', w'')
        | (Undefined, s'', w'') => (Undefined, s'', w'')
        end
    | (Throw, (s', l'), w') =>
        match dtor l' s' w' with
        | (Ok _, s'', w'') => (Throw, s'', w'')
        | (Throw, s'', w'') => (Undefined, s'', w'')
        | (Undefined, s'', w'') => (Undefined, s'', w'')
        end
    | (Undefined, (s', _), w') => (Undefined, s', w')
    end.

(** Run a computation on the first component of the state. *)
Definition on_fst {S L A} (m : M S A) : M (S * L) A :=
  λ sl w, let '(r, s', w') := m (fst sl) w in (r, (s', snd sl), w').

(** [for (i = start; n-- > 0; ++i) body(i)] *)
Fixpoint for_n {S} (n : nat) (i : Z) (body : Z → M S unit) : M S unit :=
  match n with
  | O => ret tt
  | S n' => body i ;; for_n n' (i + 1)%Z body
  end.
End Monad.

Arguments M : clear implicits.

(** ** The free store, element operations and the library algorithms *)

Section Memory.
Context {T : Type} `{!Element T} {S : Type}.

Definition get_trace : M T S (list (event T)) := λ s w, (Ok (trace w), s, w).

(** The cell a pointer designates; dereferencing a null pointer, a pointer
    into freed storage or one outside its block is undefined. *)
Definition cell_at (p : pointer) (w : World T) : option (cell T) :=
  b ← p_base p;
  blk ← heap w !! b;
  if decide (0 ≤ p_off p)%Z then blk !! Z.to_nat (p_off p) else None.

Definition read_cell (p : pointer) : M T S (cell T) :=
  λ s w,
    match cell_at p w with
    | Some c => (Ok c, s, w)
    | None => (Undefined, s, w)
    end.

Definition write_cell (p : pointer) (c : cell T) : M T S unit :=
  λ s w,
    match p_base p with
    | Some b =>
        match heap w !! b with
        | Some blk =>
            if decide (0 ≤ p_off p < Z.of_nat (length blk))%Z
            then (Ok tt, s,
                  MkWorld (<[b := <[Z.to_nat (p_off p) := c]> blk]> (heap w))
                          (trace w))
            else (Undefined, s, w)
        | None => (Undefined, s, w)
        end
    | None => (Undefined, s, w)
    end.

(** Reading [*p]: the object must be alive. *)
Definition load (p : pointer) : M T S T :=
  c ← read_cell p;
  match c with
  | Live v => mret v
  | Raw => undefined
  end.

(** [operator new(bytes)]: a fresh block; it has room for
    [bytes / sizeof(T)] elements. *)
Definition operator_new (bytes : N) : M T S pointer :=
  tr ← get_trace;
  emit (EvNew bytes);;
  if operator_new_fails bytes tr then throw
  else
    w ← get_world;
    let a := fresh (dom (heap w)) in
    put_heap (<[a := replicate (N.to_nat (bytes / Npos sizeof)) Raw]> (heap w));;
    mret (Ptr (Some a) 0).

(** [operator delete(p)]: nothing for a null pointer; otherwise [p] must be
    the start of a block of the free store. *)
Definition operator_delete (p : pointer) : M T S unit :=
  if decide (p = nullptr) then mret tt
  else
    match p_base p with
    | Some a =>
        w ← get_world;
        if decide (p_off p = 0%Z ∧ is_Some (heap w !! a))
        then emit (EvDelete a);; put_heap (delete a (heap w))
        else undefined
    | None => undefined
    end.

(** Running a constructor: the value of the new object, or an exception.
    A move constructor leaves its argument holding [moved_from v]; what
    becomes of the argument is the caller's business. *)
Definition ctor_value (c : ctor_call T) : T :=
  match c with
  | DefaultCtor => value_init
  | CopyCtor v | MoveCtor v | ArgsCtor v => v
  end.

Definition ctor_may_throw (c : ctor_call T) : bool :=
  match c with
  | MoveCtor _ => negb is_nothrow_move_constructible
  | _ => true
  end.

Definition construct (c : ctor_call T) : M T S T :=
  tr ← get_trace;
  emit (EvCtor c);;
  if ctor_may_throw c && ctor_throws c tr then throw else mret (ctor_value c).

(** [new (p) T(...)] *)
Definition placement_new (p : pointer) (c : ctor_call T) : M T S unit :=
  v ← construct c;
  write_cell p (Live v).

(** [new (p) T(std::move( *src))]: the source is left moved-from. *)
Definition move_construct_at (p src : pointer) : M T S unit :=
  v ← load src;
  placement_new p (MoveCtor v);;
  write_cell src (Live (moved_from v)).

(** The destructor of an object outside the free store (a local or a
    temporary). *)
Definition destroy_local (v : T) : M T S unit := emit (EvDtor v).

(** [new (p) T({value})] with [value] a [const T&]: the braced list has
    the one element [value], of type [T], so the parameter of the copy
    constructor binds to [value] itself and the move constructor is not
    viable; the expression is one call of the copy constructor. *)
Definition braced_construct_at (p : pointer) (value : T) : M T S unit :=
  placement_new p (CopyCtor value).

(** [*dst = *src]; a copy assignment which throws leaves [*dst] as it
    was. *)
Definition copy_assign_at (dst src : pointer) : M T S unit :=
  d ← load dst;
  v ← load src;
  tr ← get_trace;
  emit (EvCopyAssign d v);;
  if copy_assign_throws d v tr then throw else write_cell dst (Live v).

(** [*dst = std::move(v)] with [v] an object outside the free store; the
    result is what is left in [v]. *)
Definition move_assign_from (dst : pointer) (v : T) : M T S T :=
  d ← load dst;
  tr ← get_trace;
  emit (EvMoveAssign d v);;
  if negb is_nothrow_move_assignable && move_assign_throws d v tr then throw
  else write_cell dst (Live v);; mret (moved_from v).

(** [*dst = std::move( *src)] *)
Definition move_assign_at (dst src : pointer) : M T S unit :=
  v ← load src;
  r ← move_assign_from dst v;
  write_cell src (Live r).

(** [std::destroy_at(p)]: the destructor, which does not throw. *)
Definition destroy_at (p : pointer) : M T S unit :=
  v ← load p;
  emit (EvDtor v);;
  write_cell p Raw.

(** [std::destroy_n(first, n)]; like the other [_n] algorithms it does
    nothing for a count which is not positive. *)
Definition destroy_n (first : pointer) (n : Z) : M T S unit :=
  for_n (Z.to_nat n) 0 (λ i, destroy_at (first +ₚ i)).

(** [std::uninitialized_copy_n(first, n, d_first)]: when a constructor
    throws, the elements constructed so far are destroyed and the exception
    propagates. *)
Definition uninitialized_copy_n (first : pointer) (n : Z) (d_first : pointer)
    : M T S unit :=
  for_n (Z.to_nat n) 0 (λ i,
    catch (v ← load (first +ₚ i); placement_new (d_first +ₚ i) (CopyCtor v))
          (destroy_n d_first i;; throw)).

(** [std::uninitialized_move_n(first, n, d_first)] *)
Definition uninitialized_move_n (first : pointer) (n : Z) (d_first : pointer)
    : M T S unit :=
  for_n (Z.to_nat n) 0 (λ i,
    catch (move_construct_at (d_first +ₚ i) (first +ₚ i))
          (destroy_n d_first i;; throw)).

(** [std::uninitialized_value_construct_n(first, n)] *)
Definition uninitialized_value_construct_n (first : pointer) (n : Z)
    : M T S unit :=
  for_n (Z.to_nat n) 0 (λ i,
    catch (placement_new (first +ₚ i) DefaultCtor)
          (destroy_n first i;; throw)).

(** [std::move(first, last, d_first)] on pointers: the library's loop for
    random access iterators, [for (n = last - first; n > 0; --n)], which
    move-assigns front to back and does nothing for a distance which is
    not positive. *)
Definition std_move (first last d_first : pointer) : M T S unit :=
  match distance first last with
  | Some n =>
      for_n (Z.to_nat n) 0 (λ i, move_assign_at (d_first +ₚ i) (first +ₚ i))
  | None => undefined
  end.

(** [std::move_backward(first, last, d_last)] on pointers: the same loop,
    which move-assigns back to front and does nothing for a distance
    which is not positive. *)
Definition std_move_backward (first last d_last : pointer) : M T S unit :=
  match distance first last with
  | Some n =>
      for_n (Z.to_nat n) 1
        (λ i, move_assign_at (d_last +ₚ (- i)) (last +ₚ (- i)))
  | None => undefined
  end.
End Memory.

(** ** [size_t] arithmetic *)

Definition sz_add (a b : N) : N := wrap (a + b).
Definition sz_sub (a b : N) : N := wrap (a + size_max - wrap b).
Definition sz_mul (a b : N) : N := wrap (a * b).

(** ** [RawMemory<T>] *)

Record RawMemory : Type := MkRawMemory {
  buffer_ : pointer;
  capacity_ : N
}.

Record Vector : Type := MkVector {
  data_ : RawMemory;
  size_ : N
}.

Section RawMemory.
Context {T : Type} `{!Element T} {S : Type}.

(** [RawMemory() = default] *)
Definition RawMemory_default : RawMemory := MkRawMemory nullptr 0.

(** [Allocate(n)]: [n != 0 ? operator new(n * sizeof(T)) : nullptr] *)
Definition Allocate (n : N) : M T S pointer :=
  if decide (n ≠ 0%N) then operator_new (sz_mul n (Npos sizeof))
  else mret nullptr.

Definition Deallocate (buf : pointer) : M T S unit := operator_delete buf.

(** [explicit RawMemory(size_t capacity)] *)
Definition RawMemory_ctor (capacity : N) : M T S RawMemory :=
  buf ← Allocate capacity;
  mret (MkRawMemory buf capacity).

(** [~RawMemory()] *)
Definition RawMemory_dtor (r : RawMemory) : M T S unit :=
  Deallocate (buffer_ r).

(** [Swap(RawMemory& other)], on the pair ([*this], [other]). *)
Definition RawMemory_Swap (p : RawMemory * RawMemory) : RawMemory * RawMemory :=
  (MkRawMemory (buffer_ p.2) (capacity_ p.2),
   MkRawMemory (buffer_ p.1) (capacity_ p.1)).

(** [RawMemory(RawMemory&& other)]: the new object and what is left of
    [other]. *)
Definition RawMemory_move_ctor (other : RawMemory) : RawMemory * RawMemory :=
  RawMemory_Swap (RawMemory_default, other).

(** [operator+(size_t offset)], with its assertion. *)
Definition RawMemory_plus (r : RawMemory) (offset : N) : M T S pointer :=
  if decide (offset ≤ capacity_ r)%N then mret (buffer_ r +ₚ Z.of_N offset)
  else undefined.

(** [operator[](size_t index)], with its assertion; the result is the
    address of the element referred to. *)
Definition RawMemory_index (r : RawMemory) (index : N) : M T S pointer :=
  if decide (index < capacity_ r)%N then mret (buffer_ r +ₚ Z.of_N index)
  else undefined.

Definition GetAddress (r : RawMemory) : pointer := buffer_ r.
End RawMemory.

(** ** [Vector<T>] *)

Definition Size (v : Vector) : N := size_ v.
Definition Capacity (v : Vector) : N := capacity_ (data_ v).
Definition begin (v : Vector) : pointer := GetAddress (data_ v).
Definition end_ (v : Vector) : pointer := GetAddress (data_ v) +ₚ Z.of_N (size_ v).
Definition cbegin (v : Vector) : pointer := GetAddress (data_ v).
Definition cend (v : Vector) : pointer := GetAddress (data_ v) +ₚ Z.of_N (size_ v).

Definition set_size (n : N) (v : Vector) : Vector := MkVector (data_ v) n.

(** [Vector() = default] *)
Definition Vector_default : Vector := MkVector (MkRawMemory nullptr 0) 0.

(** [data_.Swap(new_data)] inside a member function, where the state is the
    object together with the local [new_data]. *)
Definition swap_data (p : Vector * RawMemory) : Vector * RawMemory :=
  let d := RawMemory_Swap (data_ p.1, p.2) in
  (MkVector d.1 (size_ p.1), d.2).

(** [Swap(Vector& other)], on the pair ([*this], [other]) of two objects. *)
Definition Vector_Swap (p : Vector * Vector) : Vector * Vector :=
  let d := RawMemory_Swap (data_ p.1, data_ p.2) in
  (MkVector d.1 (size_ p.2), MkVector d.2 (size_ p.1)).

(** [Vector(Vector&& other) noexcept]: the new object and what is left of
    [other].  The new object starts with [size_ = 0], which the swap hands
    to [other]. *)
Definition Vector_move_ctor (other : Vector) : Vector * Vector :=
  let d := RawMemory_move_ctor (data_ other) in
  (MkVector d.1 (size_ other), MkVector d.2 0).

Section Vector.
Context {T : Type} `{!Element T}.

(** The test of [if constexpr] which selects relocation by move. *)
Definition relocate_by_move : bool :=
  is_nothrow_move_constructible || negb is_copy_constructible.

(** The migration step shared by the growing operations. *)
Definition migrate_n {S} (first : pointer) (n : Z) (d_first : pointer)
    : M T S unit :=
  if relocate_by_move then uninitialized_move_n first n d_first
  else uninitialized_copy_n first n d_first.

(** [explicit Vector(size_t size)]; when an element constructor throws,
    the member [data_] is destroyed. *)
Definition Vector_size_ctor {S} (size : N) : M T S Vector :=
  data ← RawMemory_ctor size;
  catch (uninitialized_value_construct_n (GetAddress data) (Z.of_N size))
        (RawMemory_dtor data;; throw);;
  mret (MkVector data size).

(** [Vector(const Vector& other)] *)
Definition Vector_copy_ctor {S} (other : Vector) : M T S Vector :=
  data ← RawMemory_ctor (size_ other);
  catch (uninitialized_copy_n (GetAddress (data_ other)) (Z.of_N (size_ other))
           (GetAddress data))
        (RawMemory_dtor data;; throw);;
  mret (MkVector data (size_ other)).

(** [~Vector()], followed by the destructor of the member [data_]. *)
Definition Vector_dtor {S} (v : Vector) : M T S unit :=
  destroy_n (GetAddress (data_ v)) (Z.of_N (size_ v));;
  RawMemory_dtor (data_ v).

(** [operator[](size_t index)], with its assertion. *)
Definition Vector_index (index : N) : M T Vector pointer :=
  this ← get;
  if decide (index < size_ this)%N then RawMemory_index (data_ this) index
  else undefined.

(** [Reserve(size_t new_capacity)] *)
Definition Reserve (new_capacity : N) : M T Vector unit :=
  this ← get;
  if decide (new_capacity ≤ Capacity this)%N then mret tt
  else
    new_data ← RawMemory_ctor new_capacity;
    scoped new_data RawMemory_dtor (
      migrate_n (GetAddress (data_ this)) (Z.of_N (size_ this))
                (GetAddress new_data);;
      destroy_n (GetAddress (data_ this)) (Z.of_N (size_ this));;
      modify swap_data).

(** [Resize(size_t new_size)] *)
Definition Resize (new_size : N) : M T Vector unit :=
  this ← get;
  (if decide (new_size < size_ this)%N then
     destroy_n (GetAddress (data_ this) +ₚ Z.of_N new_size)
               (Z.of_N (sz_sub (size_ this) new_size));;
     modify (set_size new_size)
   else mret tt);;
  this ← get;
  if decide (size_ this < new_size)%N then
    Reserve new_size;;
    this ← get;
    uninitialized_value_construct_n
      (GetAddress (data_ this) +ₚ Z.of_N (size_ this))
      (Z.of_N (sz_sub new_size (size_ this)));;
    modify (set_size new_size)
  else mret tt.

(** The body shared by [PushBack(const T&)], [PushBack(T&&)] and
    [EmplaceBack(Args&&...)], which differ only in the expression that
    constructs the new element: [grow_at] in the branch that reallocates,
    [place_at] in the other. *)
Definition append_with (grow_at place_at : ∀ S, pointer → M T S unit)
    : M T Vector unit :=
  this ← get;
  if decide (size_ this = Capacity this) then
    new_data ← RawMemory_ctor
                 (if decide (size_ this = 0%N) then 1%N
                  else sz_mul (size_ this) 2);
    scoped new_data RawMemory_dtor (
      p ← RawMemory_plus new_data (size_ this);
      grow_at _ p;;
      migrate_n (GetAddress (data_ this)) (Z.of_N (size_ this))
                (GetAddress new_data);;
      destroy_n (GetAddress (data_ this)) (Z.of_N (size_ this));;
      modify swap_data;;
      modify (λ p, (set_size (sz_add (size_ p.1) 1) p.1, p.2)))
  else
    p ← RawMemory_plus (data_ this) (size_ this);
    place_at _ p;;
    modify (set_size (sz_add (size_ this) 1)).

(** [PushBack(const T& value)]: [T({value})] when it reallocates and
    [T(value)] when it does not. *)
Definition PushBack (value : T) : M T Vector unit :=
  append_with (λ S p, braced_construct_at p value)
              (λ S p, placement_new p (CopyCtor value)).

(** [PushBack(T&& value)] *)
Definition PushBack_move (value : T) : M T Vector unit :=
  append_with (λ S p, placement_new p (MoveCtor value))
              (λ S p, placement_new p (MoveCtor value)).

(** [EmplaceBack(Args&&... args)]; the result is the address of the new
    element, [&data_[size_ - 1]]. *)
Definition EmplaceBack (args : ctor_call T) : M T Vector pointer :=
  append_with (λ S p, placement_new p args) (λ S p, placement_new p args);;
  this ← get;
  RawMemory_index (data_ this) (sz_sub (size_ this) 1).

(** [PopBack()] *)
Definition PopBack : M T Vector unit :=
  this ← get;
  if decide (0 < size_ this)%N then
    destroy_n (GetAddress (data_ this) +ₚ Z.of_N (sz_sub (size_ this) 1)) 1;;
    modify (set_size (sz_sub (size_ this) 1))
  else mret tt.

(** [Emplace(const_iterator pos, Args&&... args)] *)
Definition Emplace (pos : pointer) (args : ctor_call T) : M T Vector pointer :=
  this ← get;
  if decide (size_ this = Capacity this ∧ (0 < size_ this)%N) then
    new_data ← RawMemory_ctor (sz_mul (size_ this) 2);
    scoped new_data RawMemory_dtor (
      match distance (cbegin this) pos with
      | None => undefined
      | Some index_position =>
          p ← RawMemory_plus new_data (to_size_t index_position);
          placement_new p args;;
          migrate_n (GetAddress (data_ this)) index_position
                    (GetAddress new_data);;
          migrate_n (GetAddress (data_ this) +ₚ index_position)
                    (Z.of_N (sz_sub (size_ this) (to_size_t index_position)))
                    (GetAddress new_data +ₚ index_position +ₚ 1);;
          destroy_n (GetAddress (data_ this)) (Z.of_N (size_ this));;
          modify swap_data;;
          modify (λ p, (set_size (sz_add (size_ p.1) 1) p.1, p.2));;
          st ← get;
          mret (begin st.1 +ₚ index_position)
      end)
  else if decide (0 < size_ this)%N then
    match distance (cbegin this) pos with
    | None => undefined
    | Some index_position =>
        copy_elem ← construct args;
        scoped copy_elem destroy_local (
          p ← RawMemory_plus (data_ this) (size_ this);
          last ← RawMemory_index (data_ this) (sz_sub (size_ this) 1);
          move_construct_at p last;;
          std_move_backward (begin this +ₚ index_position)
                            (end_ this +ₚ (-1)) (end_ this);;
          d ← RawMemory_index (data_ this) (to_size_t index_position);
          left ← move_assign_from d copy_elem;
          modify (λ p, (set_size (sz_add (size_ p.1) 1) p.1, left));;
          st ← get;
          mret (begin st.1 +ₚ index_position))
    end
  else
    EmplaceBack args;;
    this ← get;
    mret (GetAddress (data_ this)).

(** [Insert(const_iterator pos, const T& value)]: [std::move] of a
    [const T&] selects the copy constructor. *)
Definition Insert (pos : pointer) (value : T) : M T Vector pointer :=
  Emplace pos (CopyCtor value).

(** [Insert(const_iterator pos, T&& value)] *)
Definition Insert_move (pos : pointer) (value : T) : M T Vector pointer :=
  Emplace pos (MoveCtor value).

(** [Erase(const_iterator pos) noexcept] *)
Definition Erase (pos : pointer) : M T Vector pointer :=
  this ← get;
  if decide (0 < size_ this)%N then
    match distance (cbegin this) pos with
    | None => undefined
    | Some index_position =>
        (if is_nothrow_move_assignable then
           std_move (begin this +ₚ index_position +ₚ 1) (end_ this)
                    (begin this +ₚ index_position)
         else mret tt);;
        destroy_n (end_ this +ₚ (-1)) 1;;
        modify (set_size (sz_sub (size_ this) 1));;
        this ← get;
        if decide (0 < size_ this)%N then mret (begin this +ₚ index_position)
        else mret (end_ this)
    end
  else mret (end_ this).

(** [for (size_t i = 0; i < n; ++i) data_[i] = rhs.data_[i];] *)
Definition assign_prefix {S} (dst src : RawMemory) (n : N) : M T S unit :=
  for_n (N.to_nat n) 0 (λ i,
    d ← RawMemory_index dst (Z.to_N i);
    s ← RawMemory_index src (Z.to_N i);
    copy_assign_at d s).

(** [operator=(const Vector& rhs)].  The argument is [None] when [rhs] is
    the object itself, the case the test [this != &rhs] sets apart, and
    [Some rhs] for another object. *)
Definition Vector_copy_assign (rhs : option Vector) : M T Vector unit :=
  match rhs with
  | None => mret tt
  | Some rhs =>
      this ← get;
      if decide (Capacity this < size_ rhs)%N then
        rhs_copy ← Vector_copy_ctor rhs;
        scoped rhs_copy Vector_dtor (modify Vector_Swap)
      else if decide (size_ rhs < size_ this)%N then
        assign_prefix (data_ this) (data_ rhs) (size_ rhs);;
        destroy_n (GetAddress (data_ this) +ₚ Z.of_N (size_ rhs))
                  (Z.of_N (sz_sub (size_ this) (size_ rhs)));;
        modify (set_size (size_ rhs))
      else
        assign_prefix (data_ this) (data_ rhs) (size_ this);;
        uninitialized_copy_n
          (GetAddress (data_ rhs) +ₚ Z.of_N (size_ this))
          (Z.of_N (sz_sub (size_ rhs) (size_ this)))
          (GetAddress (data_ this) +ₚ Z.of_N (size_ this));;
        modify (set_size (size_ rhs))
  end.

(** [operator=(Vector&& rhs) noexcept].  The state is the object with the
    other operand; the second component is [None] when [rhs] is the
    object itself. *)
Definition Vector_move_assign : M T (Vector * option Vector) unit :=
  st ← get;
  match st.2 with
  | None => mret tt
  | Some rhs =>
      if decide (Capacity st.1 < size_ rhs)%N then
        let moved := Vector_move_ctor rhs in
        put (st.1, Some moved.2);;
        scoped moved.1 Vector_dtor
          (modify (λ p : (Vector * option Vector) * Vector,
             let sw := Vector_Swap (p.1.1, p.2) in ((sw.1, p.1.2), sw.2)))
      else mret tt
  end.
End Vector.

(** ** Specifications

    [wp m Q E U s w]: running [m] from state [s] and world [w] ends in a
    normal return that satisfies [Q], or in a propagating exception with
    [E], or in undefined behaviour, which [U] must then allow. *)
Definition wp {T S A} (m : M T S A) (Q : A → S → World T → Prop)
    (E : S → World T → Prop) (U : Prop) (s : S) (w : World T) : Prop :=
  match m s w with
  | (Ok a, s', w') => Q a s' w'
  | (Throw, s', w') => E s' w'
  | (Undefined, _, _) => U
  end.

(** An element type and an allocator none of whose operations throws. *)
Definition never_throws {T} `{!Element T} : Prop :=
  (∀ c tr, ctor_may_throw c && ctor_throws c tr = false) ∧
  (∀ d v tr, copy_assign_throws d v tr = false) ∧
  (∀ d v tr, negb is_nothrow_move_assignable && move_assign_throws d v tr = false) ∧
  (∀ n tr, operator_new_fails n tr = false).

(** The block a buffer pointer owns: the pointer is the start of a block of
    the free store. *)
Definition block_at {T} (p : pointer) (w : World T) : option (list (cell T)) :=
  if decide (p_off p = 0%Z) then b ← p_base p; heap w !! b else None.

(** [repr v w xs]: the vector [v] holds the elements [xs].  Its size is
    their number and does not exceed its capacity, which is a [size_t]; a
    vector without storage has capacity zero; otherwise the block starts
    with the live elements and is raw after them. *)
Definition repr {T} (v : Vector) (w : World T) (xs : list T) : Prop :=
  size_ v = N.of_nat (length xs) ∧
  (size_ v ≤ capacity_ (data_ v) < size_max)%N ∧
  if decide (buffer_ (data_ v) = nullptr) then capacity_ (data_ v) = 0%N
  else
    match block_at (buffer_ (data_ v)) w with
    | Some blk => blk = (Live <$> xs) ++ replicate (length blk - length xs) Raw
    | None => False
    end.

(** What [~RawMemory()] leaves of the free store. *)
Definition release {T} (r : RawMemory) (h : gmap addr (list (cell T)))
    : gmap addr (list (cell T)) :=
  match p_base (buffer_ r) with
  | Some b => delete b h
  | None => h
  end.

(** The event [~RawMemory()] records. *)
Definition delete_events {T} (r : RawMemory) : list (event T) :=
  match p_base (buffer_ r) with
  | Some b => [EvDelete b]
  | None => []
  end.

(** What copy assignment does past the common prefix when it keeps the
    storage: destructors for the excess of the destination, or copy
    constructors for the excess of the source. *)
Definition assign_tail_events {T} (xs ys : list T) : list (event T) :=
  if decide (length ys < length xs)
  then EvDtor <$> reverse (drop (length ys) xs)
  else EvCtor ∘ CopyCtor <$> reverse (drop (length xs) ys).

(** Two vectors which do not share storage. *)
Definition disjoint (v1 v2 : Vector) : Prop :=
  buffer_ (data_ v1) = nullptr ∨
  p_base (buffer_ (data_ v1)) ≠ p_base (buffer_ (data_ v2)).

(** The block is as large as the capacity says and its size in bytes is a
    [size_t]: what [Allocate] provides when its multiplication does not
    wrap. *)
Definition sized {T} `{!Element T} (v : Vector) (w : World T) : Prop :=
  (capacity_ (data_ v) * Npos sizeof < size_max)%N ∧
  match block_at (buffer_ (data_ v)) w with
  | Some blk => length blk = N.to_nat (capacity_ (data_ v))
  | None => capacity_ (data_ v) = 0%N
  end.

(** What a migration leaves in the old storage: moved-from objects when it
    relocates by move, the objects themselves when it copies. *)
Definition left_behind {T} `{!Element T} (vs : list T) : list T :=
  if relocate_by_move then moved_from <$> vs else vs.

(** The request [Allocate(n)] makes and the number of elements the block it
    gets has room for. *)
Definition arena_bytes {T} `{!Element T} (n : N) : N := sz_mul n (Npos sizeof).
Definition arena_cells {T} `{!Element T} (n : N) : nat :=
  N.to_nat (arena_bytes n / Npos sizeof).

(** [emplaces f v]: the expression [f] constructs an element of value [v] at
    the address it is given, or throws before it touches the free store. *)
Definition emplaces {T} `{!Element T} (f : ∀ S, pointer → M T S unit) (v : T)
    : Prop :=
  ∀ St b (o : Z) blk (Q : unit → St → World T → Prop) E (U : Prop) s w,
    heap w !! b = Some blk →
    (∀ tr', ¬ never_throws → E s (MkWorld (heap w) (tr' ++ trace w))) →
    (¬ (0 ≤ o < Z.of_nat (length blk))%Z → U) →
    ((0 ≤ o < Z.of_nat (length blk))%Z →
     ∀ tr', Q tt s (MkWorld (<[b := <[Z.to_nat o := Live v]> blk]> (heap w))
                            (tr' ++ trace w))) →
    wp (f St (Ptr (Some b) o)) Q E U s w.

(** The capacity [PushBack] and [EmplaceBack] ask for when they grow. *)
Definition grown (size : N) : N :=
  if decide (size = 0%N) then 1%N else sz_mul size 2.

(** What [std::move(first + 1, last, first)] makes of the range that starts
    with [x] and goes on with [l]: every element moves one place to the
    front and the last place keeps a moved-from object (or [x] itself when
    the range has one element).  [shift_events] are the assignments it
    performs, newest first. *)
Fixpoint shift {T} `{!Element T} (x : T) (l : list T) : list T :=
  match l with
  | [] => [x]
  | y :: l' => y :: shift (moved_from y) l'
  end.

Fixpoint shift_events {T} `{!Element T} (x : T) (l : list T) : list (event T) :=
  match l with
  | [] => []
  | y :: l' => shift_events (moved_from y) l' ++ [EvMoveAssign x y]
  end.

Definition shift_residue {T} `{!Element T} (x : T) (l : list T) : T :=
  match last l with
  | Some y => moved_from y
  | None => x
  end.

(** The constructor a migration calls for each element. *)
Definition migrate_ctor {T} `{!Element T} (v : T) : ctor_call T :=
  if relocate_by_move then MoveCtor v else CopyCtor v.

(** The copy constructor calls of a migration of [xs] which starts at the
    trace [tr0]: [copies_return] when the migration relocates by move or
    each call returns, [copy_throws] when it copies and one call throws.
    The oracle is asked at the trace the calls before it have left. *)
Definition copies_return {T} `{!Element T} (xs : list T) (tr0 : list (event T))
    : Prop :=
  relocate_by_move = false →
  ∀ j v, xs !! j = Some v →
    ctor_throws (CopyCtor v)
      ((EvCtor ∘ CopyCtor <$> reverse (take j xs)) ++ tr0) = false.

Definition copy_throws {T} `{!Element T} (xs : list T) (tr0 : list (event T))
    : Prop :=
  relocate_by_move = false ∧
  ∃ j v, xs !! j = Some v ∧
    ctor_throws (CopyCtor v)
      ((EvCtor ∘ CopyCtor <$> reverse (take j xs)) ++ tr0) = true.

(** Writing [n] cells from offset [od] stays inside the block. *)
Definition fits {T} (od : Z) (n : nat) (blk : list (cell T)) : Prop :=
  n = 0 ∨ (od + Z.of_nat n ≤ Z.of_nat (length blk))%Z.

(** The elements read back in index order, [v[0]], ..., [v[Size() - 1]]. *)
Definition live {T} (c : cell T) : option T :=
  match c with Live v => Some v | Raw => None end.

Definition elements {T} (v : Vector) (w : World T) : option (list T) :=
  mapM (λ i : nat, cell_at (begin v +ₚ Z.of_nat i) w ≫= live)
       (seq 0 (N.to_nat (size_ v))).

(** ** Statements shared by the theorems *)

(** What an append that reallocates achieves: the capacity is one for an
    empty vector and twice the old one otherwise, the new element follows
    the old ones, and the storage is a block which [operator new] handed out
    during the call. *)
Definition grew {T} `{!Element T} (this : Vector) (w : World T) (xs : list T)
    (v : T) (this' : Vector) (w' : World T) : Prop :=
  Capacity this' = (if decide (Size this = 0%N) then 1 else 2 * Capacity this)%N ∧
  Size this' = (Size this + 1)%N ∧
  repr this' w' (xs ++ [v]) ∧
  elements this' w' = Some (xs ++ [v]) ∧
  block_at (buffer_ (data_ this')) w = None ∧
  ∃ tr', trace w' = tr' ++ EvNew (arena_bytes (Capacity this')) :: trace w.

(** A failed operation has left the vector and the free store as they
    were: same size, same capacity, same storage, same elements. *)
Definition untouched {T} (this : Vector) (w : World T) (xs : list T)
    (this' : Vector) (w' : World T) : Prop :=
  this' = this ∧ heap w' = heap w ∧ repr this' w' xs ∧ elements this' w' = Some xs.

(** Doubling the capacity (and one more element) still fits [size_t], in
    elements and in bytes. *)
Definition room_to_double {T} `{!Element T} (this : Vector) : Prop :=
  ((2 * Capacity this + 1) * Npos sizeof < size_max)%N.

(** What copy assignment has achieved when it returns: the destination
    holds the elements of the source, which are untouched; with too little
    capacity it has taken over the storage of a full copy and released its
    own, otherwise it has kept its storage, assigned over the common prefix
    and destroyed or constructed what is beyond it. *)
Definition copied {T} `{!Element T} (this rhs : Vector) (w : World T)
    (xs ys : list T) (this' : Vector) (w' : World T) : Prop :=
  repr this' w' ys ∧ repr rhs w' ys ∧ Size this' = Size rhs ∧
  elements this' w' = Some ys ∧ elements rhs w' = Some ys ∧
  ((Capacity this < Size rhs)%N →
     Capacity this' = Size rhs ∧ block_at (buffer_ (data_ this')) w = None ∧
     trace w' = delete_events (data_ this) ++ (EvDtor <$> reverse xs) ++
                (EvCtor ∘ CopyCtor <$> reverse ys) ++
                EvNew (arena_bytes (Size rhs)) :: trace w) ∧
  ((Size rhs ≤ Capacity this)%N →
     data_ this' = data_ this ∧
     trace w' = assign_tail_events xs ys ++
                reverse (zip_with EvCopyAssign xs ys) ++ trace w).

(** [keeps m]: the computation [m] hands back the state it was given, as
    the operations on the free store and on elements do with the object. *)
Definition keeps {T St A} (m : M T St A) : Prop := ∀ s w, (m s w).1.2 = s.

(** ** Calls of the public member functions *)

(** A call of a member function which may modify the vector it is called
    on, or which reads an element of it. *)
Inductive call (T : Type) : Type :=
  | CallReserve (n : N)
  | CallResize (n : N)
  | CallPushBack (v : T)
  | CallPushBackMove (v : T)
  | CallEmplaceBack (args : ctor_call T)
  | CallPopBack
  | CallEmplace (pos : pointer) (args : ctor_call T)
  | CallInsert (pos : pointer) (v : T)
  | CallInsertMove (pos : pointer) (v : T)
  | CallErase (pos : pointer)
  | CallCopyAssign (rhs : option Vector)
  | CallIndex (i : N).
Arguments CallReserve {T} n.
Arguments CallResize {T} n.
Arguments CallPushBack {T} v.
Arguments CallPushBackMove {T} v.
Arguments CallEmplaceBack {T} args.
Arguments CallPopBack {T}.
Arguments CallEmplace {T} pos args.
Arguments CallInsert {T} pos v.
Arguments CallInsertMove {T} pos v.
Arguments CallErase {T} pos.
Arguments CallCopyAssign {T} rhs.
Arguments CallIndex {T} i.

Definition run_call {T} `{!Element T} (c : call T) : M T Vector unit :=
  match c with
  | CallReserve n => Reserve n
  | CallResize n => Resize n
  | CallPushBack v => PushBack v
  | CallPushBackMove v => PushBack_move v
  | CallEmplaceBack args => EmplaceBack args;; mret tt
  | CallPopBack => PopBack
  | CallEmplace pos args => Emplace pos args;; mret tt
  | CallInsert pos v => Insert pos v;; mret tt
  | CallInsertMove pos v => Insert_move pos v;; mret tt
  | CallErase pos => Erase pos;; mret tt
  | CallCopyAssign rhs => Vector_copy_assign rhs
  | CallIndex i => Vector_index i;; mret tt
  end.

(** What the member functions ask of their arguments: a position given to
    [Emplace] or [Insert] lies in [[begin(), end()]], and the source of a
    copy assignment is a vector which shares no storage with the
    destination. *)
Definition within_contract {T} (this : Vector) (w : World T) (c : call T) : Prop :=
  match c with
  | CallEmplace pos _ | CallInsert pos _ | CallInsertMove pos _ =>
      ∃ i : nat, i ≤ N.to_nat (size_ this) ∧ pos = begin this +ₚ Z.of_nat i
  | CallCopyAssign (Some rhs) => ∃ ys, repr rhs w ys ∧ disjoint this rhs
  | _ => True
  end.

(** The capacity has not gone down. *)
Definition not_less {T} (this : Vector) : Vector → World T → Prop :=
  λ this' _, (Capacity this ≤ Capacity this')%N.

(** ** Sequences of [PushBack] and [PopBack] *)

Inductive stack_op (T : Type) : Type :=
  | OpPushBack (v : T)
  | OpPushBackMove (v : T)
  | OpPopBack.
Arguments OpPushBack {T} v.
Arguments OpPushBackMove {T} v.
Arguments OpPopBack {T}.

Definition run_op {T} `{!Element T} (op : stack_op T) : M T Vector unit :=
  match op with
  | OpPushBack v => PushBack v
  | OpPushBackMove v => PushBack_move v
  | OpPopBack => PopBack
  end.

Fixpoint run_ops {T} `{!Element T} (ops : list (stack_op T)) : M T Vector unit :=
  match ops with
  | [] => mret tt
  | op :: ops' => run_op op;; run_ops ops'
  end.

(** The sequence of values the operations describe: a push adds its value
    at the end, a pop removes the last value if there is one. *)
Definition model_op {T} (l : list T) (op : stack_op T) : list T :=
  match op with
  | OpPushBack v | OpPushBackMove v => l ++ [v]
  | OpPopBack => removelast l
  end.

Definition model {T} (ops : list (stack_op T)) : list T :=
  fold_left model_op ops [].

Definition is_push {T} (op : stack_op T) : bool :=
  match op with OpPopBack => false | _ => true end.

Definition pushes {T} (ops : list (stack_op T)) : nat :=
  length (List.filter is_push ops).

Definition pops {T} (ops : list (stack_op T)) : nat :=
  length (List.filter (λ op, negb (is_push op)) ops).

(** No [PopBack] of the sequence finds the vector empty, when it starts
    with [n] elements. *)
Fixpoint no_pop_on_empty {T} (n : nat) (ops : list (stack_op T)) : bool :=
  match ops with
  | [] => true
  | OpPopBack :: ops' =>
      match n with
      | O => false
      | S n' => no_pop_on_empty n' ops'
      end
  | _ :: ops' => no_pop_on_empty (S n) ops'
  end.

(** ** Statements about the rest of the interface *)

(** An element was appended without reallocation: the vector keeps its
    storage and its capacity, every other block of the free store is as it
    was and no block was allocated or released. *)
Definition appended_in_place {T} (this : Vector) (w : World T) (xs : list T)
    (v : T) (this' : Vector) (w' : World T) : Prop :=
  data_ this' = data_ this ∧
  Size this' = (Size this + 1)%N ∧
  repr this' w' (xs ++ [v]) ∧
  elements this' w' = Some (xs ++ [v]) ∧
  (∀ b, is_Some (heap w' !! b) ↔ is_Some (heap w !! b)) ∧
  (∀ b, p_base (buffer_ (data_ this)) ≠ Some b → heap w' !! b = heap w !! b).

(** The vector has moved to fresh storage of capacity [n]: the new block
    did not exist before, the old one is released and every other block is
    as it was; one allocation was made. *)
Definition relocated {T} `{!Element T} (this : Vector) (w : World T) (n : N)
    (this' : Vector) (w' : World T) : Prop :=
  Capacity this' = n ∧
  buffer_ (data_ this') ≠ nullptr ∧
  block_at (buffer_ (data_ this')) w = None ∧
  (buffer_ (data_ this) ≠ nullptr → block_at (buffer_ (data_ this)) w' = None) ∧
  (∀ b, p_base (buffer_ (data_ this)) ≠ Some b →
        p_base (buffer_ (data_ this')) ≠ Some b → heap w' !! b = heap w !! b) ∧
  ∃ tr', trace w' = tr' ++ EvNew (arena_bytes n) :: trace w.

(** What [Resize(n)] has achieved when it returns: the first [n] elements
    are kept and value-initialised ones fill up to [n]; the storage is kept
    when the capacity suffices and has capacity [n] otherwise; the elements
    cut off were destroyed from the front of the tail to its end; nothing
    happens when [n] is the size. *)
Definition resized {T} `{!Element T} (this : Vector) (w : World T) (xs : list T)
    (n : N) (this' : Vector) (w' : World T) : Prop :=
  let ys := take (N.to_nat n) xs ++ replicate (N.to_nat n - length xs) value_init in
  Size this' = n ∧ repr this' w' ys ∧ elements this' w' = Some ys ∧
  ((n ≤ Capacity this)%N → data_ this' = data_ this) ∧
  ((Capacity this < n)%N → Capacity this' = n) ∧
  (n = Size this → this' = this ∧ w' = w) ∧
  ((n < Size this)%N →
     trace w' = (EvDtor <$> reverse (drop (N.to_nat n) xs)) ++ trace w).

(** The list [xs] with [v] put in before the element of index [i]. *)
Definition inserted {A} (i : nat) (v : A) (xs : list A) : list A :=
  take i xs ++ v :: drop i xs.

(** The positions at which [Emplace] inserts: [begin() + i] with [i] up to
    the size, except [end()] of a vector which is neither empty nor full.
    There the branch which keeps the storage has nothing to move backward,
    [std::move_backward(end(), end() - 1, end())], and assigns the new value
    over the element it has just moved up (see [displaced]). *)
Definition can_emplace (this : Vector) {A} (xs : list A) (i : nat) : Prop :=
  i ≤ length xs ∧ (i = length xs → xs = [] ∨ Size this = Capacity this).

(** What [Emplace] has achieved when it returns [p]: the new element is in
    front of the element which had index [i], [p] is its address, and the
    storage is kept when there was room and is a fresh block of the grown
    capacity when there was none. *)
Definition emplaced {T} `{!Element T} (this : Vector) (w : World T) (xs : list T)
    (i : nat) (v : T) (p : pointer) (this' : Vector) (w' : World T) : Prop :=
  repr this' w' (inserted i v xs) ∧
  elements this' w' = Some (inserted i v xs) ∧
  Size this' = (Size this + 1)%N ∧
  p = begin this' +ₚ Z.of_nat i ∧
  cell_at p w' = Some (Live v) ∧
  ((Size this < Capacity this)%N → data_ this' = data_ this) ∧
  (Size this = Capacity this →
     Capacity this' = grown (Size this) ∧ block_at (buffer_ (data_ this')) w = None).




(** A call within bounds: the block of the vector is as large as its
    capacity says, the sizes asked for fit [size_t], a position is one of
    the vector ([end()] only where [Emplace] inserts there, at a vector
    which is empty or full) and an index is below the size; the other
    operand of a copy assignment is a vector in storage of its own. *)
Definition defined_call {T} `{!Element T} (this : Vector) (w : World T)
    (c : call T) : Prop :=
  sized this w ∧
  match c with
  | CallReserve n | CallResize n => (n * Npos sizeof < size_max)%N
  | CallPushBack _ | CallPushBackMove _ | CallEmplaceBack _ => room_to_double this
  | CallPopBack => True
  | CallEmplace pos _ | CallInsert pos _ | CallInsertMove pos _ =>
      room_to_double this ∧
      ∃ i : nat, i ≤ N.to_nat (size_ this) ∧
                 (i = N.to_nat (size_ this) →
                  size_ this = 0%N ∨ size_ this = Capacity this) ∧
                 pos = begin this +ₚ Z.of_nat i
  | CallErase pos =>
      size_ this = 0%N ∨
      ∃ i : nat, i < N.to_nat (size_ this) ∧ pos = begin this +ₚ Z.of_nat i
  | CallCopyAssign None => True
  | CallCopyAssign (Some rhs) =>
      sized rhs w ∧ ∃ ys, repr rhs w ys ∧ disjoint this rhs
  | CallIndex i => (i < size_ this)%N
  end.

(** What a copy assignment which keeps its storage leaves when it ends in
    an exception: the object with its size and its storage, holding the first
    [k] elements of the source followed by its own elements from the [k]-th
    on, the source as it was, and every other block as it was. *)
Definition partly_assigned {T} (this rhs : Vector) (w : World T)
    (xs ys : list T) (this' : Vector) (w' : World T) : Prop :=
  this' = this ∧ repr rhs w' ys ∧
  (∀ b, p_base (buffer_ (data_ this)) ≠ Some b → heap w' !! b = heap w !! b) ∧
  ∃ k, k ≤ length xs ∧ k ≤ length ys ∧
       repr this w' (take k ys ++ drop k xs) ∧
       elements this w' = Some (take k ys ++ drop k xs).

(** ** An element type and vectors for the examples

    [probe nothrow_move nothrow_assign throw_at] is an element type over
    integers with four-byte objects.  Moving from an object leaves [0]
    behind.  With [throw_at = Some k] its copy constructor throws on the
    call which [k] calls to the copy constructor precede; nothing else
    throws, and [operator new] always succeeds. *)

Definition is_copy_ctor (e : event Z) : bool :=
  match e with
  | EvCtor (CopyCtor _) => true
  | _ => false
  end.

Definition copies_so_far (tr : list (event Z)) : nat :=
  length (List.filter is_copy_ctor tr).

Definition probe (nothrow_move nothrow_assign : bool) (throw_at : option nat)
    : Element Z := {|
  sizeof := 4;
  is_nothrow_move_constructible := nothrow_move;
  is_copy_constructible := true;
  is_nothrow_move_assignable := nothrow_assign;
  value_init := 0%Z;
  moved_from := λ _, 0%Z;
  ctor_throws c tr :=
    match c, throw_at with
    | CopyCtor _, Some k => Nat.eqb (copies_so_far tr) k
    | _, _ => false
    end;
  copy_assign_throws _ _ _ := false;
  move_assign_throws _ _ _ := false;
  operator_new_fails _ _ := false
|}.

(** A full vector [[5; 6]], and a vector [[1; 2; 3]] of capacity four, in
    one free store. *)
Definition two : Vector := MkVector (MkRawMemory (Ptr (Some 1%positive) 0) 2) 2.
Definition three : Vector := MkVector (MkRawMemory (Ptr (Some 2%positive) 0) 4) 3.
Definition store : World Z :=
  MkWorld (<[2%positive := [Live 1%Z; Live 2%Z; Live 3%Z; Raw]]>
             (<[1%positive := [Live 5%Z; Live 6%Z]]> ∅)) [].

(** An element type whose copy assignment throws on its [throw_at]-th call,
    counted from zero, and which offers every other operation without
    exceptions. *)
Definition is_copy_assign (e : event Z) : bool :=
  match e with
  | EvCopyAssign _ _ => true
  | _ => false
  end.

Definition assignments_so_far (tr : list (event Z)) : nat :=
  length (List.filter is_copy_assign tr).

Definition assign_probe (throw_at : nat) : Element Z := {|
  sizeof := 4;
  is_nothrow_move_constructible := true;
  is_copy_constructible := true;
  is_nothrow_move_assignable := true;
  value_init := 0%Z;
  moved_from := λ _, 0%Z;
  ctor_throws _ _ := false;
  copy_assign_throws _ _ tr := Nat.eqb (assignments_so_far tr) throw_at;
  move_assign_throws _ _ _ := false;
  operator_new_fails _ _ := false
|}.

(** * The program logic

    ** Rules for the monad *)

Section wp_rules.
Context {T : Type} `{!Element T} {St : Type}.
Implicit Types (s : St) (w : World T) (U : Prop).

Lemma wp_ret {A} (a : A) Q E U s w : Q a s w → wp (mret a : M T St A) Q E U s w.
Proof. done. Qed.

Lemma wp_bind {A B} (m : M T St A) (k : A → M T St B) Q E U s w :
  wp m (λ a s' w', wp (k a) Q E U s' w') E U s w → wp (m ≫= k) Q E U s w.
Proof.
  unfold wp, mbind, M_bind, bind. destruct (m s w) as [[[a| |] s'] w']; done.
Qed.

Lemma wp_mono {A} (m : M T St A) (Q Q' : A → St → World T → Prop) (E E' : St → World T → Prop) (U U' : Prop) s w :
  wp m Q E U s w →
  (∀ a s' w', Q a s' w' → Q' a s' w') → (∀ s' w', E s' w' → E' s' w') → (U → U') →
  wp m Q' E' U' s w.
Proof. unfold wp. destruct (m s w) as [[[a| |] s'] w']; eauto. Qed.

Lemma wp_throw {A} Q E U s w : E s w → wp (throw : M T St A) Q E U s w.
Proof. done. Qed.

Lemma wp_undefined {A} Q E U s w : U → wp (undefined : M T St A) Q E U s w.
Proof. done. Qed.

Lemma wp_catch {A} (m h : M T St A) Q E U s w :
  wp m Q (λ s' w', wp h Q E U s' w') U s w → wp (catch m h) Q E U s w.
Proof. unfold wp, catch. destruct (m s w) as [[[a| |] s'] w']; done. Qed.

Lemma wp_get Q E U s w : Q s s w → wp (get : M T St St) Q E U s w.
Proof. done. Qed.

Lemma wp_put s0 Q E U s w : Q tt s0 w → wp (put s0 : M T St unit) Q E U s w.
Proof. done. Qed.

Lemma wp_modify f Q E U s w : Q tt (f s) w → wp (modify f : M T St unit) Q E U s w.
Proof. done. Qed.

Lemma wp_get_trace Q E U s w : Q (trace w) s w → wp (get_trace : M T St _) Q E U s w.
Proof. done. Qed.

Lemma wp_get_world Q E U s w : Q w s w → wp (get_world : M T St _) Q E U s w.
Proof. done. Qed.

Lemma wp_emit e Q E U s w :
  Q tt s (MkWorld (heap w) (e :: trace w)) → wp (emit e : M T St unit) Q E U s w.
Proof. done. Qed.

Lemma wp_put_heap h Q E U s w :
  Q tt s (MkWorld h (trace w)) → wp (put_heap h : M T St unit) Q E U s w.
Proof. done. Qed.

Lemma wp_for_n (I : nat → St → World T → Prop) n i0 (body : Z → M T St unit) Q E U s w :
  I 0 s w →
  (∀ k s' w', k < n → I k s' w' →
     wp (body (i0 + Z.of_nat k)%Z) (λ _ s'' w'', I (S k) s'' w'') E U s' w') →
  (∀ s' w', I n s' w' → Q tt s' w') →
  wp (for_n n i0 body) Q E U s w.
Proof.
  revert I i0 s w. induction n as [|n IH]; intros I i0 s w H0 Hstep Hend; simpl.
  - by apply Hend.
  - apply wp_bind. pose proof (Hstep 0 s w ltac:(lia) H0) as H1.
    rewrite Z.add_0_r in H1. eapply wp_mono; [exact H1 | | done | done].
    simpl. intros _ s' w' HI.
    apply (IH (λ k, I (S k))); [done | | done].
    intros k s'' w'' Hk HI'. replace (i0 + 1 + Z.of_nat k)%Z with (i0 + Z.of_nat (S k))%Z by lia.
    apply Hstep; [lia | done].
Qed.
End wp_rules.

(** ** Rules for the free store, the element operations and the library
    algorithms *)

Section mem_rules.
Context {T : Type} `{!Element T} {St : Type}.
Implicit Types (s : St) (w : World T) (U : Prop) (b : addr) (blk : list (cell T)).

Lemma world_eta w : MkWorld (heap w) (trace w) = w.
Proof. by destruct w. Qed.

Lemma cell_at_Some b (o : Z) w blk c :
  heap w !! b = Some blk → (0 ≤ o)%Z → blk !! Z.to_nat o = Some c →
  cell_at (Ptr (Some b) o) w = Some c.
Proof.
  intros Hb Ho Hc. unfold cell_at. simpl. rewrite Hb. simpl.
  by rewrite decide_True.
Qed.

Lemma wp_load b (o : Z) v blk (Q : T → St → World T → Prop) E U s w :
  heap w !! b = Some blk → (0 ≤ o)%Z → blk !! Z.to_nat o = Some (Live v) →
  Q v s w → wp (load (Ptr (Some b) o)) Q E U s w.
Proof.
  intros Hb Ho Hc HQ. unfold load, wp, mbind, M_bind, bind, read_cell.
  by rewrite (cell_at_Some _ _ _ _ _ Hb Ho Hc).
Qed.

Lemma wp_write_cell b (o : Z) c blk (Q : unit → St → World T → Prop) E U s w :
  heap w !! b = Some blk →
  (¬ (0 ≤ o < Z.of_nat (length blk))%Z → U) →
  ((0 ≤ o < Z.of_nat (length blk))%Z →
     Q tt s (MkWorld (<[b := <[Z.to_nat o := c]> blk]> (heap w)) (trace w))) →
  wp (write_cell (Ptr (Some b) o) c) Q E U s w.
Proof.
  intros Hb HU HQ. unfold wp, write_cell. simpl. rewrite Hb.
  case_decide; auto.
Qed.

Lemma throws_not_never c tr :
  ctor_may_throw c && ctor_throws c tr = true → ¬ never_throws.
Proof. intros Hthrow (Hn & _). specialize (Hn c tr). by rewrite Hthrow in Hn. Qed.

Lemma wp_construct_checked c (Q : T → St → World T → Prop) E U s w :
  (ctor_may_throw c && ctor_throws c (trace w) = true →
     E s (MkWorld (heap w) (EvCtor c :: trace w))) →
  (ctor_may_throw c && ctor_throws c (trace w) = false →
     Q (ctor_value c) s (MkWorld (heap w) (EvCtor c :: trace w))) →
  wp (construct c) Q E U s w.
Proof.
  intros HE HQ. unfold construct. apply wp_bind, wp_get_trace.
  apply wp_bind, wp_emit.
  destruct (ctor_may_throw c && ctor_throws c (trace w)) eqn:Hthrow.
  - by apply wp_throw, HE.
  - by apply wp_ret, HQ.
Qed.

Lemma wp_construct c (Q : T → St → World T → Prop) E U s w :
  (ctor_may_throw c = true → ¬ never_throws →
     E s (MkWorld (heap w) (EvCtor c :: trace w))) →
  Q (ctor_value c) s (MkWorld (heap w) (EvCtor c :: trace w)) →
  wp (construct c) Q E U s w.
Proof.
  intros HE HQ. apply wp_construct_checked; [|done].
  intros Hthrow. apply HE; [|by eapply throws_not_never].
  by apply andb_true_iff in Hthrow as [? _].
Qed.

Lemma wp_destroy_local v (Q : unit → St → World T → Prop) E U s w :
  Q tt s (MkWorld (heap w) (EvDtor v :: trace w)) → wp (destroy_local v) Q E U s w.
Proof. done. Qed.

Lemma wp_destroy_at b (o : Z) v blk (Q : unit → St → World T → Prop) E U s w :
  heap w !! b = Some blk → (0 ≤ o)%Z → blk !! Z.to_nat o = Some (Live v) →
  Q tt s (MkWorld (<[b := <[Z.to_nat o := Raw]> blk]> (heap w)) (EvDtor v :: trace w)) →
  wp (destroy_at (Ptr (Some b) o)) Q E U s w.
Proof.
  intros Hb Ho Hc HQ. unfold destroy_at. apply wp_bind.
  eapply wp_load; [done..|]. apply wp_bind, wp_emit.
  eapply wp_write_cell; [done| |]; simpl.
  - intros Hn. apply lookup_lt_Some in Hc. lia.
  - done.
Qed.

Lemma list_inserts_snoc {A} (i : nat) (k : list A) (x : A) (l : list A) :
  list_inserts i (k ++ [x]) l = <[i + length k := x]> (list_inserts i k l).
Proof. rewrite list_inserts_app_l. simpl. by rewrite (Nat.add_comm i). Qed.

Lemma wp_destroy_n b (o : Z) vs blk (Q : unit → St → World T → Prop) E U s w :
  heap w !! b = Some blk → (0 ≤ o)%Z →
  (∀ j v, vs !! j = Some v → blk !! (Z.to_nat o + j) = Some (Live v)) →
  Q tt s (MkWorld (<[b := list_inserts (Z.to_nat o) (replicate (length vs) Raw) blk]> (heap w))
                  ((EvDtor <$> reverse vs) ++ trace w)) →
  wp (destroy_n (Ptr (Some b) o) (Z.of_nat (length vs))) Q E U s w.
Proof.
  intros Hb Ho Hvs HQ. unfold destroy_n. rewrite Nat2Z.id.
  apply (wp_for_n (λ k s' w', s' = s ∧
    w' = MkWorld (<[b := list_inserts (Z.to_nat o) (replicate k Raw) blk]> (heap w))
                 ((EvDtor <$> reverse (take k vs)) ++ trace w))).
  - split; [done|]. simpl. rewrite insert_id by done. by rewrite world_eta.
  - intros k s' w' Hk [-> ->].
    destruct (lookup_lt_is_Some_2 vs k Hk) as [v Hv].
    unfold ptr_add. cbn [p_base p_off].
    eapply wp_destroy_at; cbn [heap trace].
    + apply lookup_insert_eq.
    + lia.
    + rewrite list_lookup_inserts_ge by (rewrite length_replicate; lia).
      replace (Z.to_nat (o + (0 + Z.of_nat k))) with (Z.to_nat o + k) by lia. eauto.
    + split; [done|]. f_equal.
      * rewrite insert_insert_eq. f_equal.
        rewrite replicate_S_end, list_inserts_snoc, length_replicate.
        f_equal. lia.
      * rewrite (take_S_r _ _ _ Hv), reverse_snoc. done.
  - intros s' w' [-> ->]. by rewrite firstn_all.
Qed.

Lemma wp_placement_new_checked b (o : Z) c blk
    (Q : unit → St → World T → Prop) E U s w :
  heap w !! b = Some blk →
  (ctor_may_throw c && ctor_throws c (trace w) = true →
     E s (MkWorld (heap w) (EvCtor c :: trace w))) →
  (¬ (0 ≤ o < Z.of_nat (length blk))%Z → U) →
  ((0 ≤ o < Z.of_nat (length blk))%Z →
   ctor_may_throw c && ctor_throws c (trace w) = false →
     Q tt s (MkWorld (<[b := <[Z.to_nat o := Live (ctor_value c)]> blk]> (heap w))
                     (EvCtor c :: trace w))) →
  wp (placement_new (Ptr (Some b) o) c) Q E U s w.
Proof.
  intros Hb HE HU HQ. unfold placement_new. apply wp_bind.
  apply wp_construct_checked; [done|]. intros Hok.
  eapply wp_write_cell; [done|done|]. intros Hin. by apply HQ.
Qed.

Lemma wp_placement_new b (o : Z) c blk (Q : unit → St → World T → Prop) E U s w :
  heap w !! b = Some blk →
  (ctor_may_throw c = true → ¬ never_throws →
     E s (MkWorld (heap w) (EvCtor c :: trace w))) →
  (¬ (0 ≤ o < Z.of_nat (length blk))%Z → U) →
  ((0 ≤ o < Z.of_nat (length blk))%Z →
     Q tt s (MkWorld (<[b := <[Z.to_nat o := Live (ctor_value c)]> blk]> (heap w))
                     (EvCtor c :: trace w))) →
  wp (placement_new (Ptr (Some b) o) c) Q E U s w.
Proof.
  intros Hb HE HU HQ. eapply wp_placement_new_checked; [done| |done|by auto].
  intros Hthrow. apply HE; [|by eapply throws_not_never].
  by apply andb_true_iff in Hthrow as [? _].
Qed.

Lemma wp_uninitialized_copy_n_checked bs (os : Z) bd (od : Z) vs sblk dblk
    (Q : unit → St → World T → Prop) E U s w :
  heap w !! bs = Some sblk → heap w !! bd = Some dblk → bs ≠ bd →
  (0 ≤ os)%Z → (0 ≤ od)%Z →
  (∀ j v, vs !! j = Some v → sblk !! (Z.to_nat os + j) = Some (Live v)) →
  (¬ fits od (length vs) dblk → U) →
  (∀ dblk' tr', length dblk' = length dblk → ¬ never_throws →
     E s (MkWorld (<[bd := dblk']> (heap w)) tr')) →
  (fits od (length vs) dblk →
   (∀ j v, vs !! j = Some v →
      ctor_throws (CopyCtor v)
        ((EvCtor ∘ CopyCtor <$> reverse (take j vs)) ++ trace w) = false) →
     Q tt s (MkWorld (<[bd := list_inserts (Z.to_nat od) (Live <$> vs) dblk]> (heap w))
                     ((EvCtor ∘ CopyCtor <$> reverse vs) ++ trace w))) →
  wp (uninitialized_copy_n (Ptr (Some bs) os) (Z.of_nat (length vs)) (Ptr (Some bd) od))
     Q E U s w.
Proof.
  intros Hs Hd Hne Hos Hod Hvs HU HE HQ. unfold uninitialized_copy_n. rewrite Nat2Z.id.
  apply (wp_for_n (λ k s' w', s' = s ∧ fits od k dblk ∧
    (∀ j v, j < k → vs !! j = Some v →
       ctor_throws (CopyCtor v)
         ((EvCtor ∘ CopyCtor <$> reverse (take j vs)) ++ trace w) = false) ∧
    w' = MkWorld (<[bd := list_inserts (Z.to_nat od) (Live <$> take k vs) dblk]> (heap w))
                 ((EvCtor ∘ CopyCtor <$> reverse (take k vs)) ++ trace w))).
  - split; [done|]. split; [by left|]. split; [intros; lia|].
    cbn. rewrite insert_id by done. by rewrite world_eta.
  - intros k s' w' Hk (-> & Hfit & Hsofar & ->).
    destruct (lookup_lt_is_Some_2 vs k Hk) as [v Hv].
    unfold ptr_add. cbn [p_base p_off].
    assert (Hlk : length (take k vs) = k) by (rewrite length_take; lia).
    apply wp_catch, wp_bind.
    eapply wp_load; cbn [heap trace].
    { rewrite lookup_insert_ne by done. done. }
    { lia. }
    { replace (Z.to_nat (os + (0 + Z.of_nat k))) with (Z.to_nat os + k) by lia. eauto. }
    eapply wp_placement_new_checked; cbn [heap trace].
    + apply lookup_insert_eq.
    + intros Hthrow. apply throws_not_never in Hthrow. apply wp_bind.
      replace (0 + Z.of_nat k)%Z with (Z.of_nat (length (take k vs))) by lia.
      eapply wp_destroy_n; cbn [heap trace].
      * apply lookup_insert_eq.
      * done.
      * intros j v' Hj. apply lookup_lt_Some in Hj as Hjlt. rewrite Hlk in Hjlt.
        destruct Hfit as [->|Hfit]; [lia|].
        rewrite list_lookup_inserts by (rewrite ?length_fmap, ?Hlk; lia).
        rewrite list_lookup_fmap. replace (Z.to_nat od + j - Z.to_nat od) with j by lia.
        by rewrite Hj.
      * apply wp_throw. rewrite insert_insert_eq. apply HE; [|done].
        by rewrite !length_inserts.
    + intros Hn. apply HU. intros [Hz|Hfit']; [lia|]. apply Hn.
      rewrite length_inserts. lia.
    + rewrite length_inserts. intros Hin Hok. split; [done|]. split; [right; lia|].
      split.
      { intros j v' Hj Hv'. destruct (decide (j = k)) as [->|Hjk].
        - rewrite Hv in Hv'. injection Hv' as <-. exact Hok.
        - apply Hsofar; [lia|done]. }
      rewrite insert_insert_eq. f_equal.
      * f_equal. rewrite (take_S_r _ _ _ Hv), fmap_app.
        change (Live <$> [v]) with [Live v].
        rewrite list_inserts_snoc, length_fmap, Hlk.
        cbn. f_equal. lia.
      * rewrite (take_S_r _ _ _ Hv), reverse_snoc. done.
  - intros s' w' (-> & Hfit & Hsofar & ->). rewrite firstn_all. apply HQ; [done|].
    intros j v Hv. apply Hsofar; [|done]. by eapply lookup_lt_Some.
Qed.

Lemma wp_uninitialized_copy_n bs (os : Z) bd (od : Z) vs sblk dblk
    (Q : unit → St → World T → Prop) E U s w :
  heap w !! bs = Some sblk → heap w !! bd = Some dblk → bs ≠ bd →
  (0 ≤ os)%Z → (0 ≤ od)%Z →
  (∀ j v, vs !! j = Some v → sblk !! (Z.to_nat os + j) = Some (Live v)) →
  (¬ fits od (length vs) dblk → U) →
  (∀ dblk' tr', length dblk' = length dblk → ¬ never_throws →
     E s (MkWorld (<[bd := dblk']> (heap w)) tr')) →
  (fits od (length vs) dblk →
     Q tt s (MkWorld (<[bd := list_inserts (Z.to_nat od) (Live <$> vs) dblk]> (heap w))
                     ((EvCtor ∘ CopyCtor <$> reverse vs) ++ trace w))) →
  wp (uninitialized_copy_n (Ptr (Some bs) os) (Z.of_nat (length vs)) (Ptr (Some bd) od))
     Q E U s w.
Proof.
  intros Hs Hd Hne Hos Hod Hvs HU HE HQ.
  eapply wp_uninitialized_copy_n_checked; eauto.
Qed.

Lemma insert_under {A} (h : gmap addr A) bs bd (x y z : A) :
  bs ≠ bd → <[bd := x]> (<[bs := y]> (<[bd := z]> h)) = <[bs := y]> (<[bd := x]> h).
Proof.
  intros Hne. rewrite (insert_insert_ne (<[bd:=z]> h) bd bs) by done.
  by rewrite insert_insert_eq.
Qed.

Lemma wp_uninitialized_move_n bs (os : Z) bd (od : Z) vs sblk dblk
    (Q : unit → St → World T → Prop) E U s w :
  heap w !! bs = Some sblk → heap w !! bd = Some dblk → bs ≠ bd →
  (0 ≤ os)%Z → (0 ≤ od)%Z →
  (∀ j v, vs !! j = Some v → sblk !! (Z.to_nat os + j) = Some (Live v)) →
  (¬ fits od (length vs) dblk → U) →
  (∀ sblk' dblk' tr', length dblk' = length dblk →
     is_nothrow_move_constructible = false → ¬ never_throws →
     E s (MkWorld (<[bs := sblk']> (<[bd := dblk']> (heap w))) tr')) →
  (fits od (length vs) dblk →
     Q tt s (MkWorld
               (<[bs := list_inserts (Z.to_nat os) (Live ∘ moved_from <$> vs) sblk]>
                  (<[bd := list_inserts (Z.to_nat od) (Live <$> vs) dblk]> (heap w)))
               ((EvCtor ∘ MoveCtor <$> reverse vs) ++ trace w))) →
  wp (uninitialized_move_n (Ptr (Some bs) os) (Z.of_nat (length vs)) (Ptr (Some bd) od))
     Q E U s w.
Proof.
  intros Hs Hd Hne Hos Hod Hvs HU HE HQ. unfold uninitialized_move_n. rewrite Nat2Z.id.
  apply (wp_for_n (λ k s' w', s' = s ∧ fits od k dblk ∧
    w' = MkWorld
           (<[bs := list_inserts (Z.to_nat os) (Live ∘ moved_from <$> take k vs) sblk]>
              (<[bd := list_inserts (Z.to_nat od) (Live <$> take k vs) dblk]> (heap w)))
           ((EvCtor ∘ MoveCtor <$> reverse (take k vs)) ++ trace w))).
  - split; [done|]. split; [by left|]. cbn.
    rewrite (insert_id (heap w) bd) by done. rewrite insert_id by done. by rewrite world_eta.
  - intros k s' w' Hk (-> & Hfit & ->).
    destruct (lookup_lt_is_Some_2 vs k Hk) as [v Hv].
    unfold ptr_add. cbn [p_base p_off].
    assert (Hlk : length (take k vs) = k) by (rewrite length_take; lia).
    assert (Hsk : sblk !! (Z.to_nat os + k) = Some (Live v)) by eauto.
    apply wp_catch. unfold move_construct_at. apply wp_bind.
    eapply wp_load; cbn [heap trace].
    { apply lookup_insert_eq. }
    { lia. }
    { replace (Z.to_nat (os + (0 + Z.of_nat k))) with (Z.to_nat os + k) by lia.
      rewrite list_lookup_inserts_ge by (rewrite length_fmap, Hlk; lia). done. }
    apply wp_bind.
    eapply wp_placement_new; cbn [heap trace].
    + rewrite lookup_insert_ne by done. apply lookup_insert_eq.
    + intros Hmay Hthrow. apply wp_bind.
      replace (0 + Z.of_nat k)%Z with (Z.of_nat (length (take k vs))) by lia.
      eapply wp_destroy_n; cbn [heap trace].
      * rewrite lookup_insert_ne by done. apply lookup_insert_eq.
      * done.
      * intros j v' Hj. apply lookup_lt_Some in Hj as Hjlt. rewrite Hlk in Hjlt.
        destruct Hfit as [->|Hfit]; [lia|].
        rewrite list_lookup_inserts by (rewrite ?length_fmap, ?Hlk; lia).
        rewrite list_lookup_fmap. replace (Z.to_nat od + j - Z.to_nat od) with j by lia.
        by rewrite Hj.
      * apply wp_throw. rewrite (insert_under _ bs bd) by done. apply HE; [| |done].
        -- by rewrite !length_inserts.
        -- cbn in Hmay. by destruct is_nothrow_move_constructible.
    + intros Hn. apply HU. intros [Hz|Hfit']; [lia|]. apply Hn.
      rewrite length_inserts. lia.
    + rewrite length_inserts. intros Hin.
      eapply wp_write_cell; cbn [heap trace].
      * rewrite (insert_under _ bs bd) by done. apply lookup_insert_eq.
      * intros Hn. exfalso. apply Hn. rewrite length_inserts.
        apply lookup_lt_Some in Hsk. lia.
      * intros _. split; [done|]. split; [right; lia|].
        rewrite (insert_under _ bs bd) by done. rewrite insert_insert_eq. f_equal.
        -- f_equal.
           ++ rewrite (take_S_r _ _ _ Hv), fmap_app.
              change (Live ∘ moved_from <$> [v]) with [Live (moved_from v)].
              rewrite list_inserts_snoc, length_fmap, Hlk. f_equal. lia.
           ++ f_equal. rewrite (take_S_r _ _ _ Hv), fmap_app.
              change (Live <$> [v]) with [Live v].
              rewrite list_inserts_snoc, length_fmap, Hlk. cbn. f_equal. lia.
        -- rewrite (take_S_r _ _ _ Hv), reverse_snoc. done.
  - intros s' w' (-> & Hfit & ->). rewrite firstn_all. by apply HQ.
Qed.
End mem_rules.

(** ** Blocks of cells and the allocator *)

Section block_lemmas.
Context {A : Type}.
Implicit Types (l k : list A).

Lemma list_inserts_same i k l :
  (∀ j x, k !! j = Some x → l !! (i + j) = Some x) → list_inserts i k l = l.
Proof.
  intros H. apply list_eq. intros j.
  destruct (decide (i ≤ j < i + length k)) as [Hin|Hout].
  - destruct (lookup_lt_is_Some_2 k (j - i) ltac:(lia)) as [x Hx].
    pose proof (H _ _ Hx) as Hl. replace (i + (j - i)) with j in Hl by lia.
    rewrite list_lookup_inserts; [congruence|lia|]. apply lookup_lt_Some in Hl. lia.
  - destruct (decide (j < i)).
    + by rewrite list_lookup_inserts_lt.
    + rewrite list_lookup_inserts_ge; [done|lia].
Qed.

Lemma list_inserts_over i k1 k2 l :
  length k1 = length k2 → list_inserts i k1 (list_inserts i k2 l) = list_inserts i k1 l.
Proof.
  intros Hlen. apply list_eq. intros j.
  destruct (decide (j < i)).
  { by rewrite !list_lookup_inserts_lt. }
  destruct (decide (i + length k1 ≤ j)).
  { rewrite !list_lookup_inserts_ge by lia. done. }
  destruct (decide (j < length l)).
  - rewrite !list_lookup_inserts; rewrite ?length_inserts; (done || lia).
  - rewrite !(lookup_ge_None_2 _ j); rewrite ?length_inserts; (done || lia).
Qed.

Lemma list_inserts_replicate_0 k (x : A) n :
  length k ≤ n → list_inserts 0 k (replicate n x) = k ++ replicate (n - length k) x.
Proof.
  intros Hle. replace n with (length k + (n - length k)) at 1 by lia.
  rewrite replicate_add. apply list_inserts_0_r. by rewrite length_replicate.
Qed.

Lemma list_inserts_app_at k1 k2 l :
  list_inserts (length k1) k2 (k1 ++ l) = k1 ++ list_inserts 0 k2 l.
Proof. rewrite <-(Nat.add_0_r (length k1)). apply list_inserts_app_r. Qed.

Lemma insert_app_at k l (x : A) :
  <[length k := x]> (k ++ l) = k ++ <[0 := x]> l.
Proof. rewrite insert_app_r_alt by lia. by rewrite Nat.sub_diag. Qed.
End block_lemmas.

Section alloc_rules.
Context {T : Type} `{!Element T} {St : Type}.
Implicit Types (s : St) (w : World T) (U : Prop) (b : addr) (blk : list (cell T)).

Lemma wp_operator_new bytes (Q : pointer → St → World T → Prop) E U s w :
  (¬ never_throws → E s (MkWorld (heap w) (EvNew bytes :: trace w))) →
  (∀ a, heap w !! a = None →
     Q (Ptr (Some a) 0) s
       (MkWorld (<[a := replicate (N.to_nat (bytes / Npos sizeof)) Raw]> (heap w))
                (EvNew bytes :: trace w))) →
  wp (operator_new bytes) Q E U s w.
Proof.
  intros HE HQ. unfold operator_new. apply wp_bind, wp_get_trace, wp_bind, wp_emit.
  destruct (operator_new_fails bytes (trace w)) eqn:Hf.
  - apply wp_throw, HE. intros (_ & _ & _ & Hn). by rewrite Hn in Hf.
  - apply wp_bind, wp_get_world, wp_bind, wp_put_heap, wp_ret. cbn [heap trace].
    apply HQ. apply not_elem_of_dom, is_fresh.
Qed.

Lemma wp_operator_delete_null (Q : unit → St → World T → Prop) E U s w :
  Q tt s w → wp (operator_delete nullptr) Q E U s w.
Proof. done. Qed.

Lemma wp_operator_delete a blk (Q : unit → St → World T → Prop) E U s w :
  heap w !! a = Some blk →
  Q tt s (MkWorld (delete a (heap w)) (EvDelete a :: trace w)) →
  wp (operator_delete (Ptr (Some a) 0)) Q E U s w.
Proof.
  intros Ha HQ. unfold operator_delete. rewrite decide_False by done. cbn [p_base p_off].
  apply wp_bind, wp_get_world. rewrite decide_True by (by rewrite Ha).
  by apply wp_bind, wp_emit, wp_put_heap.
Qed.

Lemma wp_RawMemory_ctor n (Q : RawMemory → St → World T → Prop) E U s w :
  (n ≠ 0%N → ¬ never_throws →
     E s (MkWorld (heap w) (EvNew (sz_mul n (Npos sizeof)) :: trace w))) →
  (n = 0%N → Q (MkRawMemory nullptr 0) s w) →
  (n ≠ 0%N → ∀ a, heap w !! a = None →
     Q (MkRawMemory (Ptr (Some a) 0) n) s
       (MkWorld (<[a := replicate (N.to_nat (sz_mul n (Npos sizeof) / Npos sizeof)) Raw]> (heap w))
                (EvNew (sz_mul n (Npos sizeof)) :: trace w))) →
  wp (RawMemory_ctor n) Q E U s w.
Proof.
  intros HE H0 HQ. unfold RawMemory_ctor, Allocate. apply wp_bind.
  case_decide as Hn.
  - apply wp_operator_new; [by apply HE|]. intros a Ha. apply wp_ret. by apply HQ.
  - assert (n = 0%N) as -> by (by destruct (decide (n = 0%N))). by apply wp_ret, H0.
Qed.
End alloc_rules.

(** ** Locals with a destructor; migration to new storage *)

Section migrate.
Context {T : Type} `{!Element T} {St : Type}.
Implicit Types (s : St) (w : World T) (U : Prop) (b : addr) (blk : list (cell T)).

Lemma wp_scoped {L A} (l : L) (dtor : L → M T St unit) (body : M T (St * L) A)
    (Q : A → St → World T → Prop) E U s w :
  wp body
     (λ a sl w', wp (dtor sl.2) (λ _ s'' w'', Q a s'' w'') (λ _ _, U) U sl.1 w')
     (λ sl w', wp (dtor sl.2) (λ _ s'' w'', E s'' w'') (λ _ _, U) U sl.1 w')
     U (s, l) w →
  wp (scoped l dtor body) Q E U s w.
Proof.
  unfold wp, scoped. destruct (body (s, l) w) as [[[a| |] [s' l']] w']; cbn; [| |done].
  - destruct (dtor l' s' w') as [[[[]| |] s''] w'']; done.
  - destruct (dtor l' s' w') as [[[[]| |] s''] w'']; done.
Qed.

Lemma wp_migrate_n_0 (p q : pointer) (Q : unit → St → World T → Prop) E U s w :
  Q tt s w → wp (migrate_n p 0 q) Q E U s w.
Proof. unfold migrate_n. by destruct relocate_by_move. Qed.

Lemma wp_destroy_n_0 (p : pointer) (Q : unit → St → World T → Prop) E U s w :
  Q tt s w → wp (destroy_n p 0) Q E U s w.
Proof. done. Qed.

Lemma wp_migrate_n_checked bs (os : Z) bd (od : Z) vs sblk dblk
    (Q : unit → St → World T → Prop) E U s w :
  heap w !! bs = Some sblk → heap w !! bd = Some dblk → bs ≠ bd →
  (0 ≤ os)%Z → (0 ≤ od)%Z →
  (∀ j v, vs !! j = Some v → sblk !! (Z.to_nat os + j) = Some (Live v)) →
  (¬ fits od (length vs) dblk → U) →
  (∀ sblk' dblk' tr', length dblk' = length dblk →
     (is_copy_constructible = true → sblk' = sblk) → ¬ never_throws →
     E s (MkWorld (<[bs := sblk']> (<[bd := dblk']> (heap w))) tr')) →
  (fits od (length vs) dblk → copies_return vs (trace w) →
     Q tt s (MkWorld
               (<[bs := list_inserts (Z.to_nat os) (Live <$> left_behind vs) sblk]>
                  (<[bd := list_inserts (Z.to_nat od) (Live <$> vs) dblk]> (heap w)))
               ((EvCtor ∘ migrate_ctor <$> reverse vs) ++ trace w))) →
  wp (migrate_n (Ptr (Some bs) os) (Z.of_nat (length vs)) (Ptr (Some bd) od)) Q E U s w.
Proof.
  intros Hs Hd Hne Hos Hod Hvs HU HE HQ.
  unfold migrate_n, left_behind, migrate_ctor, copies_return in *.
  destruct relocate_by_move eqn:Hrel.
  - eapply wp_uninitialized_move_n; try done.
    + intros sblk' dblk' tr' Hlen Hnt Hthrow. apply HE; [done| |done].
      intros Hcc. unfold relocate_by_move in Hrel. rewrite Hnt, Hcc in Hrel. done.
    + intros Hfit. rewrite <-list_fmap_compose in HQ. by apply HQ.
  - eapply wp_uninitialized_copy_n_checked; try done.
    + intros dblk' tr' Hlen Hthrow.
      rewrite <-(insert_id (<[bd:=dblk']> (heap w)) bs sblk)
        by (by rewrite lookup_insert_ne).
      by apply HE.
    + intros Hfit Hok. specialize (HQ Hfit (λ _, Hok)).
      rewrite (list_inserts_same _ _ sblk) in HQ.
      * rewrite insert_id in HQ by (by rewrite lookup_insert_ne). done.
      * intros j x Hj. rewrite list_lookup_fmap in Hj.
        destruct (vs !! j) as [v|] eqn:Hv; [|done]. cbn in Hj. injection Hj as <-. eauto.
Qed.

Lemma wp_migrate_n bs (os : Z) bd (od : Z) vs sblk dblk
    (Q : unit → St → World T → Prop) E U s w :
  heap w !! bs = Some sblk → heap w !! bd = Some dblk → bs ≠ bd →
  (0 ≤ os)%Z → (0 ≤ od)%Z →
  (∀ j v, vs !! j = Some v → sblk !! (Z.to_nat os + j) = Some (Live v)) →
  (¬ fits od (length vs) dblk → U) →
  (∀ sblk' dblk' tr', length dblk' = length dblk →
     (is_copy_constructible = true → sblk' = sblk) → ¬ never_throws →
     E s (MkWorld (<[bs := sblk']> (<[bd := dblk']> (heap w))) tr')) →
  (fits od (length vs) dblk →
     Q tt s (MkWorld
               (<[bs := list_inserts (Z.to_nat os) (Live <$> left_behind vs) sblk]>
                  (<[bd := list_inserts (Z.to_nat od) (Live <$> vs) dblk]> (heap w)))
               ((EvCtor ∘ migrate_ctor <$> reverse vs) ++ trace w))) →
  wp (migrate_n (Ptr (Some bs) os) (Z.of_nat (length vs)) (Ptr (Some bd) od)) Q E U s w.
Proof.
  intros Hs Hd Hne Hos Hod Hvs HU HE HQ. eapply wp_migrate_n_checked; eauto.
Qed.
End migrate.

(** ** The representation predicate *)

Section repr.
Context {T : Type} `{!Element T}.
Implicit Types (w : World T) (v : Vector) (xs : list T).

Lemma block_at_Some (p : pointer) w blk :
  block_at p w = Some blk ↔ ∃ b, p = Ptr (Some b) 0 ∧ heap w !! b = Some blk.
Proof.
  unfold block_at. destruct p as [[b|] o]; cbn; case_decide; subst; split;
    try (intros (b' & [=] & ?)); try done; subst; eauto.
Qed.

Lemma repr_inv v w xs :
  repr v w xs →
  size_ v = N.of_nat (length xs) ∧
  (size_ v ≤ capacity_ (data_ v) < size_max)%N ∧
  ((buffer_ (data_ v) = nullptr ∧ capacity_ (data_ v) = 0%N ∧ xs = []) ∨
   (∃ b k, buffer_ (data_ v) = Ptr (Some b) 0 ∧
           heap w !! b = Some ((Live <$> xs) ++ replicate k Raw))).
Proof.
  intros (Hsz & Hcap & Hblk). split; [done|]. split; [done|].
  case_decide as Hnull.
  - left. split; [done|]. split; [done|]. destruct xs; [done|]. cbn in Hsz. lia.
  - right. destruct (block_at _ w) as [blk|] eqn:Hb; [|done].
    apply block_at_Some in Hb as (b & Hbuf & Hh). exists b. eexists.
    split; [done|]. by rewrite Hh, Hblk at 1.
Qed.

Lemma repr_block b k cap xs w :
  heap w !! b = Some ((Live <$> xs) ++ replicate k Raw) →
  (N.of_nat (length xs) ≤ cap < size_max)%N →
  repr (MkVector (MkRawMemory (Ptr (Some b) 0) cap) (N.of_nat (length xs))) w xs.
Proof.
  intros Hb Hcap. split; [done|]. split; [done|]. cbn.
  rewrite decide_False by done. unfold block_at. cbn. rewrite Hb.
  rewrite decide_True by done. cbn.
  rewrite length_app, length_fmap, length_replicate. f_equal. f_equal. lia.
Qed.

Lemma repr_null w :
  repr (MkVector (MkRawMemory nullptr 0) 0) w [].
Proof. split; [done|]. split; [done|]. cbn. by rewrite decide_True. Qed.

Lemma repr_live (k : nat) xs j x :
  xs !! j = Some x → ((Live <$> xs) ++ replicate k Raw : list (cell T)) !! (Z.to_nat 0 + j) = Some (Live x).
Proof.
  intros Hj. change (Z.to_nat 0 + j) with j. rewrite lookup_app_l by (rewrite length_fmap; by eapply lookup_lt_Some).
  by rewrite list_lookup_fmap, Hj.
Qed.
End repr.

Ltac heap_eq :=
  apply map_eq; intros ?;
  repeat (rewrite ?lookup_insert, ?lookup_delete; repeat case_decide; subst;
          try done; try congruence).

Section reserve.
Context {T : Type} `{!Element T}.
Implicit Types (w : World T) (this : Vector) (xs : list T) (U : Prop).

Lemma wp_Reserve_checked n this w xs (Q : unit → Vector → World T → Prop) E U :
  repr this w xs →
  ((n ≤ Capacity this)%N → Q tt this w) →
  ((Capacity this < n)%N →
     (∀ w', ¬ never_throws → (is_copy_constructible = true → heap w' = heap w) →
            E this w') ∧
     (¬ (length xs ≤ arena_cells n) → xs ≠ [] → U) ∧
     (∀ a tr', heap w !! a = None → length xs ≤ arena_cells n →
        copies_return xs (EvNew (arena_bytes n) :: trace w) →
        Q tt (MkVector (MkRawMemory (Ptr (Some a) 0) n) (size_ this))
             (MkWorld (<[a := (Live <$> xs) ++ replicate (arena_cells n - length xs) Raw]>
                         (release (data_ this) (heap w)))
                      (tr' ++ EvNew (arena_bytes n) :: trace w)))) →
  wp (Reserve n) Q E U this w.
Proof.
  intros Hrepr Hnoop Hgrow. unfold Reserve. apply wp_bind, wp_get.
  case_decide as Hn; [by apply wp_ret, Hnoop|].
  destruct (Hgrow ltac:(lia)) as (HE & HU & HQ). clear Hgrow Hnoop.
  apply repr_inv in Hrepr as (Hsz & Hcap & Hblk).
  apply wp_bind, wp_RawMemory_ctor.
  - intros _ Hthrow. by apply HE.
  - intros ->. unfold Capacity in Hn. lia.
  - intros Hn0 a Ha. apply wp_scoped.
    destruct Hblk as [(Hbuf & Hc0 & ->)|(b & k & Hbuf & Hb)].
    + (* no storage yet *)
      cbn in Hsz. rewrite Hsz. unfold GetAddress. rewrite Hbuf. cbn [buffer_].
      apply wp_bind, wp_migrate_n_0, wp_bind, wp_destroy_n_0, wp_modify.
      cbn. rewrite Hbuf. apply wp_operator_delete_null.
      specialize (HQ a [] Ha ltac:(cbn; lia) ltac:(by intros ? ? ? ?)).
      unfold release in HQ. rewrite Hbuf in HQ.
      cbn in HQ. rewrite Nat.sub_0_r in HQ. exact HQ.
    + rewrite Hsz, nat_N_Z. unfold GetAddress. rewrite Hbuf. cbn [buffer_].
      assert (b ≠ a) as Hab by congruence.
      apply wp_bind. eapply wp_migrate_n_checked; cbn [heap trace fst snd].
      * rewrite lookup_insert_ne by done. exact Hb.
      * apply lookup_insert_eq.
      * done.
      * done.
      * done.
      * intros j v. apply repr_live.
      * intros Hnf. apply HU.
        -- intros Hle. apply Hnf. right. rewrite length_replicate. unfold arena_cells, arena_bytes in Hle. lia.
        -- intros ->. apply Hnf. by left.
      * intros sblk' dblk' tr' Hlen Hsame Hthrow. cbn [fst snd].
        eapply wp_operator_delete; cbn [heap trace].
        { rewrite lookup_insert_ne by done. apply lookup_insert_eq. }
        apply HE; [done|]. intros Hcc. rewrite (Hsame Hcc). cbn [heap].
        heap_eq.
      * intros Hfit Hcopies.
        assert (Hle : length xs ≤ arena_cells n).
        { destruct Hfit as [->|Hfit]; [lia|]. rewrite length_replicate in Hfit.
          unfold arena_cells, arena_bytes. lia. }
        assert (length (left_behind xs) = length xs) as Hll
          by (unfold left_behind; destruct relocate_by_move; by rewrite ?length_fmap).
        apply wp_bind. rewrite <-Hll.
        eapply wp_destroy_n; cbn [heap trace].
        { apply lookup_insert_eq. }
        { done. }
        { intros j v Hj. apply lookup_lt_Some in Hj as Hjlt.
          rewrite list_lookup_inserts; rewrite ?length_app, ?length_fmap; try lia.
          rewrite list_lookup_fmap. replace (Z.to_nat 0 + j - Z.to_nat 0) with j by lia.
          by rewrite Hj. }
        apply wp_modify. cbn [swap_data RawMemory_Swap fst snd data_ buffer_ capacity_].
        rewrite Hbuf.
        eapply wp_operator_delete; cbn [heap trace].
        { apply lookup_insert_eq. }
        specialize (HQ a (EvDelete b :: (EvDtor <$> reverse (left_behind xs)) ++
                          (EvCtor ∘ migrate_ctor <$> reverse xs)) Ha Hle Hcopies).
        rewrite <-app_comm_cons, <-app_assoc in HQ.
        replace (<[a:=(Live <$> xs) ++ replicate (arena_cells n - length xs) Raw]>
                   (release (data_ this) (heap w)))
          with (delete b
                  (<[b:=list_inserts (Z.to_nat 0) (replicate (length (left_behind xs)) Raw)
                          (list_inserts (Z.to_nat 0) (Live <$> left_behind xs)
                             ((Live <$> xs) ++ replicate k Raw))]>
                     (<[b:=list_inserts (Z.to_nat 0) (Live <$> left_behind xs)
                             ((Live <$> xs) ++ replicate k Raw)]>
                        (<[a:=list_inserts (Z.to_nat 0) (Live <$> xs)
                                (replicate (N.to_nat (sz_mul n (N.pos sizeof) `div` N.pos sizeof)) Raw)]>
                           (<[a:=replicate (N.to_nat (sz_mul n (N.pos sizeof) `div` N.pos sizeof)) Raw]>
                              (heap w)))))) in HQ; [exact HQ|].
        unfold release. rewrite Hbuf. cbn [p_base].
        rewrite list_inserts_replicate_0 by (rewrite length_fmap; exact Hle).
        rewrite length_fmap. heap_eq.
Qed.

Lemma wp_Reserve n this w xs (Q : unit → Vector → World T → Prop) E U :
  repr this w xs →
  ((n ≤ Capacity this)%N → Q tt this w) →
  ((Capacity this < n)%N →
     (∀ w', ¬ never_throws → (is_copy_constructible = true → heap w' = heap w) →
            E this w') ∧
     (¬ (length xs ≤ arena_cells n) → xs ≠ [] → U) ∧
     (∀ a tr', heap w !! a = None → length xs ≤ arena_cells n →
        Q tt (MkVector (MkRawMemory (Ptr (Some a) 0) n) (size_ this))
             (MkWorld (<[a := (Live <$> xs) ++ replicate (arena_cells n - length xs) Raw]>
                         (release (data_ this) (heap w)))
                      (tr' ++ EvNew (arena_bytes n) :: trace w)))) →
  wp (Reserve n) Q E U this w.
Proof.
  intros Hrepr Hnoop Hgrow. eapply wp_Reserve_checked; [done|done|].
  intros Hlt. destruct (Hgrow Hlt) as (HE & HU & HQ). eauto.
Qed.
End reserve.

(** ** Arithmetic on [size_t]; constructing one element in place *)

Section arith.
Context {T : Type} `{!Element T}.

Lemma arena_cells_le n : arena_cells n ≤ N.to_nat n.
Proof.
  unfold arena_cells, arena_bytes, sz_mul, wrap.
  assert ((((n * N.pos sizeof) `mod` size_max) `div` N.pos sizeof) ≤ n)%N as Hle; [|lia].
  transitivity ((n * N.pos sizeof) `div` N.pos sizeof)%N.
  - apply N.Div0.div_le_mono. apply N.Div0.mod_le.
  - rewrite N.div_mul by done. done.
Qed.

Lemma wrap_small n : (n < size_max)%N → wrap n = n.
Proof. intros. unfold wrap. by apply N.mod_small. Qed.

Lemma grown_no_wrap size :
  (size < size_max)%N → (size < grown size)%N →
  grown size = (if decide (size = 0%N) then 1 else 2 * size)%N.
Proof.
  unfold grown, sz_mul, wrap, size_max. intros Hs Hg. case_decide; [done|].
  destruct (decide (size * 2 < 2 ^ 64)%N) as [Hlt|Hge].
  - rewrite N.mod_small by done. lia.
  - exfalso. assert ((size * 2) `mod` 2 ^ 64 = size * 2 - 2 ^ 64)%N as Hm.
    { symmetry. apply (N.mod_unique _ _ 1); lia. }
    rewrite Hm in Hg. lia.
Qed.
End arith.

Section emplacers.
Context {T : Type} `{!Element T}.

Lemma emplaces_placement_new c :
  emplaces (λ S p, placement_new p c) (ctor_value c).
Proof.
  intros St b o blk Q E U s w Hb HE HU HQ.
  eapply wp_placement_new; [done| |done|].
  - intros _ Hthrow. by apply (HE [EvCtor c]).
  - intros Hin. by apply (HQ Hin [EvCtor c]).
Qed.

Lemma emplaces_braced value :
  emplaces (λ S p, braced_construct_at p value) value.
Proof. apply (emplaces_placement_new (CopyCtor value)). Qed.
End emplacers.

(** ** Appending and removing at the end *)

Section append.
Context {T : Type} `{!Element T}.
Implicit Types (w : World T) (this : Vector) (xs : list T) (U : Prop).

Lemma post_eq {A St} (Q : A → St → World T → Prop) a v v' h h' tr tr' :
  Q a v (MkWorld h tr) → v = v' → h = h' → tr = tr' → Q a v' (MkWorld h' tr').
Proof. by intros ? -> -> ->. Qed.

Lemma block_fill xs (v : T) cells :
  length xs < cells →
  list_inserts 0 (Live <$> xs) (<[length xs := Live v]> (replicate cells Raw)) =
  (Live <$> xs ++ [v]) ++ replicate (cells - S (length xs)) Raw.
Proof.
  intros Hlt. replace cells with (length xs + S (cells - S (length xs))) at 1 by lia.
  rewrite replicate_add. cbn [replicate].
  rewrite <-(length_replicate (length xs) (Raw : cell T)) at 1.
  rewrite insert_app_at. cbn. rewrite list_inserts_0_r by (by rewrite length_fmap, length_replicate).
  by rewrite fmap_app, <-app_assoc.
Qed.

Lemma left_behind_length xs : length (left_behind xs) = length xs.
Proof. unfold left_behind. destruct relocate_by_move; by rewrite ?length_fmap. Qed.

Lemma wp_append_grow_checked grow_at place_at v this w xs
    (Q : unit → Vector → World T → Prop) E U :
  repr this w xs → size_ this = Capacity this → emplaces grow_at v →
  (∀ w', ¬ never_throws → (is_copy_constructible = true → heap w' = heap w) →
         E this w') →
  (¬ (length xs < arena_cells (grown (size_ this))) → U) →
  (∀ a tr1 tr', heap w !! a = None → length xs < arena_cells (grown (size_ this)) →
     copies_return xs (tr1 ++ EvNew (arena_bytes (grown (size_ this))) :: trace w) →
     Q tt (MkVector (MkRawMemory (Ptr (Some a) 0) (grown (size_ this)))
                    (sz_add (size_ this) 1))
          (MkWorld (<[a := (Live <$> xs ++ [v]) ++
                           replicate (arena_cells (grown (size_ this)) - S (length xs)) Raw]>
                      (release (data_ this) (heap w)))
                   (tr' ++ EvNew (arena_bytes (grown (size_ this))) :: trace w))) →
  wp (append_with grow_at place_at) Q E U this w.
Proof.
  intros Hrepr Hfull Hgrow HE HU HQ. unfold append_with. apply wp_bind, wp_get.
  rewrite decide_True by done. fold (grown (size_ this)).
  apply repr_inv in Hrepr as (Hsz & Hcap & Hblk).
  pose proof (arena_cells_le (grown (size_ this))) as Hcells.
  apply wp_bind, wp_RawMemory_ctor.
  - intros _ Hthrow. by apply HE.
  - intros Hg0. apply wp_scoped, wp_bind. unfold RawMemory_plus. cbn [capacity_].
    case_decide as Hle.
    + exfalso. assert (size_ this = 0%N) as Hz by lia. rewrite Hz in Hg0. done.
    + apply wp_undefined, HU. rewrite Hg0 in *. lia.
  - intros Hg0 a Ha. apply wp_scoped, wp_bind. unfold RawMemory_plus. cbn [capacity_ buffer_].
    case_decide as Hle; [|apply wp_undefined, HU; lia].
    apply wp_ret. unfold ptr_add. cbn [p_base p_off]. apply wp_bind.
    eapply Hgrow; cbn [heap trace fst snd].
    { apply lookup_insert_eq. }
    { intros tr' Hthrow. eapply wp_operator_delete; cbn [heap trace].
      { apply lookup_insert_eq. }
      apply HE; [done|]. intros _. cbn [heap]. heap_eq. }
    { intros Hn. apply HU. rewrite length_replicate in Hn.
      unfold arena_cells, arena_bytes in *. lia. }
    rewrite length_replicate. intros Hin tr1.
    assert (length xs < arena_cells (grown (size_ this))) as Hlt
      by (unfold arena_cells, arena_bytes in *; lia).
    replace (Z.to_nat (0 + Z.of_N (size_ this))) with (length xs) by lia.
    rewrite insert_insert_eq.
    destruct Hblk as [(Hbuf & Hc0 & ->)|(b & k & Hbuf & Hb)].
    + assert (Z.of_N (size_ this) = 0%Z) as -> by (cbn in Hsz; lia).
      unfold GetAddress. rewrite Hbuf. cbn [buffer_].
      apply wp_bind, wp_migrate_n_0, wp_bind, wp_destroy_n_0, wp_bind, wp_modify, wp_modify.
      cbn. rewrite Hbuf. apply wp_operator_delete_null.
      eapply post_eq; [apply (HQ a tr1 tr1 Ha Hlt); by intros ? ? ? ?|..].
      * done.
      * unfold release. rewrite Hbuf. cbn [p_base nullptr]. f_equal.
        symmetry. apply (block_fill [] v). exact Hlt.
      * done.
    + replace (Z.of_N (size_ this)) with (Z.of_nat (length xs)) by lia.
      unfold GetAddress. rewrite Hbuf. cbn [buffer_].
      assert (b ≠ a) as Hab by congruence.
      apply wp_bind. eapply wp_migrate_n_checked; cbn [heap trace fst snd].
      * rewrite lookup_insert_ne by done. exact Hb.
      * apply lookup_insert_eq.
      * done.
      * done.
      * done.
      * intros j x. apply repr_live.
      * intros Hnf. exfalso. apply Hnf. right. rewrite length_insert, length_replicate.
        unfold arena_cells, arena_bytes in *. lia.
      * intros sblk' dblk' tr' Hlen Hsame Hthrow. cbn [fst snd].
        eapply wp_operator_delete; cbn [heap trace].
        { rewrite lookup_insert_ne by done. apply lookup_insert_eq. }
        apply HE; [done|]. intros Hcc. rewrite (Hsame Hcc). cbn [heap]. heap_eq.
      * intros _ Hcopies. apply wp_bind. rewrite <-(left_behind_length xs) at 1.
        eapply wp_destroy_n; cbn [heap trace].
        { apply lookup_insert_eq. }
        { done. }
        { intros j x Hj. apply lookup_lt_Some in Hj as Hjlt.
          rewrite left_behind_length in Hjlt.
          rewrite list_lookup_inserts;
            rewrite ?length_app, ?length_fmap, ?left_behind_length; try lia.
          rewrite list_lookup_fmap. replace (Z.to_nat 0 + j - Z.to_nat 0) with j by lia.
          by rewrite Hj. }
        apply wp_bind, wp_modify, wp_modify.
        cbn [swap_data RawMemory_Swap fst snd data_ buffer_ capacity_ set_size size_].
        rewrite Hbuf.
        eapply wp_operator_delete; cbn [heap trace].
        { apply lookup_insert_eq. }
        eapply post_eq;
          [apply (HQ a tr1 (EvDelete b :: (EvDtor <$> reverse (left_behind xs)) ++
                        (EvCtor ∘ migrate_ctor <$> reverse xs) ++ tr1) Ha Hlt Hcopies)|..].
        -- done.
        -- unfold release. rewrite Hbuf. cbn [p_base].
           change (Z.to_nat 0) with 0. rewrite block_fill by done. heap_eq.
        -- cbn. by rewrite <-!app_assoc.
Qed.

Lemma wp_append_grow grow_at place_at v this w xs
    (Q : unit → Vector → World T → Prop) E U :
  repr this w xs → size_ this = Capacity this → emplaces grow_at v →
  (∀ w', ¬ never_throws → (is_copy_constructible = true → heap w' = heap w) →
         E this w') →
  (¬ (length xs < arena_cells (grown (size_ this))) → U) →
  (∀ a tr', heap w !! a = None → length xs < arena_cells (grown (size_ this)) →
     Q tt (MkVector (MkRawMemory (Ptr (Some a) 0) (grown (size_ this)))
                    (sz_add (size_ this) 1))
          (MkWorld (<[a := (Live <$> xs ++ [v]) ++
                           replicate (arena_cells (grown (size_ this)) - S (length xs)) Raw]>
                      (release (data_ this) (heap w)))
                   (tr' ++ EvNew (arena_bytes (grown (size_ this))) :: trace w))) →
  wp (append_with grow_at place_at) Q E U this w.
Proof.
  intros Hrepr Hfull Hgrow HE HU HQ. eapply wp_append_grow_checked; eauto.
Qed.

Lemma wp_append_place grow_at place_at v this w xs
    (Q : unit → Vector → World T → Prop) E U :
  repr this w xs → size_ this ≠ Capacity this → emplaces place_at v →
  (∀ w', ¬ never_throws → heap w' = heap w → E this w') →
  (∀ b, buffer_ (data_ this) = Ptr (Some b) 0 → heap w !! b = Some (Live <$> xs) → U) →
  (∀ b k tr', buffer_ (data_ this) = Ptr (Some b) 0 →
     heap w !! b = Some ((Live <$> xs) ++ replicate (S k) Raw) →
     Q tt (set_size (sz_add (size_ this) 1) this)
          (MkWorld (<[b := (Live <$> xs ++ [v]) ++ replicate k Raw]> (heap w))
                   (tr' ++ trace w))) →
  wp (append_with grow_at place_at) Q E U this w.
Proof.
  intros Hrepr Hfull Hplace HE HU HQ. unfold append_with. apply wp_bind, wp_get.
  rewrite decide_False by done.
  apply repr_inv in Hrepr as (Hsz & Hcap & Hblk). unfold Capacity in Hfull.
  destruct Hblk as [(Hbuf & Hc0 & ->)|(b & k & Hbuf & Hb)]; [cbn in Hsz; lia|].
  apply wp_bind. unfold RawMemory_plus. rewrite decide_True by lia. apply wp_ret.
  rewrite Hbuf. unfold ptr_add. cbn [p_base p_off]. apply wp_bind.
  eapply Hplace; [exact Hb|..].
  - intros tr' Hthrow. by apply HE.
  - intros Hn. destruct k as [|k].
    + apply (HU b Hbuf). by rewrite app_nil_r in Hb.
    + exfalso. apply Hn. rewrite length_app, length_fmap, length_replicate. lia.
  - intros Hin tr'. rewrite length_app, length_fmap, length_replicate in Hin.
    destruct k as [|k]; [lia|]. apply wp_modify.
    eapply post_eq; [apply (HQ b k tr' Hbuf Hb)|done| |done].
    f_equal. replace (Z.to_nat (0 + Z.of_N (size_ this))) with (length (Live <$> xs))
      by (rewrite length_fmap; lia).
    rewrite insert_app_at. cbn. by rewrite fmap_app, <-app_assoc.
Qed.

Lemma wp_PopBack this w xs (Q : unit → Vector → World T → Prop) E U :
  repr this w xs →
  (xs = [] → Q tt this w) →
  (∀ b k ys y, xs = ys ++ [y] → buffer_ (data_ this) = Ptr (Some b) 0 →
     heap w !! b = Some ((Live <$> xs) ++ replicate k Raw) →
     Q tt (set_size (N.of_nat (length ys)) this)
          (MkWorld (<[b := (Live <$> ys) ++ replicate (S k) Raw]> (heap w))
                   (EvDtor y :: trace w))) →
  wp PopBack Q E U this w.
Proof.
  intros Hrepr Hnil Hcons. unfold PopBack. apply wp_bind, wp_get.
  apply repr_inv in Hrepr as (Hsz & Hcap & Hblk).
  case_decide as Hpos.
  - destruct Hblk as [(Hbuf & Hc0 & ->)|(b & k & Hbuf & Hb)]; [cbn in Hsz; lia|].
    destruct (decide (xs = [])) as [->|Hne]; [cbn in Hsz; lia|].
    destruct (exists_last Hne) as (ys & y & ->).
    rewrite length_app in Hsz. cbn in Hsz.
    assert (sz_sub (size_ this) 1 = N.of_nat (length ys)) as Hsub.
    { unfold sz_sub, wrap, size_max in *. rewrite (N.mod_small 1) by done.
      replace (size_ this + 2 ^ 64 - 1)%N with (N.of_nat (length ys) + 1 * 2 ^ 64)%N by lia.
      rewrite N.Div0.mod_add. apply N.mod_small. lia. }
    rewrite Hsub. unfold GetAddress. rewrite Hbuf. unfold ptr_add. cbn [p_base p_off].
    apply wp_bind. change 1%Z with (Z.of_nat (length [y])).
    eapply wp_destroy_n; [exact Hb|lia| |].
    + intros j x Hj. destruct j; [|done]. cbn in Hj. injection Hj as <-.
      rewrite lookup_app_l by (rewrite length_fmap, length_app; cbn; lia).
      rewrite list_lookup_fmap, lookup_app_r by lia.
      replace (Z.to_nat (0 + Z.of_N (N.of_nat (length ys))) + 0 - length ys) with 0 by lia.
      done.
    + apply wp_modify.
      eapply post_eq; [apply (Hcons b k ys y eq_refl Hbuf Hb)|done| |done].
      f_equal. replace (Z.to_nat (0 + Z.of_N (N.of_nat (length ys)))) with (length (Live <$> ys))
        by (rewrite length_fmap; lia).
      rewrite fmap_app, <-app_assoc. rewrite list_inserts_app_at. done.
  - apply wp_ret, Hnil. destruct xs; [done|]. cbn in Hsz. lia.
Qed.
End append.

(** ** From the rules to runs *)

Section outcomes.
Context {T : Type} `{!Element T} {St A : Type}.
Implicit Types (m : M T St A) (s : St) (w : World T).

Lemma wp_Ok m (Q : A → St → World T → Prop) E U s w a s' w' :
  wp m Q E U s w → m s w = (Ok a, s', w') → Q a s' w'.
Proof. unfold wp. intros H Heq. by rewrite Heq in H. Qed.

Lemma wp_Throw m (Q : A → St → World T → Prop) E U s w s' w' :
  wp m Q E U s w → m s w = (Throw, s', w') → E s' w'.
Proof. unfold wp. intros H Heq. by rewrite Heq in H. Qed.

Lemma wp_returns m s w :
  wp m (λ _ _ _, True) (λ _ _, False) False s w → ∃ a s' w', m s w = (Ok a, s', w').
Proof. unfold wp. destruct (m s w) as [[[a| |] s'] w']; [eauto|done..]. Qed.

Lemma wp_defined m s w :
  wp m (λ _ _ _, True) (λ _ _, True) False s w → (m s w).1.1 ≠ Undefined.
Proof. unfold wp. by destruct (m s w) as [[[a| |] s'] w']. Qed.
End outcomes.

Section elements.
Context {T : Type} `{!Element T}.
Implicit Types (w : World T) (v : Vector) (xs : list T).

Lemma repr_elements v w xs : repr v w xs → elements v w = Some xs.
Proof.
  intros Hrepr. apply repr_inv in Hrepr as (Hsz & Hcap & Hblk).
  unfold elements. rewrite Hsz, Nat2N.id. apply mapM_Some.
  destruct Hblk as [(Hbuf & Hc0 & ->)|(b & k & Hbuf & Hb)]; [constructor|].
  apply Forall2_same_length_lookup. split; [by rewrite length_seq|].
  intros i j x Hi Hx. apply lookup_seq in Hi as [-> Hlt]. cbn [Nat.add].
  unfold begin, GetAddress. rewrite Hbuf. unfold ptr_add. cbn [p_base p_off].
  rewrite (cell_at_Some b _ w _ (Live x) Hb); [done|lia|].
  change (0 + Z.of_nat i)%Z with (Z.of_nat i). rewrite Nat2Z.id.
  { rewrite lookup_app_l by (by rewrite length_fmap).
    by rewrite list_lookup_fmap, Hx. }
Qed.

Lemma repr_heap v w w' xs : heap w' = heap w → repr v w xs → repr v w' xs.
Proof. intros Hh. unfold repr, block_at. by rewrite Hh. Qed.
End elements.

(** * [Reserve] *)

Section claims.
Context {T : Type} `{!Element T}.
Implicit Types (w : World T) (this : Vector) (xs : list T).


Lemma arena_cells_exact n :
  (n * Npos sizeof < size_max)%N → arena_cells n = N.to_nat n.
Proof.
  intros Hn. unfold arena_cells, arena_bytes, sz_mul. rewrite wrap_small by done.
  by rewrite N.div_mul.
Qed.

Lemma repr_block' b k cap size xs w :
  heap w !! b = Some ((Live <$> xs) ++ replicate k Raw) →
  size = N.of_nat (length xs) → (size ≤ cap < size_max)%N →
  repr (MkVector (MkRawMemory (Ptr (Some b) 0) cap) size) w xs.
Proof. intros Hb -> Hcap. by eapply repr_block. Qed.

Lemma relocated_intro this w xs n a (blk : list (cell T)) size tr' :
  repr this w xs → heap w !! a = None →
  relocated this w n (MkVector (MkRawMemory (Ptr (Some a) 0) n) size)
    (MkWorld (<[a := blk]> (release (data_ this) (heap w)))
             (tr' ++ EvNew (arena_bytes n) :: trace w)).
Proof.
  intros Hrepr Ha. apply repr_inv in Hrepr as (_ & _ & Hblk).
  split; [done|]. split; [done|]. split; [unfold block_at; cbn; exact Ha|].
  unfold release, block_at. cbn [data_ buffer_ heap trace p_base].
  destruct Hblk as [(Hbuf & _)|(b & k & Hbuf & Hb)]; rewrite Hbuf; cbn.
  - split; [done|]. split; [|by eexists]. intros b _ Hne.
    apply lookup_insert_ne. congruence.
  - assert (b ≠ a) by congruence. split.
    + intros _. rewrite lookup_insert_ne by done. apply lookup_delete_eq.
    + split; [|by eexists]. intros b' Hb' Ha'.
      rewrite lookup_insert_ne by congruence. apply lookup_delete_ne. congruence.
Qed.

End claims.

(** * [Erase] *)

Section erase.
Context {T : Type} `{!Element T}.
Implicit Types (w : World T) (this : Vector) (xs : list T) (U : Prop).

Lemma shift_snoc (x : T) l : shift x l = l ++ [shift_residue x l].
Proof.
  revert x. induction l as [|y l IH]; intros x; [done|]. cbn [shift].
  rewrite IH. cbn. f_equal. f_equal. unfold shift_residue.
  rewrite last_cons. by destruct (last l).
Qed.

Lemma wp_move_assign_at {St} b (od os : Z) d v blk
    (Q : unit → St → World T → Prop) E U (s : St) w :
  is_nothrow_move_assignable = true →
  heap w !! b = Some blk → (0 ≤ od)%Z → (0 ≤ os)%Z →
  blk !! Z.to_nat od = Some (Live d) → blk !! Z.to_nat os = Some (Live v) →
  Q tt s (MkWorld (<[b := <[Z.to_nat os := Live (moved_from v)]>
                            (<[Z.to_nat od := Live v]> blk)]> (heap w))
                  (EvMoveAssign d v :: trace w)) →
  wp (move_assign_at (Ptr (Some b) od) (Ptr (Some b) os)) Q E U s w.
Proof.
  intros Hnt Hb Hod Hos Hd Hv HQ. unfold move_assign_at, move_assign_from.
  apply wp_bind. eapply wp_load; [done..|].
  apply wp_bind, wp_bind. eapply wp_load; [done..|].
  apply wp_bind, wp_get_trace, wp_bind, wp_emit. rewrite Hnt. cbn [negb andb].
  apply wp_bind. eapply wp_write_cell; cbn [heap trace]; [done| |].
  { intros Hn. exfalso. apply Hn. apply lookup_lt_Some in Hd. lia. }
  intros _. apply wp_ret.
  eapply wp_write_cell; cbn [heap trace]; [apply lookup_insert_eq| |].
  { intros Hn. exfalso. apply Hn. rewrite length_insert. apply lookup_lt_Some in Hv. lia. }
  intros _. by rewrite insert_insert_eq.
Qed.

Lemma wp_shift_loop {St} b (i : Z) l :
  is_nothrow_move_assignable = true → (0 ≤ i)%Z →
  ∀ pre x post (j0 : Z) (Q : unit → St → World T → Prop) E U (s : St) w,
  heap w !! b = Some (pre ++ Live x :: (Live <$> l) ++ post) →
  (0 ≤ j0)%Z → length pre = Z.to_nat (i + j0) →
  Q tt s (MkWorld (<[b := pre ++ (Live <$> shift x l) ++ post]> (heap w))
                  (shift_events x l ++ trace w)) →
  wp (for_n (length l) j0
        (λ j, move_assign_at (Ptr (Some b) i +ₚ j) (Ptr (Some b) (i + 1) +ₚ j)))
     Q E U s w.
Proof.
  intros Hnt Hi. induction l as [|y l IH]; intros pre x post j0 Q E U s w Hb Hj0 Hpre HQ.
  - change (Q tt s w). cbn in HQ. rewrite insert_id in HQ by done.
    by rewrite world_eta in HQ.
  - cbn [length for_n]. apply wp_bind. unfold ptr_add. cbn [p_base p_off].
    eapply (wp_move_assign_at b _ _ x y); [done|exact Hb|lia|lia| | |].
    + replace (Z.to_nat (i + j0)) with (length pre + 0) by lia.
      by rewrite lookup_app_r, Nat.add_sub' by lia.
    + replace (Z.to_nat (i + 1 + j0)) with (length pre + 1) by lia.
      by rewrite lookup_app_r, Nat.add_sub' by lia.
    + replace (Z.to_nat (i + j0)) with (length pre) by lia.
      replace (Z.to_nat (i + 1 + j0)) with (length (pre ++ [Live y])) by (rewrite length_app; cbn; lia).
      rewrite insert_app_at. cbn [list_insert insert].
      replace (pre ++ Live y :: (Live <$> y :: l) ++ post)
        with ((pre ++ [Live y]) ++ Live y :: (Live <$> l) ++ post)
        by (by rewrite <-app_assoc).
      rewrite insert_app_at. cbn [list_insert insert].
      eapply IH; cbn [heap trace].
      * apply lookup_insert_eq.
      * lia.
      * rewrite length_app. cbn. lia.
      * rewrite insert_insert_eq. cbn [shift shift_events] in HQ.
        rewrite <-app_assoc in HQ. rewrite <-app_assoc. exact HQ.
Qed.

Lemma wp_std_move_left {St} b (i : Z) l pre x post (e : pointer)
    (Q : unit → St → World T → Prop) E U (s : St) w :
  is_nothrow_move_assignable = true →
  heap w !! b = Some (pre ++ Live x :: (Live <$> l) ++ post) →
  length pre = Z.to_nat i → (0 ≤ i)%Z →
  e = Ptr (Some b) (i + 1 + Z.of_nat (length l)) →
  Q tt s (MkWorld (<[b := pre ++ (Live <$> shift x l) ++ post]> (heap w))
                  (shift_events x l ++ trace w)) →
  wp (std_move (Ptr (Some b) i +ₚ 1) e (Ptr (Some b) i)) Q E U s w.
Proof.
  intros Hnt Hb Hpre Hi -> HQ. unfold std_move, distance. cbn [ptr_add p_base p_off].
  rewrite decide_True by done.
  replace (Z.to_nat (i + 1 + Z.of_nat (length l) - (i + 1))) with (length l) by lia.
  eapply (wp_shift_loop b i l Hnt Hi _ x); [exact Hb|lia|lia|done].
Qed.

Lemma sz_sub_small a b : (b ≤ a < size_max)%N → sz_sub a b = (a - b)%N.
Proof.
  intros Hab. unfold sz_sub, wrap, size_max in *. rewrite (N.mod_small b) by lia.
  replace (a + 2 ^ 64 - b)%N with (a - b + 1 * 2 ^ 64)%N by lia.
  rewrite N.Div0.mod_add. apply N.mod_small. lia.
Qed.

Lemma wp_run {St A} (m : M T St A) (s : St) w a s' w' :
  wp m (λ a0 s0 w0, (a0, s0, w0) = (a, s', w')) (λ _ _, False) False s w →
  m s w = (Ok a, s', w').
Proof.
  unfold wp. destruct (m s w) as [[[a0| |] s0] w0]; [|done..]. by intros [= -> -> ->].
Qed.

Lemma Erase_nothrow this w xs i x :
  is_nothrow_move_assignable = true → repr this w xs → xs !! i = Some x →
  ∃ w', Erase (begin this +ₚ Z.of_nat i) this w =
          (Ok (begin this +ₚ Z.of_nat i),
           set_size (N.of_nat (length xs - 1)) this, w') ∧
        repr (set_size (N.of_nat (length xs - 1)) this) w' (delete i xs) ∧
        trace w' = EvDtor (shift_residue x (drop (S i) xs))
                     :: shift_events x (drop (S i) xs) ++ trace w.
Proof.
  intros Hnt Hrepr Hx. apply lookup_lt_Some in Hx as Hi.
  apply repr_inv in Hrepr as (Hsz & Hcap & Hblk).
  destruct Hblk as [(Hbuf & Hc0 & ->)|(b & k & Hbuf & Hb)]; [cbn in Hi; lia|].
  assert (Hsplit : (Live <$> xs) ++ replicate k Raw =
            (Live <$> take i xs) ++ Live x :: (Live <$> drop (S i) xs) ++ replicate k (Raw : cell T)).
  { rewrite <-(take_drop_middle xs i x Hx) at 1. rewrite fmap_app, <-app_assoc. done. }
  set (l := drop (S i) xs) in *.
  assert (Hl : length l = length xs - S i) by (unfold l; by rewrite length_drop).
  assert (Hblock : list_inserts (Z.to_nat (Z.of_nat (length xs) + -1)) [Raw]
            ((Live <$> take i xs) ++ (Live <$> shift x l) ++ replicate k Raw) =
          (Live <$> delete i xs) ++ replicate (S k) (Raw : cell T)).
  { rewrite shift_snoc, delete_take_drop. fold l. rewrite !fmap_app, <-!app_assoc.
    replace (Z.to_nat (Z.of_nat (length xs) + -1))
      with (length ((Live <$> take i xs) ++ (Live <$> l) : list (cell T)))
      by (rewrite length_app, !length_fmap, length_take; lia).
    rewrite (app_assoc (Live <$> take i xs) (Live <$> l)).
    rewrite list_inserts_app_at. cbn. by rewrite <-app_assoc. }
  exists (MkWorld (<[b := (Live <$> delete i xs) ++ replicate (S k) Raw]> (heap w))
                  (EvDtor (shift_residue x l) :: shift_events x l ++ trace w)).
  split; [|split; [|done]].
  - assert (Hbegin : begin this = Ptr (Some b) 0) by done.
    assert (Hend : end_ this = Ptr (Some b) (Z.of_nat (length xs))).
    { unfold end_, GetAddress, ptr_add. rewrite Hbuf. cbn. f_equal. lia. }
    apply wp_run. unfold Erase. apply wp_bind, wp_get.
    rewrite decide_True by lia.
    assert (distance (cbegin this) (begin this +ₚ Z.of_nat i) = Some (Z.of_nat i)) as ->.
    { unfold distance, cbegin, GetAddress. rewrite Hbegin, Hbuf. cbn.
      rewrite decide_True by done. f_equal. lia. }
    rewrite Hnt, Hend, Hbegin. apply wp_bind.
    rewrite Hsplit in Hb.
    eapply (wp_std_move_left b (Z.of_nat i) l _ x); [done|exact Hb| |lia| |].
    { rewrite length_fmap, length_take. lia. }
    { unfold ptr_add. cbn. f_equal. lia. }
    apply wp_bind. change 1%Z with (Z.of_nat (length [shift_residue x l])).
    unfold ptr_add. cbn [p_base p_off].
    eapply wp_destroy_n; cbn [heap trace].
    { apply lookup_insert_eq. }
    { lia. }
    { intros j v Hj. destruct j; [|done]. cbn in Hj. injection Hj as <-.
      rewrite shift_snoc, fmap_app.
      rewrite lookup_app_r; rewrite length_fmap, length_take; [|lia].
      rewrite <-app_assoc, lookup_app_r; rewrite length_fmap; [|lia].
      replace (Z.to_nat (Z.of_nat (length xs) + -1) + 0 - i `min` length xs - length l)
        with 0 by lia. done. }
    apply wp_bind, wp_modify, wp_bind, wp_get.
    rewrite sz_sub_small by lia.
    replace (size_ this - 1)%N with (N.of_nat (length xs - 1)) by lia.
    rewrite insert_insert_eq.
    cbn [length replicate] in Hblock |- *. rewrite Hblock.
    unfold end_, begin, GetAddress. cbn [set_size size_ data_]. rewrite Hbuf.
    case_decide as Hpos; apply wp_ret.
    + done.
    + assert (i = 0) as -> by lia.
      replace (length xs - 1) with 0 by lia. done.
  - clear Hblock Hsplit. destruct this as [[buf cap] sz]. cbn in Hbuf, Hcap, Hsz |- *.
    subst buf. apply (repr_block' b (S k)).
    + apply lookup_insert_eq.
    + rewrite length_delete by eauto. done.
    + lia.
Qed.
End erase.

(** * Destructor and copy constructor *)

Section objects.
Context {T : Type} `{!Element T} {St : Type}.
Implicit Types (w : World T) (s : St) (v : Vector) (xs : list T) (U : Prop).

Lemma wp_Vector_dtor v w xs (Q : unit → St → World T → Prop) E U s :
  repr v w xs →
  Q tt s (MkWorld (release (data_ v) (heap w))
                  (delete_events (data_ v) ++ (EvDtor <$> reverse xs) ++ trace w)) →
  wp (Vector_dtor v) Q E U s w.
Proof.
  intros Hrepr HQ. apply repr_inv in Hrepr as (Hsz & Hcap & Hblk).
  unfold Vector_dtor, RawMemory_dtor, Deallocate, GetAddress, release, delete_events in *.
  destruct Hblk as [(Hbuf & Hc0 & ->)|(b & k & Hbuf & Hb)]; rewrite Hbuf in *.
  - cbn in Hsz. rewrite Hsz. apply wp_bind, wp_destroy_n_0, wp_operator_delete_null.
    cbn in HQ. by rewrite world_eta in HQ.
  - rewrite Hsz, nat_N_Z. apply wp_bind.
    eapply wp_destroy_n; [exact Hb|done| |].
    { intros j x. apply repr_live. }
    eapply wp_operator_delete; cbn [heap trace]; [apply lookup_insert_eq|].
    cbn [p_base] in HQ. by rewrite delete_insert_eq.
Qed.

Lemma wp_Vector_copy_ctor other w ys (Q : Vector → St → World T → Prop) E U s :
  repr other w ys →
  (∀ w', ¬ never_throws → heap w' = heap w → E s w') →
  (¬ (length ys ≤ arena_cells (size_ other)) → U) →
  (ys = [] → Q (MkVector (MkRawMemory nullptr 0) 0) s w) →
  (∀ a, ys ≠ [] → heap w !! a = None → length ys ≤ arena_cells (size_ other) →
     Q (MkVector (MkRawMemory (Ptr (Some a) 0) (size_ other)) (size_ other)) s
       (MkWorld (<[a := (Live <$> ys) ++
                        replicate (arena_cells (size_ other) - length ys) Raw]> (heap w))
                ((EvCtor ∘ CopyCtor <$> reverse ys) ++
                 EvNew (arena_bytes (size_ other)) :: trace w))) →
  wp (Vector_copy_ctor other) Q E U s w.
Proof.
  intros Hrepr HE HU Hnil HQ. apply repr_inv in Hrepr as (Hsz & Hcap & Hblk).
  unfold Vector_copy_ctor. apply wp_bind, wp_RawMemory_ctor.
  - intros _ Hthrow. by apply HE.
  - intros Hz. rewrite Hz in *. assert (ys = []) as -> by (destruct ys; [done|cbn in Hsz; lia]).
    apply wp_bind, wp_catch. change (Z.of_N 0) with 0%Z.
    unfold uninitialized_copy_n. cbn [Z.to_nat for_n]. apply wp_ret, wp_ret. by apply Hnil.
  - intros Hnz a Ha.
    destruct Hblk as [(Hbuf & Hc0 & ->)|(b & k & Hbuf & Hb)]; [cbn in Hsz; lia|].
    assert (ys ≠ []) as Hne by (intros ->; cbn in Hsz; lia).
    assert (b ≠ a) as Hab by congruence.
    apply wp_bind, wp_catch. unfold GetAddress. rewrite Hbuf. cbn [buffer_].
    rewrite Hsz at 1. rewrite nat_N_Z.
    eapply wp_uninitialized_copy_n; cbn [heap trace].
    + rewrite lookup_insert_ne by done. exact Hb.
    + apply lookup_insert_eq.
    + done.
    + done.
    + done.
    + intros j x. apply repr_live.
    + intros Hnf. apply HU. intros Hle. apply Hnf. right. rewrite length_replicate.
      unfold arena_cells, arena_bytes in Hle. lia.
    + intros dblk' tr' Hlen Hthrow. apply wp_bind.
      eapply wp_operator_delete; cbn [heap trace]; [apply lookup_insert_eq|].
      apply wp_throw, HE; [done|]. cbn [heap]. heap_eq.
    + intros Hfit. apply wp_ret.
      assert (Hle : length ys ≤ arena_cells (size_ other)).
      { destruct Hfit as [Hz|Hfit]; [destruct ys; [done|cbn in Hz; lia]|].
        rewrite length_replicate in Hfit. unfold arena_cells, arena_bytes. lia. }
      eapply post_eq; [apply (HQ a Hne Ha Hle)|done| |done].
      rewrite insert_insert_eq. f_equal. change (Z.to_nat 0) with 0.
      rewrite list_inserts_replicate_0 by (rewrite length_fmap; exact Hle).
      by rewrite length_fmap.
Qed.
End objects.

(** * Copy assignment *)

Section copy_assign.
Context {T : Type} `{!Element T}.
Implicit Types (w : World T) (this rhs : Vector) (xs ys : list T) (U : Prop).

Lemma wp_copy_assign_at {St} bd (od : Z) bs (os : Z) (d v : T) dblk sblk
    (Q : unit → St → World T → Prop) E U (s : St) w :
  heap w !! bd = Some dblk → heap w !! bs = Some sblk → (0 ≤ od)%Z → (0 ≤ os)%Z →
  dblk !! Z.to_nat od = Some (Live d) → sblk !! Z.to_nat os = Some (Live v) →
  (¬ never_throws → E s (MkWorld (heap w) (EvCopyAssign d v :: trace w))) →
  Q tt s (MkWorld (<[bd := <[Z.to_nat od := Live v]> dblk]> (heap w))
                  (EvCopyAssign d v :: trace w)) →
  wp (copy_assign_at (Ptr (Some bd) od) (Ptr (Some bs) os)) Q E U s w.
Proof.
  intros Hd Hs Hod Hos Hdc Hsc HE HQ. unfold copy_assign_at.
  apply wp_bind. eapply wp_load; [done..|].
  apply wp_bind. eapply wp_load; [done..|].
  apply wp_bind, wp_get_trace, wp_bind, wp_emit.
  destruct (copy_assign_throws d v (trace w)) eqn:Hthrow.
  - apply wp_throw, HE. intros (_ & Hn & _). by rewrite Hn in Hthrow.
  - eapply wp_write_cell; cbn [heap trace]; [done| |done].
    intros Hn. exfalso. apply Hn. apply lookup_lt_Some in Hdc. lia.
Qed.

Lemma wp_assign_prefix {St} (dst src : RawMemory) bd bs ds vs drest sblk
    (Q : unit → St → World T → Prop) E U (s : St) w :
  buffer_ dst = Ptr (Some bd) 0 → buffer_ src = Ptr (Some bs) 0 → bd ≠ bs →
  heap w !! bd = Some ((Live <$> ds) ++ drest) → heap w !! bs = Some sblk →
  length ds = length vs →
  (N.of_nat (length vs) ≤ capacity_ dst)%N → (N.of_nat (length vs) ≤ capacity_ src)%N →
  (∀ j v, vs !! j = Some v → sblk !! j = Some (Live v)) →
  (∀ dblk' tr', ¬ never_throws → E s (MkWorld (<[bd := dblk']> (heap w)) tr')) →
  Q tt s (MkWorld (<[bd := (Live <$> vs) ++ drest]> (heap w))
                  (reverse (zip_with EvCopyAssign ds vs) ++ trace w)) →
  wp (assign_prefix dst src (N.of_nat (length vs))) Q E U s w.
Proof.
  intros Hdst Hsrc Hne Hd Hs Hlen Hcd Hcs Hvs HE HQ. unfold assign_prefix.
  rewrite Nat2N.id.
  apply (wp_for_n (λ k s' w', s' = s ∧
    w' = MkWorld (<[bd := (Live <$> take k vs) ++ (Live <$> drop k ds) ++ drest]> (heap w))
                 (reverse (zip_with EvCopyAssign (take k ds) (take k vs)) ++ trace w))).
  - split; [done|]. rewrite !take_0, drop_0. cbn. rewrite insert_id by done. by rewrite world_eta.
  - intros k s' w' Hk [-> ->].
    destruct (lookup_lt_is_Some_2 vs k Hk) as [v Hv].
    destruct (lookup_lt_is_Some_2 ds k ltac:(lia)) as [d Hdk].
    replace (Z.to_N (0 + Z.of_nat k)) with (N.of_nat k) by lia.
    unfold RawMemory_index. rewrite !decide_True by lia.
    apply wp_bind, wp_ret, wp_bind, wp_ret.
    rewrite Hdst, Hsrc. unfold ptr_add. cbn [p_base p_off].
    assert (Hlt : length (take k vs) = k) by (rewrite length_take; lia).
    eapply (wp_copy_assign_at bd _ bs _ d v); cbn [heap trace].
    + apply lookup_insert_eq.
    + rewrite lookup_insert_ne by done. exact Hs.
    + lia.
    + lia.
    + replace (Z.to_nat (0 + Z.of_N (N.of_nat k))) with (length (Live <$> take k vs) + 0)
        by (rewrite length_fmap; lia).
      rewrite lookup_app_r, Nat.add_sub' by lia.
      rewrite (drop_S _ _ _ Hdk). done.
    + replace (Z.to_nat (0 + Z.of_N (N.of_nat k))) with k by lia. eauto.
    + intros Hthrow. by apply HE.
    + split; [done|]. rewrite insert_insert_eq. f_equal.
      * f_equal.
        replace (Z.to_nat (0 + Z.of_N (N.of_nat k))) with (length (Live <$> take k vs))
          by (rewrite length_fmap; lia).
        rewrite insert_app_at, (drop_S _ _ _ Hdk). cbn.
        rewrite (take_S_r _ _ _ Hv), fmap_app, <-app_assoc. done.
      * rewrite (take_S_r _ _ _ Hv), (take_S_r _ _ _ Hdk).
        rewrite zip_with_app by (rewrite !length_take; lia).
        cbn. by rewrite reverse_snoc.
  - intros s' w' [-> ->].
    rewrite firstn_all. rewrite <-Hlen, firstn_all, drop_all. exact HQ.
Qed.

Lemma wp_world_eq {St A} (m : M T St A) (Q : A → St → World T → Prop) E U (s : St) w w' :
  w' = w → wp m Q E U s w' → wp m Q E U s w.
Proof. by intros ->. Qed.

Lemma wp_assign_prefix_0 {St} (dst src : RawMemory) (Q : unit → St → World T → Prop)
    E U (s : St) w :
  Q tt s w → wp (assign_prefix dst src 0) Q E U s w.
Proof. done. Qed.

Lemma wp_uninitialized_copy_n_0 {St} (p q : pointer) (Q : unit → St → World T → Prop)
    E U (s : St) w :
  Q tt s w → wp (uninitialized_copy_n p 0 q) Q E U s w.
Proof. done. Qed.

Lemma repr_nil_inv v w xs : repr v w xs → size_ v = 0%N → xs = [].
Proof. intros (Hsz & _) Hz. destruct xs; [done|]. cbn in Hsz. lia. Qed.

Lemma wp_copy_assign_realloc this rhs w xs ys (Q : unit → Vector → World T → Prop) E U :
  repr this w xs → repr rhs w ys → (Capacity this < size_ rhs)%N →
  (∀ w', ¬ never_throws → heap w' = heap w → E this w') →
  (¬ (length ys ≤ arena_cells (size_ rhs)) → U) →
  (∀ a, heap w !! a = None → length ys ≤ arena_cells (size_ rhs) →
     Q tt (MkVector (MkRawMemory (Ptr (Some a) 0) (size_ rhs)) (size_ rhs))
          (MkWorld (<[a := (Live <$> ys) ++
                           replicate (arena_cells (size_ rhs) - length ys) Raw]>
                      (release (data_ this) (heap w)))
                   (delete_events (data_ this) ++ (EvDtor <$> reverse xs) ++
                    (EvCtor ∘ CopyCtor <$> reverse ys) ++
                    EvNew (arena_bytes (size_ rhs)) :: trace w))) →
  wp (Vector_copy_assign (Some rhs)) Q E U this w.
Proof.
  intros Hthis Hrhs Hlt HE HU HQ. unfold Vector_copy_assign.
  apply wp_bind, wp_get. rewrite decide_True by done.
  apply wp_bind. eapply wp_Vector_copy_ctor; [exact Hrhs|done|done| |].
  { intros ->. destruct Hrhs as (Hsz & _). cbn in Hsz. lia. }
  intros a Hne Ha Hle. apply wp_scoped, wp_modify. cbn [Vector_Swap RawMemory_Swap fst snd data_ size_ buffer_ capacity_].
  assert (Hthis' : repr (MkVector (MkRawMemory (buffer_ (data_ this)) (capacity_ (data_ this)))
                          (size_ this))
             (MkWorld (<[a := (Live <$> ys) ++ replicate (arena_cells (size_ rhs) - length ys) Raw]> (heap w))
                      ((EvCtor ∘ CopyCtor <$> reverse ys) ++ EvNew (arena_bytes (size_ rhs)) :: trace w)) xs).
  { destruct this as [[buf cap] sz]. cbn. destruct Hthis as (Hsz & Hcap & Hblk).
    split; [done|]. split; [done|]. cbn in *. case_decide; [done|].
    destruct (block_at buf w) as [blk|] eqn:Hb; [|done].
    apply block_at_Some in Hb as (b & -> & Hb). unfold block_at. cbn.
    rewrite decide_True by done. cbn. rewrite lookup_insert_ne by congruence.
    by rewrite Hb. }
  eapply wp_Vector_dtor; [exact Hthis'|]. cbn [data_ heap trace].
  eapply post_eq; [apply (HQ a Ha Hle)|done| |done].
  unfold release. cbn [buffer_]. destruct (p_base (buffer_ (data_ this))) as [b|] eqn:Hb; [|done].
  destruct Hthis as (_ & _ & Hblk). case_decide as Hnull; [by rewrite Hnull in Hb|].
  destruct (block_at _ w) as [blk|] eqn:Hblk'; [|done].
  apply block_at_Some in Hblk' as (b' & Hbuf & Hb'). rewrite Hbuf in Hb. injection Hb as ->.
  assert (a ≠ b) by congruence. by rewrite delete_insert_ne.
Qed.

Lemma wp_copy_assign_keep this rhs w xs ys (Q : unit → Vector → World T → Prop) E U :
  repr this w xs → repr rhs w ys → disjoint this rhs → (size_ rhs ≤ Capacity this)%N →
  (∀ w', ¬ never_throws → E this w') →
  (xs = [] → ys = [] → Q tt (set_size (size_ rhs) this) w) →
  (∀ b k, buffer_ (data_ this) = Ptr (Some b) 0 →
     heap w !! b = Some ((Live <$> xs) ++ replicate k Raw) →
     (¬ (length ys ≤ length xs + k) → U) ∧
     (length ys ≤ length xs + k →
      Q tt (set_size (size_ rhs) this)
           (MkWorld (<[b := (Live <$> ys) ++ replicate (length xs + k - length ys) Raw]>
                       (heap w))
                    (assign_tail_events xs ys ++
                     reverse (zip_with EvCopyAssign xs ys) ++ trace w)))) →
  wp (Vector_copy_assign (Some rhs)) Q E U this w.
Proof.
  intros Hthis Hrhs Hdis Hle HE Hnil HQ. unfold Vector_copy_assign.
  apply wp_bind, wp_get. rewrite decide_False by (unfold Capacity in *; lia).
  apply repr_inv in Hthis as (Hsz & Hcap & Hblk).
  apply repr_inv in Hrhs as (Hsz' & Hcap' & Hblk').
  unfold Capacity in Hle.
  case_decide as Hshrink.
  - (* the source is shorter *)
    destruct Hblk as [(Hbuf & Hc0 & ->)|(b & k & Hbuf & Hb)]; [cbn in Hsz; lia|].
    destruct (HQ b k Hbuf Hb) as [_ HQ']. specialize (HQ' ltac:(lia)).
    rewrite sz_sub_small by lia.
    assert (Htail : assign_tail_events xs ys = EvDtor <$> reverse (drop (length ys) xs)).
    { unfold assign_tail_events. by rewrite decide_True by lia. }
    rewrite Htail in HQ'.
    assert (Hblock : (Live <$> xs) ++ replicate k (Raw : cell T) =
                     (Live <$> take (length ys) xs) ++
                     ((Live <$> drop (length ys) xs) ++ replicate k Raw)).
    { rewrite <-(take_drop (length ys) xs) at 1. by rewrite fmap_app, <-app_assoc. }
    apply wp_bind.
    assert (Hrest : ∀ tr,
      Q tt (set_size (size_ rhs) this)
        (MkWorld (<[b := (Live <$> ys) ++ replicate (length xs + k - length ys) Raw]> (heap w))
                 ((EvDtor <$> reverse (drop (length ys) xs)) ++ tr)) →
      wp
        (destroy_n (GetAddress (data_ this) +ₚ Z.of_N (size_ rhs))
           (Z.of_N (size_ this - size_ rhs)) ≫= λ _, modify (set_size (size_ rhs)))
        Q E U this
        (MkWorld (<[b := (Live <$> ys) ++ (Live <$> drop (length ys) xs) ++ replicate k Raw]>
                    (heap w)) tr)).
    { intros tr HQ''. apply wp_bind. unfold GetAddress. rewrite Hbuf.
      unfold ptr_add. cbn [p_base p_off].
      replace (Z.of_N (size_ this - size_ rhs)) with (Z.of_nat (length (drop (length ys) xs)))
        by (rewrite length_drop; lia).
      eapply wp_destroy_n; cbn [heap trace].
      - apply lookup_insert_eq.
      - lia.
      - intros j x Hj.
        replace (Z.to_nat (0 + Z.of_N (size_ rhs)) + j) with (length (Live <$> ys) + j)
          by (rewrite length_fmap; lia).
        rewrite lookup_app_r, Nat.add_sub' by lia.
        rewrite lookup_app_l by (rewrite length_fmap; by eapply lookup_lt_Some).
        by rewrite list_lookup_fmap, Hj.
      - apply wp_modify. eapply post_eq; [exact HQ''|done| |done].
        rewrite insert_insert_eq. f_equal.
        replace (Z.to_nat (0 + Z.of_N (size_ rhs))) with (length (Live <$> ys))
          by (rewrite length_fmap; lia).
        rewrite list_inserts_app_at. f_equal.
        rewrite list_inserts_0_r by (by rewrite length_replicate, length_fmap).
        rewrite <-replicate_add. f_equal. rewrite length_drop. lia. }
    destruct Hblk' as [(Hbuf' & Hc0' & ->)|(bs & k' & Hbuf' & Hb')].
    + cbn in Hsz'. rewrite Hsz'. apply wp_assign_prefix_0.
      rewrite <-Hsz'. rewrite drop_0 in *. cbn [length fmap list_fmap app] in *.
      rewrite zip_with_nil_r in HQ'. cbn in HQ'.
      eapply wp_world_eq; [|apply (Hrest (trace w)); exact HQ'].
      rewrite insert_id by done. by rewrite world_eta.
    + assert (b ≠ bs) as Hne.
      { destruct Hdis as [Hd|Hd]; rewrite Hbuf in Hd; [done|]. rewrite Hbuf' in Hd.
        cbn in Hd. congruence. }
      rewrite Hsz'. rewrite Hblock in Hb.
      eapply (wp_assign_prefix _ _ b bs (take (length ys) xs) ys);
        [exact Hbuf|exact Hbuf'|exact Hne|exact Hb|exact Hb'|..].
      * rewrite length_take. lia.
      * lia.
      * lia.
      * intros j v Hj. change j with (Z.to_nat 0 + j). by apply repr_live.
      * intros dblk' tr' Hthrow. by apply HE.
      * rewrite <-Hsz'. apply Hrest. rewrite zip_with_take_l. exact HQ'.
  - (* the source is at least as long *)
    rewrite sz_sub_small by lia.
    assert (Htail : assign_tail_events xs ys = EvCtor ∘ CopyCtor <$> reverse (drop (length xs) ys)).
    { unfold assign_tail_events. by rewrite decide_False by lia. }
    destruct Hblk' as [(Hbuf' & Hc0' & ->)|(bs & k' & Hbuf' & Hb')].
    + cbn in Hsz'. assert (xs = []) as -> by (destruct xs; [done|cbn in Hsz; lia]).
      cbn in Hsz. rewrite Hsz, Hsz'. cbn [N.sub]. change (Z.of_N 0) with 0%Z.
      apply wp_bind, wp_assign_prefix_0, wp_bind, wp_uninitialized_copy_n_0, wp_modify.
      rewrite <-Hsz'. by apply Hnil.
    + destruct Hblk as [(Hbuf & Hc0 & ->)|(b & k & Hbuf & Hb)].
      * cbn in Hsz. assert (ys = []) as -> by (destruct ys; [done|cbn in Hsz'; lia]).
        cbn in Hsz'. rewrite Hsz, Hsz'. cbn [N.sub]. change (Z.of_N 0) with 0%Z.
        apply wp_bind, wp_assign_prefix_0, wp_bind, wp_uninitialized_copy_n_0, wp_modify.
        rewrite <-Hsz'. by apply Hnil.
      * destruct (HQ b k Hbuf Hb) as [HU' HQ']. rewrite Htail in HQ'.
        assert (b ≠ bs) as Hne.
        { destruct Hdis as [Hd|Hd]; rewrite Hbuf in Hd; [done|]. rewrite Hbuf' in Hd.
          cbn in Hd. congruence. }
        apply wp_bind.
        replace (size_ this) with (N.of_nat (length (take (length xs) ys))) at 1
          by (rewrite length_take; lia).
        eapply (wp_assign_prefix _ _ b bs xs (take (length xs) ys));
          [exact Hbuf|exact Hbuf'|exact Hne|exact Hb|exact Hb'|..].
        -- rewrite length_take. lia.
        -- rewrite length_take. lia.
        -- rewrite length_take. lia.
        -- intros j v Hj. apply lookup_take_Some in Hj as [Hj _].
           change j with (Z.to_nat 0 + j). by apply repr_live.
        -- intros dblk' tr' Hthrow. by apply HE.
        -- apply wp_bind. unfold GetAddress. rewrite Hbuf, Hbuf'.
           unfold ptr_add. cbn [p_base p_off].
           replace (Z.of_N (size_ rhs - size_ this))
             with (Z.of_nat (length (drop (length xs) ys)))
             by (rewrite length_drop; lia).
           eapply wp_uninitialized_copy_n; cbn [heap trace].
           ++ rewrite lookup_insert_ne by done. exact Hb'.
           ++ apply lookup_insert_eq.
           ++ done.
           ++ lia.
           ++ lia.
           ++ intros j v Hj. rewrite lookup_drop in Hj.
              replace (Z.to_nat (0 + Z.of_N (size_ this)) + j) with (Z.to_nat 0 + (length xs + j)) by lia.
              by apply repr_live.
           ++ intros Hnf. apply HU'. intros Hroom. apply Hnf. right.
              rewrite length_app, length_fmap, length_take, length_replicate, length_drop. lia.
           ++ intros dblk' tr' Hlen Hthrow. rewrite insert_insert_eq. by apply HE.
           ++ intros Hfit. apply wp_modify.
              assert (Hroom : length ys ≤ length xs + k).
              { destruct Hfit as [Hz|Hfit]; [rewrite length_drop in Hz; lia|].
                rewrite length_app, length_fmap, length_take, length_replicate, length_drop in Hfit.
                lia. }
              eapply post_eq; [exact (HQ' Hroom)|done| |].
              ** rewrite insert_insert_eq. f_equal.
                 replace (Z.to_nat (0 + Z.of_N (size_ this)))
                   with (length (Live <$> take (length xs) ys))
                   by (rewrite length_fmap, length_take; lia).
                 rewrite list_inserts_app_at.
                 rewrite list_inserts_replicate_0 by (rewrite length_fmap, length_drop; lia).
                 rewrite app_assoc, <-fmap_app, take_drop. f_equal. f_equal.
                 rewrite length_fmap, length_drop. lia.
              ** by rewrite zip_with_take_r.
Qed.
End copy_assign.

(** * Growth at the end *)

Section append_claims.
Context {T : Type} `{!Element T}.
Implicit Types (w : World T) (this : Vector) (xs : list T).

Lemma sz_add_small a b : (a + b < size_max)%N → sz_add a b = (a + b)%N.
Proof. intros. unfold sz_add. by apply wrap_small. Qed.

Lemma wp_append_grew grow_at place_at v this w xs E (U : Prop) :
  repr this w xs → Size this = Capacity this → emplaces grow_at v →
  (∀ w', ¬ never_throws → E this w') →
  (¬ (length xs < arena_cells (grown (size_ this))) → U) →
  wp (append_with grow_at place_at) (λ _ this' w', grew this w xs v this' w')
     E U this w.
Proof.
  intros Hrepr Hfull Hgrow HE HU. eapply wp_append_grow; [done..| |done|].
  { intros w' Hthrow _. by apply HE. }
  intros a tr' Ha Hlt.
  pose proof Hrepr as (Hsz & Hcap & _).
  pose proof (arena_cells_le (grown (size_ this))) as Hcells.
  assert (Hgm : (grown (size_ this) < size_max)%N).
  { unfold grown, sz_mul, wrap, size_max. case_decide; [done|]. by apply N.mod_lt. }
  assert (Hg : grown (size_ this) =
               (if decide (size_ this = 0%N) then 1 else 2 * size_ this)%N).
  { apply grown_no_wrap; lia. }
  assert (Hnew : repr (MkVector (MkRawMemory (Ptr (Some a) 0) (grown (size_ this)))
                         (sz_add (size_ this) 1))
                   (MkWorld (<[a:=(Live <$> xs ++ [v]) ++
                                  replicate (arena_cells (grown (size_ this)) - S (length xs)) Raw]>
                               (release (data_ this) (heap w)))
                            (tr' ++ EvNew (arena_bytes (grown (size_ this))) :: trace w))
                   (xs ++ [v])).
  { eapply repr_block'; cbn [heap].
    - apply lookup_insert_eq.
    - rewrite sz_add_small by lia. rewrite length_app. cbn. lia.
    - rewrite sz_add_small by lia. split; [lia|done]. }
  unfold grew, Size, Capacity in *. cbn [data_ size_ capacity_ buffer_ trace].
  split; [by rewrite Hg, <-Hfull|]. split; [apply sz_add_small; lia|].
  split; [done|]. split; [by apply repr_elements|]. split; [|by eexists].
  unfold block_at. cbn. by rewrite Ha.
Qed.

Lemma untouched_intro this w xs w' :
  repr this w xs → heap w' = heap w → untouched this w xs this w'.
Proof.
  intros Hrepr Hheap. assert (repr this w' xs) by by eapply repr_heap.
  split; [done|]. split; [done|]. split; [done|]. by apply repr_elements.
Qed.

Lemma wp_append_untouched grow_at place_at vg vp this w xs :
  is_copy_constructible = true → repr this w xs →
  emplaces grow_at vg → emplaces place_at vp →
  wp (append_with grow_at place_at) (λ _ _ _, True)
     (λ this' w', untouched this w xs this' w') True this w.
Proof.
  intros Hcc Hrepr Hgrow Hplace.
  destruct (decide (size_ this = Capacity this)) as [Hfull|Hroom].
  - eapply wp_append_grow; [done..| |done|done].
    intros w' _ Hheap. apply untouched_intro; [done|]. by apply Hheap.
  - eapply wp_append_place; [done..| |done|done].
    intros w' _ Hheap. by apply untouched_intro.
Qed.

Lemma room_cells this xs w :
  repr this w xs → Size this = Capacity this → room_to_double this →
  length xs < arena_cells (grown (size_ this)).
Proof.
  intros Hrepr Hfull Hroom.
  pose proof Hrepr as (Hsz & Hcap & _). unfold room_to_double, Size, Capacity in *.
  assert (2 * capacity_ (data_ this) + 1 ≤
          (2 * capacity_ (data_ this) + 1) * N.pos sizeof)%N as Hpos by nia.
  assert (Hg : grown (size_ this) =
               (if decide (size_ this = 0%N) then 1 else 2 * size_ this)%N).
  { unfold grown. case_decide; [done|]. unfold sz_mul. rewrite wrap_small; lia. }
  rewrite arena_cells_exact; rewrite Hg; case_decide; nia.
Qed.

(** Claim C4.  On a vector whose size equals its capacity, [PushBack] and
    [EmplaceBack] which return have taken fresh storage of twice the capacity
    (of one element when the vector was empty), the elements are the old ones
    in order followed by the new one, and the size went up by one; and they
    do return when nothing throws and the doubled capacity fits [size_t]. *)
Theorem append_at_capacity_doubles this w xs :
  repr this w xs → Size this = Capacity this →
  (∀ v this' w', PushBack v this w = (Ok tt, this', w') → grew this w xs v this' w') ∧
  (∀ v this' w', PushBack_move v this w = (Ok tt, this', w') →
     grew this w xs v this' w') ∧
  (∀ args p this' w', EmplaceBack args this w = (Ok p, this', w') →
     grew this w xs (ctor_value args) this' w' ∧
     p = begin this' +ₚ Z.of_N (Size this)) ∧
  (never_throws → room_to_double this →
     (∀ v, ∃ this' w', PushBack v this w = (Ok tt, this', w')) ∧
     (∀ v, ∃ this' w', PushBack_move v this w = (Ok tt, this', w')) ∧
     (∀ args, ∃ p this' w', EmplaceBack args this w = (Ok p, this', w'))).
Proof.
  intros Hrepr Hfull. split; [|split; [|split]]; cycle 3.
  { intros Hnt Hroom.
    pose proof (room_cells this xs w Hrepr Hfull Hroom) as Hcells.
    split; [|split].
    - intros v. destruct (wp_returns (PushBack v) this w) as ([] & ?); [|done].
      eapply wp_mono; [apply (wp_append_grew _ _ v this w xs (λ _ _, False) False);
                       [done|done|apply emplaces_braced|done|done]|done..].
    - intros v. destruct (wp_returns (PushBack_move v) this w) as ([] & ?); [|done].
      eapply wp_mono; [apply (wp_append_grew _ _ (ctor_value (MoveCtor v)) this w xs
                                (λ _ _, False) False);
                       [done|done|apply emplaces_placement_new|done|done]|done..].
    - intros args. apply wp_returns. unfold EmplaceBack. apply wp_bind.
      eapply wp_mono; [apply (wp_append_grew _ _ (ctor_value args) this w xs
                                (λ _ _, False) False);
                       [done|done|apply emplaces_placement_new|done|done]| |done|done].
      cbn beta. intros _ this1 w1 (Hcap & Hsize & Hrepr1 & _). apply wp_bind, wp_get.
      pose proof Hrepr1 as (Hsz1 & Hcap1 & _). unfold Size, Capacity in *.
      unfold RawMemory_index. rewrite sz_sub_small by lia.
      rewrite decide_True by lia. by apply wp_ret. }
  - intros v this' w' Hrun. revert Hrun.
    eapply (wp_Ok _ (λ _ this' w', grew this w xs v this' w') (λ _ _, True) True).
    apply wp_append_grew; [done|done|apply emplaces_braced|done|done].
  - intros v this' w' Hrun. revert Hrun.
    eapply (wp_Ok _ (λ _ this' w', grew this w xs v this' w') (λ _ _, True) True).
    apply (wp_append_grew _ _ (ctor_value (MoveCtor v)));
      [done|done|apply emplaces_placement_new|done|done].
  - intros args p this' w' Hrun. revert Hrun.
    eapply (wp_Ok _ (λ p this' w', grew this w xs (ctor_value args) this' w' ∧
                       p = begin this' +ₚ Z.of_N (Size this)) (λ _ _, True) True).
    unfold EmplaceBack. apply wp_bind.
    eapply wp_mono; [apply (wp_append_grew _ _ (ctor_value args) this w xs
                              (λ _ _, True) True);
                     [done|done|apply emplaces_placement_new|done|done]| |done|done].
    cbn beta. intros _ this1 w1 Hgrew. apply wp_bind, wp_get.
    destruct Hgrew as (Hcap & Hsize & Hrepr1 & Hrest).
    pose proof Hrepr1 as (Hsz1 & Hcap1 & _). unfold Size, Capacity in *.
    unfold RawMemory_index. rewrite sz_sub_small by lia.
    rewrite decide_True by lia. apply wp_ret. split.
    + by split.
    + unfold begin, GetAddress. f_equal. f_equal. lia.
Qed.

Lemma wp_throws {St A} (m : M T St A) s w :
  wp m (λ _ _ _, False) (λ s' _, s' = s) False s w → ∃ w', m s w = (Throw, s, w').
Proof.
  unfold wp. destruct (m s w) as [[[a| |] s'] w']; [done| |done].
  intros ->. eauto.
Qed.

Lemma copy_throws_return xs (tr0 : list (event T)) :
  copy_throws xs tr0 → copies_return xs tr0 → False.
Proof.
  intros (Hrel & j & v & Hv & Hthrow) Hreturn.
  by rewrite (Hreturn Hrel j v Hv) in Hthrow.
Qed.

Lemma wp_Reserve_throws n this w xs :
  repr this w xs → (Capacity this < n)%N → (n * Npos sizeof < size_max)%N →
  copy_throws xs (EvNew (arena_bytes n) :: trace w) →
  wp (Reserve n) (λ _ _ _, False) (λ this' _, this' = this) False this w.
Proof.
  intros Hrepr Hlt Hfit Hthrow. eapply wp_Reserve_checked; [done|lia|].
  intros _. pose proof Hrepr as (Hsz & Hcap & _). unfold Capacity in Hlt.
  rewrite arena_cells_exact by done. split; [done|]. split; [lia|].
  intros a tr' _ _ Hreturn. by eapply copy_throws_return.
Qed.

Lemma wp_append_throws c place_at this w xs :
  repr this w xs → Size this = Capacity this → room_to_double this →
  copy_throws xs (EvCtor c :: EvNew (arena_bytes (grown (Size this))) :: trace w) →
  wp (append_with (λ S p, placement_new p c) place_at) (λ _ _ _, False)
     (λ this' _, this' = this) False this w.
Proof.
  intros Hrepr Hfull Hroom Hthrow.
  pose proof (room_cells this xs w Hrepr Hfull Hroom) as Hcells.
  unfold Size in *. unfold append_with. apply wp_bind, wp_get.
  rewrite decide_True by done. fold (grown (size_ this)).
  apply repr_inv in Hrepr as (Hsz & Hcap & Hblk).
  pose proof (arena_cells_le (grown (size_ this))) as Hle.
  apply wp_bind, wp_RawMemory_ctor.
  - done.
  - intros Hg0. rewrite Hg0 in Hle, Hcells. lia.
  - intros Hg0 a Ha. apply wp_scoped, wp_bind. unfold RawMemory_plus.
    cbn [capacity_ buffer_]. rewrite decide_True by lia.
    apply wp_ret. unfold ptr_add. cbn [p_base p_off]. apply wp_bind.
    eapply wp_placement_new_checked; cbn [heap trace fst snd].
    { apply lookup_insert_eq. }
    { intros _. by eapply wp_operator_delete; cbn [heap trace];
        [apply lookup_insert_eq|]. }
    { intros Hn. apply Hn. rewrite length_replicate.
      unfold arena_cells, arena_bytes in *. lia. }
    intros _ _. rewrite insert_insert_eq.
    destruct Hblk as [(Hbuf & Hc0 & ->)|(b & k & Hbuf & Hb)].
    + destruct Hthrow as (_ & j & v & Hv & _). done.
    + replace (Z.of_N (size_ this)) with (Z.of_nat (length xs)) by lia.
      unfold GetAddress. rewrite Hbuf. cbn [buffer_].
      assert (b ≠ a) as Hab by congruence.
      apply wp_bind. eapply wp_migrate_n_checked; cbn [heap trace fst snd].
      * rewrite lookup_insert_ne by done. exact Hb.
      * apply lookup_insert_eq.
      * done.
      * done.
      * done.
      * intros j x. apply repr_live.
      * intros Hnf. apply Hnf. right. rewrite length_insert, length_replicate.
        unfold arena_cells, arena_bytes in *. lia.
      * intros sblk' dblk' tr' Hlen Hsame Hnt. cbn [fst snd].
        by eapply wp_operator_delete; cbn [heap trace];
          [rewrite lookup_insert_ne by done; apply lookup_insert_eq|].
      * intros _ Hcopies. exfalso. by eapply copy_throws_return.
Qed.

(** Claim C1.  When a growing operation ([Reserve], or [PushBack] and
    [EmplaceBack]) ends in an exception, for an element type with a copy
    constructor, the vector is the object it was and the free store is the
    one it was: same storage, same size, same capacity, same elements.  And
    it does end in an exception when the migration copies and one of its
    copy constructor calls throws, asked at the trace which the allocation
    and, in an append, the construction of the new element have left: the
    exception reaches the caller. *)
Theorem growth_failure_leaves_vector_unchanged this w xs :
  is_copy_constructible = true → repr this w xs →
  (∀ n this' w', Reserve n this w = (Throw, this', w') →
     untouched this w xs this' w') ∧
  (∀ v this' w', PushBack v this w = (Throw, this', w') →
     untouched this w xs this' w') ∧
  (∀ v this' w', PushBack_move v this w = (Throw, this', w') →
     untouched this w xs this' w') ∧
  (∀ args this' w', EmplaceBack args this w = (Throw, this', w') →
     untouched this w xs this' w') ∧
  (∀ n, (Capacity this < n)%N → (n * Npos sizeof < size_max)%N →
     copy_throws xs (EvNew (arena_bytes n) :: trace w) →
     ∃ w', Reserve n this w = (Throw, this, w')) ∧
  (Size this = Capacity this → room_to_double this →
     (∀ v, copy_throws xs (EvCtor (CopyCtor v) ::
                           EvNew (arena_bytes (grown (Size this))) :: trace w) →
           ∃ w', PushBack v this w = (Throw, this, w')) ∧
     (∀ v, copy_throws xs (EvCtor (MoveCtor v) ::
                           EvNew (arena_bytes (grown (Size this))) :: trace w) →
           ∃ w', PushBack_move v this w = (Throw, this, w')) ∧
     (∀ args, copy_throws xs (EvCtor args ::
                              EvNew (arena_bytes (grown (Size this))) :: trace w) →
              ∃ w', EmplaceBack args this w = (Throw, this, w'))).
Proof.
  intros Hcc Hrepr. split; [|split; [|split; [|split; [|split]]]].
  - intros n this' w' Hrun. revert Hrun.
    eapply (wp_Throw _ (λ _ _ _, True) (λ this' w', untouched this w xs this' w') True).
    eapply wp_Reserve; [done|done|]. intros Hlt. split; [|done].
    intros w1 _ Hheap. apply untouched_intro; [done|]. by apply Hheap.
  - intros v this' w' Hrun. revert Hrun.
    eapply (wp_Throw _ (λ _ _ _, True) (λ this' w', untouched this w xs this' w') True).
    eapply wp_append_untouched; [done|done|apply emplaces_braced|
                                 apply emplaces_placement_new].
  - intros v this' w' Hrun. revert Hrun.
    eapply (wp_Throw _ (λ _ _ _, True) (λ this' w', untouched this w xs this' w') True).
    eapply wp_append_untouched; [done|done|apply emplaces_placement_new..].
  - intros args this' w' Hrun. revert Hrun.
    eapply (wp_Throw _ (λ _ _ _, True) (λ this' w', untouched this w xs this' w') True).
    unfold EmplaceBack. apply wp_bind.
    eapply wp_mono;
      [eapply wp_append_untouched; [done|done|apply emplaces_placement_new..]
      | |done|done].
    cbn beta. intros _ this1 w1 _. apply wp_bind, wp_get.
    unfold RawMemory_index. by case_decide.
  - intros n Hlt Hfit Hthrow. by eapply wp_throws, wp_Reserve_throws.
  - intros Hfull Hroom. split; [|split].
    + intros v Hthrow. by eapply wp_throws, (wp_append_throws (CopyCtor v)).
    + intros v Hthrow. by eapply wp_throws, (wp_append_throws (MoveCtor v)).
    + intros args Hthrow. apply wp_throws. unfold EmplaceBack. apply wp_bind.
      eapply wp_mono; [by eapply (wp_append_throws args)|done..].
Qed.
End append_claims.

(** * Moves; [Erase] on an empty vector *)

Section moves.
Context {T : Type} `{!Element T}.
Implicit Types (w : World T) (this rhs : Vector) (xs ys : list T).

Lemma Vector_eta v : MkVector (MkRawMemory (buffer_ (data_ v)) (capacity_ (data_ v))) (size_ v) = v.
Proof. by destruct v as [[? ?] ?]. Qed.

Lemma repr_release this rhs w xs ys :
  repr this w xs → repr rhs w ys → disjoint this rhs →
  ∀ tr, repr rhs (MkWorld (release (data_ this) (heap w)) tr) ys.
Proof.
  intros Hthis Hrhs Hdis tr. destruct Hrhs as (Hsz & Hcap & Hblk).
  split; [done|]. split; [done|]. case_decide as Hnull; [done|].
  destruct (block_at _ w) as [blk|] eqn:Hb; [|done].
  apply block_at_Some in Hb as (bs & Hbuf & Hbs).
  unfold block_at, release. rewrite Hbuf. cbn. rewrite decide_True by done. cbn.
  destruct (p_base (buffer_ (data_ this))) as [b|] eqn:Hbase.
  - rewrite lookup_delete_ne; [by rewrite Hbs|].
    destruct Hdis as [Hd|Hd]; [by rewrite Hd in Hbase|].
    rewrite Hbase, Hbuf in Hd. cbn in Hd. congruence.
  - by rewrite Hbs.
Qed.

Lemma move_assign_steal this rhs w xs :
  repr this w xs → (Capacity this < Size rhs)%N →
  Vector_move_assign (this, Some rhs) w =
    (Ok tt, (rhs, Some Vector_default),
     MkWorld (release (data_ this) (heap w))
             (delete_events (data_ this) ++ (EvDtor <$> reverse xs) ++ trace w)).
Proof.
  intros Hthis Hlt. apply wp_run. unfold Vector_move_assign. apply wp_bind, wp_get.
  cbn [snd fst]. rewrite decide_True by done.
  apply wp_bind, wp_put, wp_scoped, wp_modify.
  cbn [Vector_move_ctor RawMemory_move_ctor RawMemory_Swap Vector_Swap
       RawMemory_default fst snd data_ size_ buffer_ capacity_].
  rewrite (Vector_eta this). eapply wp_Vector_dtor; [exact Hthis|].
  by rewrite (Vector_eta rhs).
Qed.

Lemma move_assign_keep this rhs w :
  (Size rhs ≤ Capacity this)%N →
  Vector_move_assign (this, Some rhs) w = (Ok tt, (this, Some rhs), w).
Proof.
  intros Hge. unfold Vector_move_assign, mbind, M_bind, bind, get. cbn.
  rewrite decide_False; [done|]. unfold Size in Hge. lia.
Qed.

(** Claim C2.  Move assignment between two vectors always returns.  When
    the size of the source exceeds the capacity of the destination, the
    destination takes the storage and the elements of the source, the source
    is left empty and the old elements of the destination are destroyed;
    otherwise nothing happens at all. *)
Theorem move_assign_steals_or_does_nothing this rhs w xs ys :
  repr this w xs → repr rhs w ys → disjoint this rhs →
  ∃ this' rhs' w',
    Vector_move_assign (this, Some rhs) w = (Ok tt, (this', Some rhs'), w') ∧
    ((Capacity this < Size rhs)%N →
       this' = rhs ∧ rhs' = Vector_default ∧
       repr this' w' ys ∧ elements this' w' = Some ys ∧ repr rhs' w' [] ∧
       heap w' = release (data_ this) (heap w) ∧
       trace w' = delete_events (data_ this) ++ (EvDtor <$> reverse xs) ++ trace w) ∧
    ((Size rhs ≤ Capacity this)%N →
       this' = this ∧ rhs' = rhs ∧ w' = w ∧ repr this' w' xs ∧
       elements this' w' = Some xs).
Proof.
  intros Hthis Hrhs Hdis.
  destruct (decide (Capacity this < Size rhs)%N) as [Hlt|Hge].
  - eexists rhs, Vector_default, _.
    split; [by eapply move_assign_steal|]. split; [|intros; lia].
    intros _. split; [done|]. split; [done|].
    assert (repr rhs (MkWorld (release (data_ this) (heap w))
              (delete_events (data_ this) ++ (EvDtor <$> reverse xs) ++ trace w)) ys)
      as Hrhs' by by eapply repr_release.
    split; [done|]. split; [by apply repr_elements|]. split; [apply repr_null|]. done.
  - exists this, rhs, w.
    split; [apply move_assign_keep; lia|]. split; [intros; lia|].
    intros _. split; [done|]. split; [done|]. split; [done|]. split; [done|].
    by apply repr_elements.
Qed.

Lemma move_assign_self this w :
  Vector_move_assign (this, None) w = (Ok tt, (this, None), w).
Proof. done. Qed.

(** Claim C7.  Move construction is a total function: the new vector has
    the size, the capacity, the storage and the elements of the source, and
    the source is left empty, without storage. *)
Theorem move_ctor_steals_storage (A : Vector) w :
  Vector_move_ctor A = (A, Vector_default) ∧
  Size (Vector_move_ctor A).1 = Size A ∧
  Capacity (Vector_move_ctor A).1 = Capacity A ∧
  begin (Vector_move_ctor A).1 = begin A ∧
  elements (Vector_move_ctor A).1 w = elements A w ∧
  Size (Vector_move_ctor A).2 = 0%N ∧
  Capacity (Vector_move_ctor A).2 = 0%N ∧
  elements (Vector_move_ctor A).2 w = Some [] ∧
  (∀ xs, repr A w xs →
     repr (Vector_move_ctor A).1 w xs ∧
     elements (Vector_move_ctor A).1 w = Some xs ∧
     repr (Vector_move_ctor A).2 w []).
Proof.
  destruct A as [[buf cap] sz]. do 8 (split; [done|]).
  intros xs Hrepr. split; [done|]. split; [by apply repr_elements|apply repr_null].
Qed.

(** Claim C10.  On an empty vector [Erase] returns [end()] for any
    position, and neither the vector nor the world changes. *)
Theorem Erase_on_empty_is_noop this w pos :
  Size this = 0%N → Erase pos this w = (Ok (end_ this), this, w).
Proof.
  intros Hempty. unfold Erase, mbind, M_bind, bind, get. unfold Size in Hempty.
  by rewrite decide_False by lia.
Qed.
End moves.

Section copy_assign_claim.
Context {T : Type} `{!Element T}.
Implicit Types (w : World T) (this rhs : Vector) (xs ys : list T).

Lemma repr_frame v w w' xs :
  (∀ b, p_base (buffer_ (data_ v)) = Some b → heap w' !! b = heap w !! b) →
  repr v w xs → repr v w' xs.
Proof.
  intros Hframe (Hsz & Hcap & Hblk). split; [done|]. split; [done|].
  case_decide; [done|]. unfold block_at in *. case_decide; [|done].
  destruct (p_base (buffer_ (data_ v))) as [b|] eqn:Hb; [|done]. cbn in *.
  by rewrite Hframe.
Qed.

Lemma wp_copy_assign_copied this rhs w xs ys E (U : Prop) :
  repr this w xs → repr rhs w ys → disjoint this rhs →
  (∀ w', ¬ never_throws → E this w') →
  (¬ (sized this w ∧ sized rhs w) → U) →
  wp (Vector_copy_assign (Some rhs)) (λ _ this' w', copied this rhs w xs ys this' w')
     E U this w.
Proof.
  intros Hthis Hrhs Hdis HE HU.
  pose proof Hthis as (Hsz & Hcap & _). pose proof Hrhs as (Hsz' & Hcap' & _).
  assert (Hbase : ∀ b bs, p_base (buffer_ (data_ this)) = Some b →
            p_base (buffer_ (data_ rhs)) = Some bs → b ≠ bs).
  { intros b bs Hb Hbs. destruct Hdis as [Hd|Hd]; [by rewrite Hd in Hb|congruence]. }
  destruct (decide (Capacity this < size_ rhs)%N) as [Hlt|Hge].
  - eapply wp_copy_assign_realloc; [done|done|done| | |].
    + intros w' Hthrow _. by apply HE.
    + intros Hbad. apply HU. intros [_ [Hbytes _]]. apply Hbad.
      rewrite arena_cells_exact; [lia|].
      assert (size_ rhs * N.pos sizeof ≤ capacity_ (data_ rhs) * N.pos sizeof)%N by nia.
      lia.
    + intros a Ha Hle.
      assert (Hnew : repr (MkVector (MkRawMemory (Ptr (Some a) 0) (size_ rhs)) (size_ rhs))
                (MkWorld (<[a:=(Live <$> ys) ++ replicate (arena_cells (size_ rhs) - length ys) Raw]>
                            (release (data_ this) (heap w)))
                         (delete_events (data_ this) ++ (EvDtor <$> reverse xs) ++
                          (EvCtor ∘ CopyCtor <$> reverse ys) ++
                          EvNew (arena_bytes (size_ rhs)) :: trace w)) ys).
      { eapply repr_block'; cbn [heap]; [apply lookup_insert_eq|done|lia]. }
      assert (Hrhs' : repr rhs
                (MkWorld (<[a:=(Live <$> ys) ++ replicate (arena_cells (size_ rhs) - length ys) Raw]>
                            (release (data_ this) (heap w)))
                         (delete_events (data_ this) ++ (EvDtor <$> reverse xs) ++
                          (EvCtor ∘ CopyCtor <$> reverse ys) ++
                          EvNew (arena_bytes (size_ rhs)) :: trace w)) ys).
      { eapply repr_frame; [|by eapply (repr_release this rhs w xs ys) with (tr := [])].
        intros bs Hbs. cbn [heap]. apply lookup_insert_ne.
        intros <-. destruct Hrhs as (_ & _ & Hblk). case_decide as Hnull.
        - by rewrite Hnull in Hbs.
        - destruct (block_at _ w) as [blk|] eqn:Hb; [|done].
          apply block_at_Some in Hb as (b' & Hbuf & Hb'). rewrite Hbuf in Hbs.
          cbn in Hbs. congruence. }
      split; [done|]. split; [done|]. split; [done|].
      split; [by apply repr_elements|]. split; [by apply repr_elements|].
      split; [|intros; unfold Size in *; lia]. intros _. split; [done|]. split; [|done].
      unfold block_at. cbn. by rewrite Ha.
  - eapply wp_copy_assign_keep; [done|done|done|lia|done| |].
    + intros -> ->.
      assert (set_size (size_ rhs) this = this) as ->.
      { destruct this as [? sz]. cbn in *. unfold set_size. cbn. f_equal. lia. }
      split; [done|]. split; [done|].
      split; [unfold Size; cbn in *; lia|].
      split; [by apply repr_elements|].
      split; [by apply repr_elements|].
      split; [intros; unfold Size in *; lia|]. intros _. done.
    + intros b k Hbuf Hb. split.
      * intros Hbad. apply HU. intros [[_ Hlen] _]. apply Hbad. unfold block_at in Hlen.
        rewrite Hbuf in Hlen. cbn in Hlen. rewrite Hb in Hlen.
        rewrite decide_True in Hlen by done.
        rewrite length_app, length_fmap, length_replicate in Hlen. unfold Capacity in *. lia.
      * intros Hroom.
        assert (Hnew : repr (set_size (size_ rhs) this)
                  (MkWorld (<[b:=(Live <$> ys) ++ replicate (length xs + k - length ys) Raw]> (heap w))
                           (assign_tail_events xs ys ++
                            reverse (zip_with EvCopyAssign xs ys) ++ trace w)) ys).
        { destruct this as [[buf cap] sz]. cbn in *. subst buf.
          eapply repr_block'; cbn [heap]; [apply lookup_insert_eq|done|].
          unfold Capacity in *. cbn in *. lia. }
        assert (Hrhs' : repr rhs
                  (MkWorld (<[b:=(Live <$> ys) ++ replicate (length xs + k - length ys) Raw]> (heap w))
                           (assign_tail_events xs ys ++
                            reverse (zip_with EvCopyAssign xs ys) ++ trace w)) ys).
        { eapply repr_frame; [|exact Hrhs]. intros bs Hbs. cbn [heap].
          apply lookup_insert_ne. eapply Hbase; [|done]. by rewrite Hbuf. }
        split; [done|]. split; [done|]. split; [done|].
        split; [by apply repr_elements|]. split; [by apply repr_elements|].
        split; [intros; unfold Size in *; lia|]. intros _. done.
Qed.

(** Claim C5.  Copy assignment between two vectors which returns leaves
    the destination with the elements and the size of the source: through a
    full copy whose storage it takes over when the source is larger than its
    capacity, and otherwise by assigning over the common prefix and then
    destroying its excess or copy-constructing the excess of the source.  It
    returns when nothing throws. *)
Theorem copy_assign_makes_equal this rhs w xs ys :
  repr this w xs → repr rhs w ys → disjoint this rhs →
  (∀ this' w', Vector_copy_assign (Some rhs) this w = (Ok tt, this', w') →
     copied this rhs w xs ys this' w') ∧
  (never_throws → sized this w → sized rhs w →
     ∃ this' w', Vector_copy_assign (Some rhs) this w = (Ok tt, this', w')).
Proof.
  intros Hthis Hrhs Hdis. split.
  - intros this' w' Hrun. revert Hrun.
    eapply (wp_Ok _ (λ _ this' w', copied this rhs w xs ys this' w') (λ _ _, True) True).
    by eapply wp_copy_assign_copied.
  - intros Hnt Hs Hs'.
    destruct (wp_returns (Vector_copy_assign (Some rhs)) this w) as ([] & ?); [|done].
    eapply wp_mono; [eapply (wp_copy_assign_copied this rhs w xs ys (λ _ _, False) False)|..];
      try done.
    intros Hbad. by apply Hbad.
Qed.
End copy_assign_claim.

(** * Capacity *)

(** Operations on the free store and on elements leave the object alone. *)
Section keeps_rules.
Context {T : Type} `{!Element T} {St : Type}.
Implicit Types (s : St) (w : World T).

Lemma keeps_ret {A} (a : A) : keeps (mret a : M T St A).
Proof. done. Qed.
Lemma keeps_throw {A} : keeps (throw : M T St A).
Proof. done. Qed.
Lemma keeps_undefined {A} : keeps (undefined : M T St A).
Proof. done. Qed.
Lemma keeps_bind {A B} (m : M T St A) (k : A → M T St B) :
  keeps m → (∀ a, keeps (k a)) → keeps (m ≫= k).
Proof.
  intros Hm Hk s w. unfold mbind, M_bind, bind. specialize (Hm s w).
  destruct (m s w) as [[[a| |] s'] w']; cbn in *; subst; [apply Hk|done..].
Qed.
Lemma keeps_catch {A} (m h : M T St A) : keeps m → keeps h → keeps (catch m h).
Proof.
  intros Hm Hh s w. unfold catch. specialize (Hm s w).
  destruct (m s w) as [[[a| |] s'] w']; cbn in *; subst; [done|apply Hh|done].
Qed.
Lemma keeps_for_n n i (body : Z → M T St unit) :
  (∀ j, keeps (body j)) → keeps (for_n n i body).
Proof.
  intros Hb. revert i. induction n as [|n IH]; intros i; [done|].
  cbn [for_n]. apply keeps_bind; [apply Hb|]. intros _. apply IH.
Qed.
Lemma keeps_get_trace : keeps (get_trace : M T St _).
Proof. done. Qed.
Lemma keeps_get_world : keeps (get_world : M T St _).
Proof. done. Qed.
Lemma keeps_emit e : keeps (emit e : M T St unit).
Proof. done. Qed.
Lemma keeps_put_heap h : keeps (put_heap h : M T St unit).
Proof. done. Qed.
Lemma keeps_read_cell p : keeps (read_cell p : M T St _).
Proof. intros s w. unfold read_cell. by destruct (cell_at p w). Qed.
Lemma keeps_write_cell p c : keeps (write_cell p c : M T St unit).
Proof. intros s w. unfold write_cell. repeat case_match; done. Qed.
Lemma keeps_if {A} (b : bool) (m1 m2 : M T St A) :
  keeps m1 → keeps m2 → keeps (if b then m1 else m2).
Proof. by destruct b. Qed.
Lemma keeps_decide {A} (P : Prop) `{!Decision P} (m1 m2 : M T St A) :
  keeps m1 → keeps m2 → keeps (if decide P then m1 else m2).
Proof. by case_decide. Qed.

Ltac keeps_step :=
  first
    [ apply keeps_ret | apply keeps_throw | apply keeps_undefined
    | apply keeps_get_trace | apply keeps_get_world | apply keeps_emit
    | apply keeps_put_heap | apply keeps_read_cell | apply keeps_write_cell
    | apply keeps_bind; [|intros ?] | apply keeps_catch | apply keeps_for_n; intros ?
    | apply keeps_if | apply keeps_decide
    | match goal with |- keeps (match ?x with _ => _ end) => destruct x end ].
Ltac keeps_auto := repeat keeps_step.

Lemma keeps_load p : keeps (load p : M T St T).
Proof. unfold load. keeps_auto. Qed.
Lemma keeps_construct c : keeps (construct c : M T St T).
Proof. unfold construct. keeps_auto. Qed.
Lemma keeps_placement_new p c : keeps (placement_new p c : M T St unit).
Proof. unfold placement_new. apply keeps_bind; [apply keeps_construct|]. intros. keeps_auto. Qed.
Lemma keeps_destroy_at p : keeps (destroy_at p : M T St unit).
Proof. unfold destroy_at. apply keeps_bind; [apply keeps_load|]. intros. keeps_auto. Qed.
Lemma keeps_destroy_n p n : keeps (destroy_n p n : M T St unit).
Proof. unfold destroy_n. apply keeps_for_n. intros. apply keeps_destroy_at. Qed.
Lemma keeps_move_construct_at p q : keeps (move_construct_at p q : M T St unit).
Proof.
  unfold move_construct_at. apply keeps_bind; [apply keeps_load|]. intros.
  apply keeps_bind; [apply keeps_placement_new|]. intros. keeps_auto.
Qed.
Lemma keeps_move_assign_from p v : keeps (move_assign_from p v : M T St T).
Proof. unfold move_assign_from. apply keeps_bind; [apply keeps_load|]. intros. keeps_auto. Qed.
Lemma keeps_move_assign_at p q : keeps (move_assign_at p q : M T St unit).
Proof.
  unfold move_assign_at. apply keeps_bind; [apply keeps_load|]. intros.
  apply keeps_bind; [apply keeps_move_assign_from|]. intros. keeps_auto.
Qed.
Lemma keeps_std_move p q r : keeps (std_move p q r : M T St unit).
Proof.
  unfold std_move. destruct (distance p q); [|keeps_auto].
  apply keeps_for_n. intros. apply keeps_move_assign_at.
Qed.
Lemma keeps_std_move_backward p q r : keeps (std_move_backward p q r : M T St unit).
Proof.
  unfold std_move_backward. destruct (distance p q); [|keeps_auto].
  apply keeps_for_n. intros. apply keeps_move_assign_at.
Qed.
Lemma keeps_uninitialized_value_construct_n p n :
  keeps (uninitialized_value_construct_n p n : M T St unit).
Proof.
  unfold uninitialized_value_construct_n. apply keeps_for_n. intros.
  apply keeps_catch; [apply keeps_placement_new|].
  apply keeps_bind; [apply keeps_destroy_n|]. intros. keeps_auto.
Qed.

Lemma wp_keeps {A} (m : M T St A) (Q : A → St → World T → Prop) E (U : Prop) s w :
  keeps m → (∀ a w', Q a s w') → (∀ w', E s w') → U → wp m Q E U s w.
Proof.
  intros Hk HQ HE HU. unfold wp. specialize (Hk s w).
  destruct (m s w) as [[[a| |] s'] w']; cbn in *; subst; auto.
Qed.
End keeps_rules.

Section capacity.
Context {T : Type} `{!Element T}.
Implicit Types (w : World T) (this rhs : Vector) (xs ys : list T).

Lemma keeps_RawMemory_plus {St} r n : keeps (RawMemory_plus r n : M T St _).
Proof. unfold RawMemory_plus. apply keeps_decide; [apply keeps_ret|apply keeps_undefined]. Qed.
Lemma keeps_RawMemory_index {St} r n : keeps (RawMemory_index r n : M T St _).
Proof. unfold RawMemory_index. apply keeps_decide; [apply keeps_ret|apply keeps_undefined]. Qed.
Lemma keeps_operator_delete {St} p : keeps (operator_delete p : M T St _).
Proof.
  unfold operator_delete. apply keeps_decide; [apply keeps_ret|].
  destruct (p_base p); [|apply keeps_undefined].
  apply keeps_bind; [apply keeps_get_world|]. intros w.
  apply keeps_decide; [|apply keeps_undefined].
  apply keeps_bind; [apply keeps_emit|]. intros. apply keeps_put_heap.
Qed.
Lemma keeps_RawMemory_dtor {St} r : keeps (RawMemory_dtor r : M T St _).
Proof. apply keeps_operator_delete. Qed.
Lemma keeps_destroy_local {St} v : keeps (destroy_local v : M T St _).
Proof. apply keeps_emit. Qed.

Lemma wp_placement_new_null {St} (o : Z) c (Q : unit → St → World T → Prop) E (s : St) w :
  (∀ w', E s w') → wp (placement_new (Ptr None o) c) Q E True s w.
Proof.
  intros HE. unfold placement_new. apply wp_bind, wp_construct; [by intros|]. done.
Qed.

Lemma to_size_t_small (i : nat) : (Z.of_nat i < Z.of_N size_max)%Z → to_size_t (Z.of_nat i) = N.of_nat i.
Proof. intros Hi. unfold to_size_t. rewrite Z.mod_small by lia. lia. Qed.

Lemma wp_Emplace_grow_capacity this w xs (i : nat) args :
  repr this w xs → size_ this = Capacity this → (0 < size_ this)%N → i ≤ length xs →
  wp (Emplace (begin this +ₚ Z.of_nat i) args) (λ _, not_less this) (not_less this) True
     this w.
Proof.
  intros Hrepr Hfull Hpos Hi. unfold Emplace. apply wp_bind, wp_get.
  rewrite decide_True by done.
  apply repr_inv in Hrepr as (Hsz & Hcap & Hblk).
  destruct Hblk as [(Hbuf & Hc0 & ->)|(b & k & Hbuf & Hb)]; [cbn in Hsz; lia|].
  assert (Hdist : distance (cbegin this) (begin this +ₚ Z.of_nat i) = Some (Z.of_nat i)).
  { unfold distance, cbegin, begin, GetAddress. rewrite Hbuf. cbn.
    rewrite decide_True by done. f_equal. lia. }
  assert (Hts : to_size_t (Z.of_nat i) = N.of_nat i).
  { apply to_size_t_small. unfold size_max in *. lia. }
  pose proof (arena_cells_le (sz_mul (size_ this) 2)) as Hcells.
  assert (Hfin : ∀ (sl : Vector * RawMemory) w',
            (Capacity this ≤ Capacity sl.1)%N →
            wp (RawMemory_dtor sl.2) (λ _ s'' w'', not_less this s'' w'') (λ _ _, True)
               True sl.1 w').
  { intros sl w' HP. apply wp_keeps; [apply keeps_RawMemory_dtor|done..]. }
  apply wp_bind, wp_RawMemory_ctor.
  - intros _ _. unfold not_less. lia.
  - intros Hz. apply wp_scoped. rewrite Hdist, Hts.
    unfold RawMemory_plus. cbn [capacity_ buffer_].
    case_decide; [|apply wp_undefined; done].
    apply wp_bind, wp_ret. unfold ptr_add, nullptr. cbn [p_base p_off].
    apply wp_bind, wp_placement_new_null.
    intros w'. apply Hfin. cbn. lia.
  - intros Hnz a Ha. apply wp_scoped. rewrite Hdist, Hts.
    assert (b ≠ a) as Hab by congruence.
    unfold RawMemory_plus. cbn [capacity_ buffer_].
    case_decide as Hle; [|apply wp_undefined; done].
    apply wp_bind, wp_ret. unfold ptr_add. cbn [p_base p_off].
    apply wp_bind. eapply wp_placement_new; cbn [heap trace].
    { apply lookup_insert_eq. }
    { intros _ _. apply Hfin. cbn. lia. }
    { done. }
    rewrite length_replicate. intros Hin. rewrite insert_insert_eq.
    unfold GetAddress. cbn [buffer_]. rewrite Hbuf. apply wp_bind.
    replace (Z.of_nat i) with (Z.of_nat (length (take i xs))) at 1
      by (rewrite length_take; lia).
    eapply wp_migrate_n; cbn [heap trace].
    { rewrite lookup_insert_ne by done. exact Hb. }
    { apply lookup_insert_eq. }
    { done. }
    { done. }
    { done. }
    { intros j v Hj. apply lookup_take_Some in Hj as [Hj _]. by apply repr_live. }
    { done. }
    { intros sblk' dblk' tr' _ _ _. apply Hfin. cbn. lia. }
    intros _. apply wp_bind. unfold ptr_add. cbn [p_base p_off].
    rewrite sz_sub_small by lia.
    replace (Z.of_N (size_ this - N.of_nat i)) with (Z.of_nat (length (drop i xs)))
      by (rewrite length_drop; lia).
    eapply wp_migrate_n; cbn [heap trace].
    { apply lookup_insert_eq. }
    { rewrite lookup_insert_ne by done. apply lookup_insert_eq. }
    { done. }
    { lia. }
    { lia. }
    { intros j v Hj. rewrite lookup_drop in Hj.
      rewrite list_lookup_inserts_ge
        by (rewrite length_fmap, left_behind_length, length_take; lia).
      replace (Z.to_nat (0 + Z.of_nat i) + j) with (Z.to_nat 0 + (i + j)) by lia.
      by apply repr_live. }
    { done. }
    { intros sblk' dblk' tr' _ _ _. apply Hfin. cbn. lia. }
    intros Hfit.
    assert (Hgrow : (size_ this < sz_mul (size_ this) 2)%N).
    { unfold fits in Hfit.
      rewrite length_inserts, length_insert, length_replicate, length_drop in Hfit.
      unfold arena_cells, arena_bytes in *.
      destruct Hfit as [Hz|Hfit]; lia. }
    apply wp_bind, wp_keeps; [apply keeps_destroy_n| |..].
    + intros _ w1. apply wp_bind, wp_modify, wp_bind, wp_modify, wp_bind, wp_get, wp_ret.
      apply wp_keeps; [apply keeps_RawMemory_dtor| |done|done].
      intros _ w2. unfold not_less, Capacity, swap_data, set_size, RawMemory_Swap in *.
      cbn. lia.
    + intros w1. apply Hfin. cbn. lia.
    + done.
Qed.

Lemma wp_Emplace_place_capacity this w pos args :
  ¬ (size_ this = Capacity this ∧ (0 < size_ this)%N) → (0 < size_ this)%N →
  wp (Emplace pos args) (λ _, not_less this) (not_less this) True this w.
Proof.
  intros Hroom Hpos. unfold Emplace. apply wp_bind, wp_get.
  rewrite decide_False by done. rewrite decide_True by done.
  destruct (distance (cbegin this) pos) as [idx|]; [|done].
  apply wp_bind, wp_keeps; [apply keeps_construct| |by unfold not_less|done].
  intros copy_elem w1. apply wp_scoped.
  assert (Hfin : ∀ (sl : Vector * T) w', (Capacity this ≤ Capacity sl.1)%N →
            wp (destroy_local sl.2) (λ _ s'' w'', not_less this s'' w'') (λ _ _, True)
               True sl.1 w').
  { intros sl w' HP. apply wp_keeps; [apply keeps_destroy_local|done..]. }
  assert (HE : ∀ w', wp (destroy_local (this, copy_elem).2)
                       (λ _ s'' w'', not_less this s'' w'') (λ _ _, True) True
                       (this, copy_elem).1 w').
  { intros w'. apply Hfin. cbn. lia. }
  apply wp_bind, wp_keeps; [apply keeps_RawMemory_plus| |exact HE|done]. intros p w2.
  apply wp_bind, wp_keeps; [apply keeps_RawMemory_index| |exact HE|done]. intros q w3.
  apply wp_bind, wp_keeps; [apply keeps_move_construct_at| |exact HE|done]. intros _ w4.
  apply wp_bind, wp_keeps; [apply keeps_std_move_backward| |exact HE|done]. intros _ w5.
  apply wp_bind, wp_keeps; [apply keeps_RawMemory_index| |exact HE|done]. intros d w6.
  apply wp_bind, wp_keeps; [apply keeps_move_assign_from| |exact HE|done]. intros left_ w7.
  apply wp_bind, wp_modify, wp_bind, wp_get, wp_ret.
  apply wp_keeps; [apply keeps_destroy_local| |done|done].
  intros _ w8. unfold not_less, Capacity, set_size. cbn. lia.
Qed.

Lemma wp_append_capacity grow_at place_at vg vp this w xs :
  repr this w xs → emplaces grow_at vg → emplaces place_at vp →
  wp (append_with grow_at place_at) (λ _, not_less this) (not_less this) True this w.
Proof.
  intros Hrepr Hgrow Hplace.
  destruct (decide (size_ this = Capacity this)) as [Hfull|Hroom].
  - eapply wp_append_grow; [done..| |done|].
    + intros w' _ _. unfold not_less. lia.
    + intros a tr' Ha Hlt. pose proof (arena_cells_le (grown (size_ this))).
      pose proof Hrepr as (Hsz & _). unfold not_less, Capacity in *. cbn. lia.
  - eapply wp_append_place; [done..| |done|].
    + intros w' _ _. unfold not_less. lia.
    + intros. unfold not_less, Capacity, set_size. cbn. lia.
Qed.

Lemma wp_EmplaceBack_capacity args this w xs :
  repr this w xs →
  wp (EmplaceBack args) (λ _, not_less this) (not_less this) True this w.
Proof.
  intros Hrepr. unfold EmplaceBack. apply wp_bind.
  eapply wp_mono; [eapply wp_append_capacity; [done|apply emplaces_placement_new..]
                  | |done|done].
  cbn beta. intros _ this1 w1 Hle. apply wp_bind, wp_get.
  apply wp_keeps; [apply keeps_RawMemory_index|done..].
Qed.

Lemma wp_Emplace_capacity this w xs (i : nat) args :
  repr this w xs → i ≤ N.to_nat (size_ this) →
  wp (Emplace (begin this +ₚ Z.of_nat i) args) (λ _, not_less this) (not_less this) True
     this w.
Proof.
  intros Hrepr Hi. pose proof Hrepr as (Hsz & _).
  destruct (decide (size_ this = Capacity this ∧ (0 < size_ this)%N)) as [[Hfull Hpos]|Hroom].
  { eapply wp_Emplace_grow_capacity; [done..|lia]. }
  destruct (decide (0 < size_ this)%N) as [Hpos|Hzero].
  { by apply wp_Emplace_place_capacity. }
  unfold Emplace. apply wp_bind, wp_get.
  rewrite decide_False by done. rewrite decide_False by done.
  apply wp_bind.
  eapply wp_mono; [by eapply wp_EmplaceBack_capacity| |done|done].
  cbn beta. intros _ this1 w1 Hle. by apply wp_bind, wp_get, wp_ret.
Qed.

Lemma wp_Erase_capacity this w pos :
  wp (Erase pos) (λ _, not_less this) (not_less this) True this w.
Proof.
  unfold Erase. apply wp_bind, wp_get.
  case_decide; [|apply wp_ret; unfold not_less; lia].
  destruct (distance (cbegin this) pos) as [idx|]; [|done].
  assert (HE : ∀ w' : World T, not_less this this w') by (intros; unfold not_less; lia).
  apply wp_bind, wp_keeps; [|intros _ w1|exact HE|done].
  { destruct is_nothrow_move_assignable; [apply keeps_std_move|apply keeps_ret]. }
  apply wp_bind, wp_keeps; [apply keeps_destroy_n|intros _ w2|exact HE|done].
  apply wp_bind, wp_modify, wp_bind, wp_get.
  case_decide; apply wp_ret; unfold not_less, Capacity, set_size; cbn; lia.
Qed.

Lemma wp_Resize_capacity n this w xs :
  repr this w xs →
  wp (Resize n) (λ _, not_less this) (not_less this) True this w.
Proof.
  intros Hrepr. unfold Resize. apply wp_bind, wp_get.
  assert (HE : ∀ w' : World T, not_less this this w') by (intros; unfold not_less; lia).
  case_decide as Hshrink.
  - apply wp_bind, wp_bind, wp_keeps; [apply keeps_destroy_n|intros _ w1|exact HE|done].
    apply wp_modify, wp_bind, wp_get. cbn [set_size size_].
    rewrite decide_False by lia. apply wp_ret. unfold not_less, Capacity. cbn. lia.
  - apply wp_bind, wp_ret, wp_bind, wp_get.
    case_decide as Hgrow; [|by apply wp_ret].
    assert (Hrest : ∀ this1 w1, (Capacity this ≤ Capacity this1)%N →
      wp (this0 ← get;
          uninitialized_value_construct_n
            (GetAddress (data_ this0) +ₚ Z.of_N (size_ this0))
            (Z.of_N (sz_sub n (size_ this0)));;
          modify (set_size n))
         (λ _, not_less this) (not_less this) True this1 w1).
    { intros this1 w1 Hle. apply wp_bind, wp_get, wp_bind, wp_keeps;
        [apply keeps_uninitialized_value_construct_n|intros _ w2|by intros|done].
      apply wp_modify. unfold not_less, Capacity, set_size in *. cbn. lia. }
    apply wp_bind. eapply wp_Reserve; [done| |].
    + intros _. apply Hrest. lia.
    + intros Hlt. split; [by intros|]. split; [done|].
      intros a tr' _ _. apply Hrest. unfold Capacity in *. cbn. lia.
Qed.

Lemma wp_copy_assign_capacity this rhs w xs ys :
  repr this w xs → repr rhs w ys → disjoint this rhs →
  wp (Vector_copy_assign (Some rhs)) (λ _, not_less this) (not_less this) True this w.
Proof.
  intros Hthis Hrhs Hdis.
  eapply wp_mono; [by eapply (wp_copy_assign_copied this rhs w xs ys (not_less this) True);
                     [..|by intros; unfold not_less; lia|]|..]; [|done..].
  cbn beta. intros _ this' w' (Hrepr' & _ & Hsize & _ & _ & Hre & Hkeep).
  unfold not_less, Size in *.
  destruct (decide (Capacity this < size_ rhs)%N) as [Hlt|Hge].
  - destruct (Hre Hlt) as (-> & _). lia.
  - destruct (Hkeep ltac:(lia)) as (Hdata & _). unfold Capacity. rewrite Hdata. lia.
Qed.

Lemma wp_run_call_capacity this w xs c :
  repr this w xs → within_contract this w c →
  wp (run_call c) (λ _, not_less this) (not_less this) True this w.
Proof.
  intros Hrepr Hc.
  assert (Hret : ∀ A (m : M T Vector A),
            wp m (λ _, not_less this) (not_less this) True this w →
            wp (m;; mret tt) (λ _, not_less this) (not_less this) True this w).
  { intros A m Hm. apply wp_bind. eapply wp_mono; [exact Hm| |done|done].
    by intros. }
  destruct c as [n|n|v|v|args| |pos args|pos v|pos v|pos|[rhs|]|i]; cbn [run_call].
  - eapply wp_Reserve; [done| |].
    + intros _. unfold not_less. lia.
    + intros Hlt. split; [intros; unfold not_less; lia|]. split; [done|].
      intros. unfold not_less, Capacity in *. cbn. lia.
  - by eapply wp_Resize_capacity.
  - eapply wp_append_capacity; [done|apply emplaces_braced|apply emplaces_placement_new].
  - eapply wp_append_capacity; [done|apply emplaces_placement_new..].
  - apply Hret. by eapply wp_EmplaceBack_capacity.
  - eapply wp_PopBack; [done| |].
    + intros _. unfold not_less. lia.
    + intros. unfold not_less, Capacity, set_size. cbn. lia.
  - destruct Hc as (i & Hi & ->). apply Hret. by eapply wp_Emplace_capacity.
  - destruct Hc as (i & Hi & ->). apply Hret. by eapply wp_Emplace_capacity.
  - destruct Hc as (i & Hi & ->). apply Hret. by eapply wp_Emplace_capacity.
  - apply Hret. apply wp_Erase_capacity.
  - destruct Hc as (ys & Hrhs & Hdis). by eapply wp_copy_assign_capacity.
  - apply wp_ret. unfold not_less. lia.
  - apply Hret. unfold Vector_index. apply wp_bind, wp_get.
    case_decide; [|done].
    apply wp_keeps; [apply keeps_RawMemory_index|by intros; unfold not_less; lia..|done].
Qed.
End capacity.

(** * Sequences of [PushBack] and [PopBack] *)

Section sequences.
Context {T : Type} `{!Element T}.
Implicit Types (w : World T) (this : Vector) (xs : list T) (ops : list (stack_op T)).

Lemma bind_Ok_inv {St A B} (m : M T St A) (k : A → M T St B) s w b s' w' :
  (m ≫= k) s w = (Ok b, s', w') →
  ∃ a s1 w1, m s w = (Ok a, s1, w1) ∧ k a s1 w1 = (Ok b, s', w').
Proof.
  unfold mbind, M_bind, bind. destruct (m s w) as [[[a| |] s1] w1]; [eauto|done..].
Qed.

Lemma wp_append_repr grow_at place_at v this w xs :
  repr this w xs → emplaces grow_at v → emplaces place_at v →
  wp (append_with grow_at place_at) (λ _ this' w', repr this' w' (xs ++ [v]))
     (λ _ _, True) True this w.
Proof.
  intros Hrepr Hgrow Hplace.
  destruct (decide (size_ this = Capacity this)) as [Hfull|Hroom].
  - eapply wp_mono; [by apply (wp_append_grew grow_at place_at v this w xs (λ _ _, True) True)
                    | |done|done].
    by intros _ this' w' (_ & _ & ? & _).
  - eapply wp_append_place; [done..| |done|]; [done|].
    intros b k tr' Hbuf Hb. pose proof Hrepr as (Hsz & Hcap & _).
    destruct this as [[buf cap] sz]. unfold Capacity in *. cbn in *. subst buf.
    eapply repr_block'; cbn [heap]; [apply lookup_insert_eq|..].
    + rewrite sz_add_small by lia. rewrite length_app. cbn. lia.
    + rewrite sz_add_small by lia. lia.
Qed.

Lemma wp_run_op op this w xs :
  repr this w xs →
  wp (run_op op) (λ _ this' w', repr this' w' (model_op xs op)) (λ _ _, True) True this w.
Proof.
  intros Hrepr. destruct op as [v|v|]; cbn [run_op model_op].
  - apply wp_append_repr; [done|apply emplaces_braced|apply emplaces_placement_new].
  - apply (wp_append_repr _ _ (ctor_value (MoveCtor v)));
      [done|apply emplaces_placement_new..].
  - eapply wp_PopBack; [done| |].
    + by intros ->.
    + intros b k ys y -> Hbuf Hb. rewrite removelast_last.
      pose proof Hrepr as (Hsz & Hcap & _).
      destruct this as [[buf cap] sz]. cbn [data_ size_ buffer_ capacity_ set_size] in *.
      subst buf.
      apply (repr_block' b (S k)); cbn [heap]; [apply lookup_insert_eq|done|].
      rewrite length_app in Hsz. cbn in Hsz. lia.
Qed.

Lemma run_ops_repr ops this w xs this' w' :
  repr this w xs → run_ops ops this w = (Ok tt, this', w') →
  repr this' w' (fold_left model_op ops xs).
Proof.
  revert this w xs. induction ops as [|op ops IH]; intros this w xs Hrepr Hrun.
  - cbn in Hrun. by injection Hrun as <- <-.
  - cbn [run_ops] in Hrun. apply bind_Ok_inv in Hrun as ([] & this1 & w1 & Hop & Hrest).
    cbn [fold_left]. eapply IH; [|exact Hrest].
    revert Hop. eapply (wp_Ok _ (λ _ this' w', repr this' w' (model_op xs op))
                              (λ _ _, True) True).
    by apply wp_run_op.
Qed.

Lemma model_length ops xs :
  no_pop_on_empty (length xs) ops = true →
  length (fold_left model_op ops xs) + pops ops = length xs + pushes ops.
Proof.
  revert xs. induction ops as [|op ops IH]; intros xs Hok; [cbn; lia|].
  unfold pushes, pops in *.
  destruct op as [v|v|];
    cbn [fold_left model_op List.filter is_push negb length no_pop_on_empty] in *.
  - pose proof (IH (xs ++ [v])) as H. rewrite length_app in H. cbn [length] in H.
    rewrite Nat.add_1_r in H. specialize (H Hok). lia.
  - pose proof (IH (xs ++ [v])) as H. rewrite length_app in H. cbn [length] in H.
    rewrite Nat.add_1_r in H. specialize (H Hok). lia.
  - destruct (decide (xs = [])) as [->|Hne]; [done|].
    destruct (exists_last Hne) as (ys & y & ->). rewrite removelast_last.
    rewrite length_app in *. cbn [length] in *. rewrite Nat.add_1_r in Hok.
    specialize (IH ys Hok). lia.
Qed.

End sequences.

(** * Capacity and [Erase], the statements *)

Section final.
Context {T : Type} `{!Element T}.
Implicit Types (w : World T) (this rhs : Vector) (xs ys : list T).

(** Claim C9, amended.  The capacity of the vector a member function is
    called on does not go down, whichever function it is and whether the
    call returns or throws, and neither does the capacity of the destination
    of a move assignment. *)
Theorem capacity_never_decreases_for_the_object this w xs :
  repr this w xs →
  (∀ c this' w',
     within_contract this w c →
     run_call c this w = (Ok tt, this', w') ∨ run_call c this w = (Throw, this', w') →
     (Capacity this ≤ Capacity this')%N) ∧
  (∀ rhs ys r this' (rhs' : option Vector) w',
     repr rhs w ys → disjoint this rhs →
     Vector_move_assign (this, Some rhs) w = (r, (this', rhs'), w') →
     (Capacity this ≤ Capacity this')%N).
Proof.
  intros Hrepr. split.
  - intros c this' w' Hc Hrun.
    pose proof (wp_run_call_capacity this w xs c Hrepr Hc) as Hwp.
    unfold wp in Hwp. by destruct Hrun as [Hrun|Hrun]; rewrite Hrun in Hwp.
  - intros rhs ys r this' rhs' w' Hrhs Hdis Hrun.
    destruct (decide (Capacity this < Size rhs)%N) as [Hlt|Hge].
    + rewrite (move_assign_steal this rhs w xs Hrepr Hlt) in Hrun.
      injection Hrun as <- <- <- <-. destruct Hrhs as (_ & Hcap & _).
      unfold Capacity, Size in *. lia.
    + rewrite (move_assign_keep this rhs w) in Hrun by lia.
      by injection Hrun as <- <- <- <-.
Qed.

(** Property X21.  For an element type whose move assignment cannot
    throw, [Erase] at the position of the [i]-th element returns, removes
    that element, moves the later ones one place to the front, destroys the
    object left in the last place, takes one off the size and returns the
    same position, which is [end()] when the last element was erased. *)
Theorem Erase_removes_when_move_assignment_cannot_throw this w xs (i : nat) x :
  is_nothrow_move_assignable = true → repr this w xs → xs !! i = Some x →
  ∃ this' w',
    Erase (begin this +ₚ Z.of_nat i) this w = (Ok (begin this +ₚ Z.of_nat i), this', w') ∧
    repr this' w' (delete i xs) ∧
    elements this' w' = Some (delete i xs) ∧
    Size this' = (Size this - 1)%N ∧
    data_ this' = data_ this ∧
    trace w' = EvDtor (shift_residue x (drop (S i) xs))
                 :: shift_events x (drop (S i) xs) ++ trace w ∧
    (S i = length xs → begin this +ₚ Z.of_nat i = end_ this').
Proof.
  intros Hnt Hrepr Hx.
  destruct (Erase_nothrow this w xs i x Hnt Hrepr Hx) as (w' & Hrun & Hrepr' & Htrace).
  exists (set_size (N.of_nat (length xs - 1)) this), w'.
  pose proof Hrepr as (Hsz & _). apply lookup_lt_Some in Hx as Hi.
  split; [done|]. split; [done|]. split; [by apply repr_elements|].
  split; [unfold Size; cbn; lia|]. split; [done|]. split; [done|].
  intros Hlast. unfold end_, begin, ptr_add, GetAddress. cbn. f_equal. f_equal. lia.
Qed.
End final.

Section sequences_return.
Context {T : Type} `{!Element T}.
Implicit Types (w : World T) (this : Vector) (xs : list T) (ops : list (stack_op T)).

Lemma sized_block b cap size (blk : list (cell T)) h tr :
  (cap * Npos sizeof < size_max)%N → length blk = N.to_nat cap →
  sized (MkVector (MkRawMemory (Ptr (Some b) 0) cap) size) (MkWorld (<[b := blk]> h) tr).
Proof.
  intros Hcap Hlen. split; [done|]. unfold block_at. cbn.
  by rewrite lookup_insert_eq.
Qed.

Lemma sized_inv this w b (blk : list (cell T)) :
  sized this w → buffer_ (data_ this) = Ptr (Some b) 0 → heap w !! b = Some blk →
  length blk = N.to_nat (capacity_ (data_ this)).
Proof.
  intros (_ & Hblk) Hbuf Hb. unfold block_at in Hblk. rewrite Hbuf in Hblk.
  cbn in Hblk. by rewrite Hb in Hblk.
Qed.

Lemma wp_append_sized grow_at place_at v this w xs :
  never_throws → repr this w xs → sized this w →
  ((2 * N.of_nat (length xs) + 1) * Npos sizeof < size_max)%N →
  emplaces grow_at v → emplaces place_at v →
  wp (append_with grow_at place_at)
     (λ _ this' w', repr this' w' (xs ++ [v]) ∧ sized this' w')
     (λ _ _, False) False this w.
Proof.
  intros Hnt Hrepr Hsized Hroom Hgrow Hplace.
  pose proof Hrepr as (Hsz & Hcap & _).
  assert (2 * N.of_nat (length xs) + 1 ≤
          (2 * N.of_nat (length xs) + 1) * N.pos sizeof)%N as Hpos by nia.
  assert (2 * size_ this + 1 < size_max)%N as Hlin by lia.
  destruct (decide (size_ this = Capacity this)) as [Hfull|Hnfull].
  - assert (room_to_double this) as Hdouble.
    { unfold room_to_double. rewrite <-Hfull, Hsz. done. }
    pose proof (room_cells this xs w Hrepr Hfull Hdouble) as Hcells.
    assert (Hg : grown (size_ this) =
                 (if decide (size_ this = 0%N) then 1 else 2 * size_ this)%N).
    { unfold grown. case_decide; [done|]. unfold sz_mul. rewrite wrap_small; [lia|].
      unfold size_max in *. nia. }
    assert (Hgs : (grown (size_ this) * Npos sizeof < size_max)%N).
    { rewrite Hg. case_decide; nia. }
    eapply wp_append_grow; [done|done|done| | |].
    + intros w' Hthrow _. by apply Hthrow.
    + intros Hbad. by apply Hbad.
    + intros a tr' Ha Hlt. split.
      * eapply repr_block'; cbn [heap].
        -- apply lookup_insert_eq.
        -- rewrite sz_add_small by lia. rewrite length_app. cbn. lia.
        -- rewrite sz_add_small by lia. rewrite Hg. case_decide; lia.
      * apply sized_block; [done|].
        rewrite length_app, length_fmap, length_app, length_replicate. cbn [length].
        rewrite arena_cells_exact in * by done. lia.
  - pose proof Hsized as (Hbytes & _).
    eapply wp_append_place; [done|done|done| | |].
    + intros w' Hthrow _. by apply Hthrow.
    + intros b Hbuf Hb. pose proof (sized_inv _ _ _ _ Hsized Hbuf Hb) as Hblk.
      rewrite length_fmap in Hblk. unfold Capacity in Hnfull. lia.
    + intros b k tr' Hbuf Hb. pose proof (sized_inv _ _ _ _ Hsized Hbuf Hb) as Hblk.
      rewrite length_app, length_fmap, length_replicate in Hblk. clear Hsized.
      destruct this as [[buf cap] sz]. unfold Capacity in *. cbn in *. subst buf.
      split.
      * eapply repr_block'; cbn [heap]; [apply lookup_insert_eq|..].
        -- rewrite sz_add_small by lia. rewrite length_app. cbn. lia.
        -- rewrite sz_add_small by lia. lia.
      * apply sized_block; [done|].
        rewrite length_app, length_fmap, length_app, length_replicate. cbn [length]. lia.
Qed.

Lemma wp_run_op_sized op this w xs :
  never_throws → repr this w xs → sized this w →
  ((2 * N.of_nat (length xs) + 1) * Npos sizeof < size_max)%N →
  wp (run_op op) (λ _ this' w', repr this' w' (model_op xs op) ∧ sized this' w')
     (λ _ _, False) False this w.
Proof.
  intros Hnt Hrepr Hsized Hroom. destruct op as [v|v|]; cbn [run_op model_op].
  - apply wp_append_sized; [done..|apply emplaces_braced|apply emplaces_placement_new].
  - apply (wp_append_sized _ _ (ctor_value (MoveCtor v)));
      [done..|apply emplaces_placement_new|apply emplaces_placement_new].
  - eapply wp_PopBack; [done| |].
    + by intros ->.
    + intros b k ys y -> Hbuf Hb. rewrite removelast_last.
      pose proof Hrepr as (Hsz & Hcap & _). pose proof Hsized as (Hbytes & _).
      pose proof (sized_inv _ _ _ _ Hsized Hbuf Hb) as Hblk.
      rewrite length_app, length_fmap, length_app, length_replicate in Hblk.
      cbn [length] in Hblk. clear Hsized.
      destruct this as [[buf cap] sz]. cbn [data_ size_ buffer_ capacity_ set_size] in *.
      subst buf. split.
      * apply (repr_block' b (S k)); cbn [heap]; [apply lookup_insert_eq|done|].
        rewrite length_app in Hsz. cbn in Hsz. lia.
      * apply sized_block; [done|].
        rewrite length_app, length_fmap, length_replicate. lia.
Qed.

Lemma model_op_length xs op : length (model_op xs op) ≤ S (length xs).
Proof.
  destruct op as [v|v|]; cbn [model_op]; rewrite ?length_app; cbn [length]; [lia..|].
  destruct (decide (xs = [])) as [->|Hne]; [cbn; lia|].
  destruct (exists_last Hne) as (ys & y & ->). rewrite removelast_last, length_app. lia.
Qed.

Lemma wp_run_ops ops this w xs :
  never_throws → repr this w xs → sized this w →
  ((2 * N.of_nat (length xs + length ops) + 1) * Npos sizeof < size_max)%N →
  wp (run_ops ops) (λ _ _ _, True) (λ _ _, False) False this w.
Proof.
  intros Hnt. revert this w xs.
  induction ops as [|op ops IH]; intros this w xs Hrepr Hsized Hroom; [done|].
  cbn [run_ops length] in *. apply wp_bind.
  eapply wp_mono; [apply (wp_run_op_sized op this w xs)| |done|done]; [done..|nia|].
  cbn beta. intros _ this1 w1 (Hrepr1 & Hsized1).
  apply (IH this1 w1 (model_op xs op)); [done..|].
  pose proof (model_op_length xs op). nia.
Qed.

Lemma sized_null w : sized (Element0 := Element0) Vector_default w.
Proof. split; [done|]. by cbn. Qed.
(** Claim C8, amended.  After a sequence of [PushBack] and [PopBack] on an
    empty vector the elements are the pushed values in order without the
    popped ones, where a [PopBack] on an empty vector removes nothing; the
    size is the number of pushes minus the number of pops when no [PopBack]
    found the vector empty.  The sequence runs to its end when nothing throws
    and twice its length fits [size_t]. *)
Theorem push_pop_sequence ops w :
  (∀ this' w', run_ops ops Vector_default w = (Ok tt, this', w') →
     repr this' w' (model ops) ∧
     elements this' w' = Some (model ops) ∧
     Size this' = N.of_nat (length (model ops)) ∧
     (no_pop_on_empty 0 ops = true →
        Z.of_N (Size this') = (Z.of_nat (pushes ops) - Z.of_nat (pops ops))%Z)) ∧
  (never_throws →
   ((2 * N.of_nat (length ops) + 1) * Npos sizeof < size_max)%N →
   ∃ this' w', run_ops ops Vector_default w = (Ok tt, this', w')).
Proof.
  split.
  - intros this' w' Hrun.
    assert (Hrepr : repr this' w' (model ops)).
    { eapply run_ops_repr; [apply repr_null|exact Hrun]. }
    split; [done|]. split; [by apply repr_elements|].
    pose proof Hrepr as (Hsz & _). split; [done|].
    intros Hok. pose proof (model_length ops [] Hok) as Hlen. unfold model, Size.
    cbn in Hlen. unfold model in Hsz. lia.
  - intros Hnt Hroom.
    destruct (wp_returns (run_ops ops) Vector_default w) as ([] & ?); [|done].
    apply (wp_run_ops ops Vector_default w []);
      [done|apply repr_null|apply sized_null|done].
Qed.
End sequences_return.

(** * Examples *)

Lemma repr_two : repr two store [5; 6]%Z.
Proof. split; [done|]. split; [done|]. vm_compute. reflexivity. Defined.

Lemma repr_three : repr three store [1; 2; 3]%Z.
Proof. split; [done|]. split; [done|]. vm_compute. reflexivity. Defined.

Lemma disjoint_two_three : disjoint two three.
Proof. right. discriminate. Defined.

Lemma probe_never_throws nm na : never_throws (Element0 := probe nm na None).
Proof.
  split; [|split; [|split]]; try done.
  - intros c tr. cbn. destruct c; by rewrite andb_false_r.
  - intros d v tr. cbn. by rewrite andb_false_r.
Defined.



(** The second copy of the migration [Reserve(4)] starts on [[5; 6]] is the
    one which throws. *)
Lemma copy_throws_two :
  copy_throws (Element0 := probe false true (Some 1)) [5; 6]%Z
    (EvNew (arena_bytes (Element0 := probe false true (Some 1)) 4) :: trace store).
Proof. split; [reflexivity|]. exists 1, 6%Z. split; reflexivity. Defined.

(** In [PushBack(7)] on [[5; 6]] the first copy is the one of the new
    element, and the second, the first of the migration, throws. *)
Lemma copy_throws_two_PushBack :
  copy_throws (Element0 := probe false true (Some 1)) [5; 6]%Z
    (EvCtor (CopyCtor 7%Z) ::
     EvNew (arena_bytes (Element0 := probe false true (Some 1)) (grown (Size two))) ::
     trace store).
Proof. split; [reflexivity|]. exists 0, 5%Z. split; reflexivity. Defined.

(** The copy constructor throws on its second call: [Reserve(4)] and
    [PushBack(7)] on the full vector [[5; 6]] fail and leave it alone. *)
Lemma growth_failure_leaves_vector_unchanged_witness :
  is_copy_constructible (Element := probe false true (Some 1)) = true ∧
  repr two store [5; 6]%Z ∧
  (let r := Reserve (Element0 := probe false true (Some 1)) 4 two store in
   r.1.1 = Throw ∧ untouched two store [5; 6]%Z r.1.2 r.2) ∧
  (let r := PushBack (Element0 := probe false true (Some 1)) 7%Z two store in
   r.1.1 = Throw ∧ untouched two store [5; 6]%Z r.1.2 r.2) ∧
  (∃ w', Reserve (Element0 := probe false true (Some 1)) 4 two store = (Throw, two, w')) ∧
  (∃ w', PushBack (Element0 := probe false true (Some 1)) 7%Z two store =
           (Throw, two, w')).
Proof.
  split; [reflexivity|]. split; [exact repr_two|].
  destruct (growth_failure_leaves_vector_unchanged
              (Element0 := probe false true (Some 1)) two store [5; 6]%Z
              eq_refl repr_two) as (HReserve & HPushBack & _ & _ & Hthrows & Happend).
  split; [|split; [|split]].
  - intros r. split; [vm_compute; reflexivity|].
    apply (HReserve 4%N r.1.2 r.2). vm_compute. reflexivity.
  - intros r. split; [vm_compute; reflexivity|].
    apply (HPushBack 7%Z r.1.2 r.2). vm_compute. reflexivity.
  - exact (Hthrows 4%N eq_refl eq_refl copy_throws_two).
  - destruct (Happend eq_refl eq_refl) as (Hpush & _).
    exact (Hpush 7%Z copy_throws_two_PushBack).
Defined.

(** [[5; 6]] of capacity two is move-assigned [[1; 2; 3]]. *)
Lemma move_assign_steals_or_does_nothing_witness :
  repr two store [5; 6]%Z ∧ repr three store [1; 2; 3]%Z ∧ disjoint two three ∧
  ∃ w', Vector_move_assign (two, Some three) store =
          (Ok tt, (three, Some Vector_default), w') ∧
        elements three w' = Some [1; 2; 3]%Z ∧
        block_at (buffer_ (data_ two)) w' = None.
Proof.
  split; [exact repr_two|]. split; [exact repr_three|]. split; [exact disjoint_two_three|].
  destruct (move_assign_steals_or_does_nothing
              two three store [5; 6]%Z [1; 2; 3]%Z repr_two repr_three disjoint_two_three)
    as (this' & rhs' & w' & Hrun & Hsteal & _).
  destruct (Hsteal eq_refl) as (-> & -> & _ & Hel & _ & Hheap & _).
  exists w'. split; [exact Hrun|]. split; [exact Hel|].
  unfold block_at. rewrite Hheap. reflexivity.
Defined.

(** A vector is move-constructed from [[5; 6]]. *)
Lemma move_ctor_steals_storage_witness :
  repr two store [5; 6]%Z ∧
  (Vector_move_ctor two).1 = two ∧
  elements (Vector_move_ctor two).1 store = Some [5; 6]%Z ∧
  Size (Vector_move_ctor two).2 = 0%N ∧
  repr (Vector_move_ctor two).2 store [].
Proof.
  split; [exact repr_two|].
  destruct (move_ctor_steals_storage two store)
    as (Hrun & _ & _ & _ & _ & Hsize & _ & _ & Hrepr).
  destruct (Hrepr [5; 6]%Z repr_two) as (_ & Hel & Hempty).
  split; [by rewrite Hrun|]. split; [exact Hel|]. split; [exact Hsize|exact Hempty].
Defined.

(** [Erase(begin())] on [[1; 2; 3]]. *)
Lemma Erase_removes_when_move_assignment_cannot_throw_witness :
  is_nothrow_move_assignable (Element := probe true true None) = true ∧
  repr three store [1; 2; 3]%Z ∧ [1; 2; 3]%Z !! 0 = Some 1%Z ∧
  ∃ this' w',
    Erase (Element0 := probe true true None) (begin three +ₚ 0) three store =
      (Ok (begin three +ₚ 0), this', w') ∧
    elements this' w' = Some [2; 3]%Z ∧ Size this' = 2%N.
Proof.
  split; [reflexivity|]. split; [exact repr_three|]. split; [reflexivity|].
  destruct (Erase_removes_when_move_assignment_cannot_throw
              (Element0 := probe true true None) three store [1; 2; 3]%Z 0 1%Z
              eq_refl repr_three eq_refl)
    as (this' & w' & Hrun & _ & Hel & Hsize & _).
  exists this', w'. split; [exact Hrun|]. split; [exact Hel|exact Hsize].
Defined.

(** [PushBack(7)] on the full vector [[5; 6]]. *)
Lemma append_at_capacity_doubles_witness :
  repr two store [5; 6]%Z ∧ Size two = Capacity two ∧
  let r := PushBack (Element0 := probe true true None) 7%Z two store in
  r.1.1 = Ok tt ∧ Capacity r.1.2 = 4%N ∧ Size r.1.2 = 3%N ∧
  elements r.1.2 r.2 = Some [5; 6; 7]%Z.
Proof.
  split; [exact repr_two|]. split; [reflexivity|]. intros r.
  assert (Hrun : PushBack (Element0 := probe true true None) 7%Z two store =
                 (Ok tt, r.1.2, r.2)) by (vm_compute; reflexivity).
  destruct (append_at_capacity_doubles (Element0 := probe true true None)
              two store [5; 6]%Z repr_two eq_refl) as (HPushBack & _).
  destruct (HPushBack 7%Z r.1.2 r.2 Hrun) as (Hcap & Hsize & _ & Hel & _).
  split; [vm_compute; reflexivity|]. split; [exact Hcap|]. split; [exact Hsize|exact Hel].
Defined.

(** [[5; 6]] of capacity two is copy-assigned [[1; 2; 3]]. *)
Lemma copy_assign_makes_equal_witness :
  repr two store [5; 6]%Z ∧ repr three store [1; 2; 3]%Z ∧ disjoint two three ∧
  let r := Vector_copy_assign (Element0 := probe true true None) (Some three) two store in
  r.1.1 = Ok tt ∧ elements r.1.2 r.2 = Some [1; 2; 3]%Z ∧
  elements three r.2 = Some [1; 2; 3]%Z ∧ Size r.1.2 = Size three.
Proof.
  split; [exact repr_two|]. split; [exact repr_three|]. split; [exact disjoint_two_three|].
  intros r.
  assert (Hrun : Vector_copy_assign (Element0 := probe true true None) (Some three)
                   two store = (Ok tt, r.1.2, r.2)) by (vm_compute; reflexivity).
  destruct (copy_assign_makes_equal (Element0 := probe true true None)
              two three store [5; 6]%Z [1; 2; 3]%Z repr_two repr_three disjoint_two_three)
    as (Hok & _).
  destruct (Hok r.1.2 r.2 Hrun) as (_ & _ & Hsize & Hel & Hel' & _).
  split; [vm_compute; reflexivity|]. split; [exact Hel|]. split; [exact Hel'|exact Hsize].
Defined.

Lemma within_contract_Insert_end :
  within_contract three store (CallInsert (end_ three) 9%Z).
Proof. exists 3. split; [cbn; lia|reflexivity]. Defined.

(** [PushBack(7)] on the full vector [[5; 6]], and [Insert(end(), 9)] on
    [[1; 2; 3]] of capacity four. *)
Lemma capacity_never_decreases_for_the_object_witness :
  repr two store [5; 6]%Z ∧ within_contract two store (CallPushBack 7%Z) ∧
  repr three store [1; 2; 3]%Z ∧
  within_contract three store (CallInsert (end_ three) 9%Z) ∧
  (let r := run_call (Element0 := probe true true None) (CallPushBack 7%Z) two store in
   r.1.1 = Ok tt ∧ (Capacity two ≤ Capacity r.1.2)%N) ∧
  (let r := run_call (Element0 := probe true true None)
              (CallInsert (end_ three) 9%Z) three store in
   r.1.1 = Ok tt ∧ (Capacity three ≤ Capacity r.1.2)%N).
Proof.
  split; [exact repr_two|]. split; [exact I|]. split; [exact repr_three|].
  split; [exact within_contract_Insert_end|].
  destruct (capacity_never_decreases_for_the_object (Element0 := probe true true None)
              two store [5; 6]%Z repr_two) as (Hcall & _).
  destruct (capacity_never_decreases_for_the_object (Element0 := probe true true None)
              three store [1; 2; 3]%Z repr_three) as (Hcall' & _).
  split.
  - intros r.
    assert (Hrun : run_call (Element0 := probe true true None) (CallPushBack 7%Z)
                     two store = (Ok tt, r.1.2, r.2)) by (vm_compute; reflexivity).
    split; [vm_compute; reflexivity|].
    exact (Hcall (CallPushBack 7%Z) r.1.2 r.2 I (or_introl Hrun)).
  - intros r.
    assert (Hrun : run_call (Element0 := probe true true None)
                     (CallInsert (end_ three) 9%Z) three store = (Ok tt, r.1.2, r.2))
      by (vm_compute; reflexivity).
    split; [vm_compute; reflexivity|].
    exact (Hcall' (CallInsert (end_ three) 9%Z) r.1.2 r.2
             within_contract_Insert_end (or_introl Hrun)).
Defined.

(** [Erase] on the empty vector, with a position into some other block. *)
Lemma Erase_on_empty_is_noop_witness :
  Size Vector_default = 0%N ∧
  Erase (Element0 := probe true true None) (Ptr (Some 2%positive) 1) Vector_default store =
    (Ok (end_ Vector_default), Vector_default, store).
Proof.
  split; [reflexivity|].
  exact (Erase_on_empty_is_noop (Element0 := probe true true None)
           Vector_default store (Ptr (Some 2%positive) 1) eq_refl).
Defined.

(** Claim C3, at the input where the code departs from it.  For an
    element type whose move assignment may throw, [Erase(begin())] on
    [[1; 2; 3]] returns [begin()] and leaves [[1; 2]]: the shift is skipped
    and the last element is the one destroyed, where the claim has
    [[2; 3]].  The same call for an element type whose move assignment
    cannot throw leaves [[2; 3]]. *)
Theorem Erase_without_shift_at_failing_input :
  let r := Erase (Element0 := probe true false None) (begin three) three store in
  r.1.1 = Ok (begin three) ∧ Size r.1.2 = 2%N ∧
  elements r.1.2 r.2 = Some [1; 2]%Z ∧
  elements r.1.2 r.2 ≠ Some (delete 0 [1; 2; 3]%Z) ∧
  trace r.2 = [EvDtor 3%Z] ∧
  (Erase (Element0 := probe true true None) (begin three) three store).1.1 =
    Ok (begin three) ∧
  elements (Erase (Element0 := probe true true None) (begin three) three store).1.2
           (Erase (Element0 := probe true true None) (begin three) three store).2 =
    Some (delete 0 [1; 2; 3]%Z).
Proof.
  intros r. split; [vm_compute; reflexivity|]. split; [vm_compute; reflexivity|].
  split; [vm_compute; reflexivity|]. split; [vm_compute; discriminate|].
  split; [vm_compute; reflexivity|]. split; vm_compute; reflexivity.
Qed.

(** The source of a move construction and the source of a move assignment
    which steals are left with capacity zero, and [Swap] with a smaller
    vector leaves the smaller capacity. *)
Lemma moved_from_vector_loses_capacity_counterexample :
  ¬ (∀ (A : Vector) (w : World Z) (xs : list Z),
       repr A w xs → (Capacity A ≤ Capacity (Vector_move_ctor A).2)%N) ∧
  ¬ (∀ (A B B' : Vector) (rhs' : option Vector) (w w' : World Z) (xs ys : list Z),
       repr A w xs → repr B w ys → disjoint B A →
       Vector_move_assign (B, Some A) w = (Ok tt, (B', rhs'), w') →
       ∃ A', rhs' = Some A' ∧ (Capacity A ≤ Capacity A')%N) ∧
  ¬ (∀ (A B : Vector) (w : World Z) (xs ys : list Z),
       repr A w xs → repr B w ys →
       (Capacity A ≤ Capacity (Vector_Swap (A, B)).1)%N).
Proof.
  split; [|split].
  - intros Hclaim. pose proof (Hclaim two store [5; 6]%Z repr_two) as Hle.
    vm_compute in Hle. by apply Hle.
  - intros Hclaim.
    destruct (Hclaim three two three (Some Vector_default) store
                (MkWorld (release (data_ two) (heap store))
                   (delete_events (data_ two) ++ (EvDtor <$> reverse [5; 6]%Z) ++
                    trace store))
                [1; 2; 3]%Z [5; 6]%Z repr_three repr_two disjoint_two_three
                (move_assign_steal two three store [5; 6]%Z repr_two eq_refl))
      as (A' & [= <-] & Hle).
    vm_compute in Hle. by apply Hle.
  - intros Hclaim.
    pose proof (Hclaim three two store [1; 2; 3]%Z [5; 6]%Z repr_three repr_two) as Hle.
    vm_compute in Hle. by apply Hle.
Qed.

(** [PushBack(1); PushBack(2); PopBack(); PushBack(3)]. *)
Lemma push_pop_sequence_witness :
  let ops := [OpPushBack 1%Z; OpPushBack 2%Z; OpPopBack; OpPushBackMove 3%Z] in
  let r := run_ops (Element0 := probe true true None) ops Vector_default (MkWorld ∅ []) in
  r.1.1 = Ok tt ∧ elements r.1.2 r.2 = Some [1; 3]%Z ∧ Size r.1.2 = 2%N ∧
  Z.of_N (Size r.1.2) = (Z.of_nat (pushes ops) - Z.of_nat (pops ops))%Z.
Proof.
  intros ops r.
  assert (Hrun : run_ops (Element0 := probe true true None) ops Vector_default
                   (MkWorld ∅ []) = (Ok tt, r.1.2, r.2)) by (vm_compute; reflexivity).
  destruct (push_pop_sequence (Element0 := probe true true None) ops (MkWorld ∅ []))
    as (Hok & _).
  destruct (Hok r.1.2 r.2 Hrun) as (_ & Hel & Hsize & Hcount).
  split; [vm_compute; reflexivity|]. split; [exact Hel|]. split; [exact Hsize|].
  exact (Hcount eq_refl).
Defined.

(** [PopBack(); PushBack(7)] on the empty vector: one push, one pop, and
    the size is one. *)
Lemma pop_on_empty_counterexample :
  ¬ (∀ (T : Type) (E : Element T) (ops : list (stack_op T)) (w : World T) this' w',
       run_ops ops Vector_default w = (Ok tt, this', w') →
       Z.of_N (Size this') = (Z.of_nat (pushes ops) - Z.of_nat (pops ops))%Z).
Proof.
  intros Hclaim.
  pose proof (Hclaim Z (probe true true None) [OpPopBack; OpPushBack 7%Z] (MkWorld ∅ [])
                _ _ eq_refl) as Hsize.
  vm_compute in Hsize. discriminate.
Qed.

(** * The rest of the interface

    ** Destructor and copy constructor, the statements *)

Section lifetime.
Context {T : Type} `{!Element T} {St : Type}.
Implicit Types (w : World T) (s : St) (v other : Vector) (xs ys : list T).

Lemma wp_outcome {A} (m : M T St A) (Q : A → St → World T → Prop) E (U : Prop) s w :
  wp m Q E U s w →
  match (m s w).1.1 with
  | Ok a => Q a (m s w).1.2 (m s w).2
  | Throw => E (m s w).1.2 (m s w).2
  | Undefined => U
  end.
Proof. unfold wp. by destruct (m s w) as [[[a| |] s'] w']. Qed.

Lemma release_fresh a (blk : list (cell T)) cap (h : gmap addr (list (cell T))) :
  h !! a = None → release (MkRawMemory (Ptr (Some a) 0) cap) (<[a := blk]> h) = h.
Proof. intros Ha. unfold release. cbn. by rewrite delete_insert_id. Qed.

(** Property X1.  The destructor of a vector which holds [xs] returns: it has
    destroyed the elements in index order and released the block, which is
    no longer in the free store, and no other block has changed. *)
Theorem Vector_dtor_destroys_and_releases v w xs s :
  repr v w xs →
  ∃ w', Vector_dtor v s w = (Ok tt, s, w') ∧
        heap w' = release (data_ v) (heap w) ∧
        trace w' = delete_events (data_ v) ++ (EvDtor <$> reverse xs) ++ trace w ∧
        (buffer_ (data_ v) ≠ nullptr → block_at (buffer_ (data_ v)) w' = None) ∧
        (∀ b, p_base (buffer_ (data_ v)) ≠ Some b → heap w' !! b = heap w !! b).
Proof.
  intros Hrepr. eexists. split; [apply wp_run; by eapply wp_Vector_dtor|].
  cbn [heap trace]. split; [done|]. split; [done|].
  apply repr_inv in Hrepr as (_ & _ & Hblk). unfold release, block_at.
  destruct Hblk as [(Hbuf & _)|(b & k & Hbuf & Hb)]; rewrite Hbuf; cbn.
  - done.
  - split; [intros _; apply lookup_delete_eq|].
    intros b' Hne. apply lookup_delete_ne. congruence.
Qed.

(** Property X2.  A copy construction which returns has made a vector with the
    elements of the source in a fresh block; its size and its capacity are
    the size of the source, the source is as it was, and the copy of an empty
    vector is the default vector and leaves the world alone.  The copy
    constructor returns when nothing throws and the elements fit [size_t]. *)
Theorem Vector_copy_ctor_copies other w ys s :
  repr other w ys →
  (∀ v s' w', Vector_copy_ctor other s w = (Ok v, s', w') →
     s' = s ∧ repr v w' ys ∧ elements v w' = Some ys ∧
     repr other w' ys ∧ elements other w' = Some ys ∧
     Size v = Size other ∧ Capacity v = Size other ∧
     block_at (buffer_ (data_ v)) w = None ∧
     (ys = [] → v = Vector_default ∧ w' = w) ∧
     (ys ≠ [] → trace w' = (EvCtor ∘ CopyCtor <$> reverse ys) ++
                           EvNew (arena_bytes (Size other)) :: trace w)) ∧
  (never_throws → (Size other * Npos sizeof < size_max)%N →
     ∃ v w', Vector_copy_ctor other s w = (Ok v, s, w')).
Proof.
  intros Hrepr. pose proof Hrepr as (Hsz & Hcap & _). split.
  - intros v s' w' Hrun. revert Hrun.
    eapply (wp_Ok _ (λ v s' w',
      s' = s ∧ repr v w' ys ∧ elements v w' = Some ys ∧
      repr other w' ys ∧ elements other w' = Some ys ∧
      Size v = Size other ∧ Capacity v = Size other ∧
      block_at (buffer_ (data_ v)) w = None ∧
      (ys = [] → v = Vector_default ∧ w' = w) ∧
      (ys ≠ [] → trace w' = (EvCtor ∘ CopyCtor <$> reverse ys) ++
                            EvNew (arena_bytes (Size other)) :: trace w))
      (λ _ _, True) True).
    eapply wp_Vector_copy_ctor; [done|done|done| |].
    + intros ->. split; [done|]. split; [apply repr_null|].
      split; [by apply repr_elements, repr_null|]. split; [done|].
      split; [by apply repr_elements|]. cbn in Hsz. unfold Size, Capacity. cbn.
      by rewrite Hsz.
    + intros a Hne Ha Hle.
      assert (repr (MkVector (MkRawMemory (Ptr (Some a) 0) (size_ other)) (size_ other))
                (MkWorld (<[a := (Live <$> ys) ++
                                 replicate (arena_cells (size_ other) - length ys) Raw]>
                            (heap w))
                   ((EvCtor ∘ CopyCtor <$> reverse ys) ++
                    EvNew (arena_bytes (size_ other)) :: trace w)) ys) as Hv.
      { eapply repr_block'; cbn [heap]; [apply lookup_insert_eq|done|lia]. }
      assert (repr other
                (MkWorld (<[a := (Live <$> ys) ++
                                 replicate (arena_cells (size_ other) - length ys) Raw]>
                            (heap w))
                   ((EvCtor ∘ CopyCtor <$> reverse ys) ++
                    EvNew (arena_bytes (size_ other)) :: trace w)) ys) as Hother.
      { eapply repr_frame; [|exact Hrepr]. intros b Hb. cbn [heap].
        apply lookup_insert_ne. intros ->.
        apply repr_inv in Hrepr as (_ & _ & [(Hbuf & _)|(b' & k & Hbuf & Hb')]);
          rewrite Hbuf in Hb; cbn in Hb; [done|]. congruence. }
      split; [done|]. split; [done|]. split; [by apply repr_elements|].
      split; [done|]. split; [by apply repr_elements|].
      split; [done|]. split; [done|]. split; [|done].
      unfold block_at. cbn. exact Ha.
  - intros Hnt Hfit.
    destruct (wp_returns (Vector_copy_ctor other) s w) as (v & s' & w' & Hrun).
    + eapply wp_Vector_copy_ctor; [done| | |done|done].
      * intros w1 Hthrow. done.
      * rewrite arena_cells_exact by done. lia.
    + exists v, w'.
      assert (s' = s) as ->; [|done]. revert Hrun.
      eapply (wp_Ok _ (λ _ s' _, s' = s) (λ _ _, True) True).
      by eapply wp_Vector_copy_ctor.
Qed.

(** Property X3.  A copy construction which ends in an exception leaves the free
    store with the blocks it had, and the source with its elements. *)
Theorem Vector_copy_ctor_failure_leaves_no_block other w ys s :
  repr other w ys →
  ∀ s' w', Vector_copy_ctor other s w = (Throw, s', w') →
    s' = s ∧ heap w' = heap w ∧ repr other w' ys ∧ elements other w' = Some ys.
Proof.
  intros Hrepr s' w' Hrun. revert Hrun.
  eapply (wp_Throw _ (λ _ _ _, True)
            (λ s' w', s' = s ∧ heap w' = heap w ∧ repr other w' ys ∧
                      elements other w' = Some ys) True).
  eapply wp_Vector_copy_ctor; [done| |done|done|done].
  intros w1 _ Hheap. split; [done|]. split; [done|].
  assert (repr other w1 ys) by (by eapply repr_heap). split; [done|].
  by apply repr_elements.
Qed.

(** Property X4.  The destructor of a copy returns and leaves the free store as it
    was before the copy was made; the source holds its elements. *)
Theorem copy_then_destroy_restores_free_store other w ys s v s' w' :
  repr other w ys → Vector_copy_ctor other s w = (Ok v, s', w') →
  ∃ w'', Vector_dtor v s' w' = (Ok tt, s', w'') ∧ heap w'' = heap w ∧
         repr other w'' ys ∧
         trace w'' = delete_events (data_ v) ++ (EvDtor <$> reverse ys) ++ trace w'.
Proof.
  intros Hrepr Hrun.
  assert (repr v w' ys ∧ release (data_ v) (heap w') = heap w) as (Hv & Hrel).
  { revert Hrun.
    eapply (wp_Ok _ (λ v s' w', repr v w' ys ∧ release (data_ v) (heap w') = heap w)
              (λ _ _, True) True).
    eapply wp_Vector_copy_ctor; [done|done|done| |].
    - intros ->. split; [apply repr_null|]. done.
    - intros a Hne Ha Hle. pose proof Hrepr as (Hsz & Hcap & _). split.
      + eapply repr_block'; cbn [heap]; [apply lookup_insert_eq|done|lia].
      + cbn [data_ heap]. by apply release_fresh. }
  eexists. split; [apply wp_run; by eapply wp_Vector_dtor|]. cbn [heap trace].
  split; [done|]. split; [|done].
  eapply repr_heap; [|exact Hrepr]. done.
Qed.
End lifetime.

(** ** [operator[]] and [PopBack] *)

Section access.
Context {T : Type} `{!Element T}.
Implicit Types (w : World T) (this : Vector) (xs ys : list T).

Lemma repr_cell this w xs (i : nat) x :
  repr this w xs → xs !! i = Some x →
  cell_at (begin this +ₚ Z.of_nat i) w = Some (Live x).
Proof.
  intros Hrepr Hx. apply lookup_lt_Some in Hx as Hi.
  apply repr_inv in Hrepr as (Hsz & Hcap & Hblk).
  destruct Hblk as [(Hbuf & Hc0 & ->)|(b & k & Hbuf & Hb)]; [cbn in Hi; lia|].
  unfold begin, GetAddress. rewrite Hbuf. unfold ptr_add. cbn [p_base p_off].
  eapply cell_at_Some; [done|lia|].
  replace (Z.to_nat (0 + Z.of_nat i)) with i by lia.
  rewrite lookup_app_l by (rewrite length_fmap; lia).
  by rewrite list_lookup_fmap, Hx.
Qed.

Lemma load_cell {St} (p : pointer) w x (s : St) :
  cell_at p w = Some (Live x) → load p s w = (Ok x, s, w).
Proof.
  intros Hc. unfold load, mbind, M_bind, bind, read_cell. by rewrite Hc.
Qed.

(** Property X7.  [operator[]] with an index below the size returns the address of
    that element, where its value is read, and changes nothing; with an index
    which is not below the size its assertion fails. *)
Theorem Vector_index_checks_bounds this w xs (i : N) :
  repr this w xs →
  (∀ x, xs !! N.to_nat i = Some x →
     Vector_index i this w = (Ok (begin this +ₚ Z.of_N i), this, w) ∧
     load (begin this +ₚ Z.of_N i) this w = (Ok x, this, w)) ∧
  ((Size this ≤ i)%N → Vector_index i this w = (Undefined, this, w)).
Proof.
  intros Hrepr. pose proof Hrepr as (Hsz & Hcap & _). split.
  - intros x Hx. apply lookup_lt_Some in Hx as Hi. split.
    + unfold Vector_index, mbind, M_bind, bind, get, RawMemory_index.
      rewrite decide_True by lia. rewrite decide_True by lia. done.
    + apply load_cell. rewrite <-(N2Nat.id i), nat_N_Z. by eapply repr_cell.
  - intros Hge. unfold Vector_index, mbind, M_bind, bind, get, Size in *.
    by rewrite decide_False by lia.
Qed.

(** Property X8.  [PopBack] returns, with the elements but the last and the same
    storage: on an empty vector it does nothing, and otherwise it destroys
    the last element and takes one off the size. *)
Theorem PopBack_removes_last this w xs :
  repr this w xs →
  ∃ this' w',
    PopBack this w = (Ok tt, this', w') ∧
    repr this' w' (removelast xs) ∧ elements this' w' = Some (removelast xs) ∧
    data_ this' = data_ this ∧
    (xs = [] → this' = this ∧ w' = w) ∧
    (∀ ys y, xs = ys ++ [y] →
       Size this' = (Size this - 1)%N ∧ trace w' = EvDtor y :: trace w).
Proof.
  intros Hrepr.
  destruct (wp_returns PopBack this w) as ([] & this' & w' & Hrun).
  { eapply wp_PopBack; [done|done|done]. }
  exists this', w'. split; [done|]. revert Hrun.
  eapply (wp_Ok _ (λ _ this' w',
    repr this' w' (removelast xs) ∧ elements this' w' = Some (removelast xs) ∧
    data_ this' = data_ this ∧
    (xs = [] → this' = this ∧ w' = w) ∧
    (∀ ys y, xs = ys ++ [y] →
       Size this' = (Size this - 1)%N ∧ trace w' = EvDtor y :: trace w))
    (λ _ _, True) True).
  eapply wp_PopBack; [done| |].
  - intros ->. cbn. split; [done|]. split; [by apply repr_elements|].
    split; [done|]. split; [done|]. intros ys y Hnil. by destruct ys.
  - intros b k ys y -> Hbuf Hb. rewrite removelast_last.
    pose proof Hrepr as (Hsz & Hcap & _). rewrite length_app in Hsz. cbn in Hsz.
    assert (repr (set_size (N.of_nat (length ys)) this)
              (MkWorld (<[b:=(Live <$> ys) ++ replicate (S k) Raw]> (heap w))
                 (EvDtor y :: trace w)) ys) as Hrepr'.
    { destruct this as [[buf cap] sz].
      cbn [data_ size_ buffer_ capacity_ set_size] in *. subst buf.
      apply (repr_block' b (S k)); cbn [heap]; [apply lookup_insert_eq|done|lia]. }
    split; [done|]. split; [by apply repr_elements|]. split; [done|].
    split; [intros Hnil; by destruct ys|].
    intros ys' y' Heq. apply app_inj_tail in Heq as [-> ->].
    unfold Size. cbn. split; [lia|done].
Qed.
End access.

(** ** Appending with room left *)

Section in_place.
Context {T : Type} `{!Element T}.
Implicit Types (w : World T) (this : Vector) (xs ys : list T).

Lemma wp_append_in_place grow_at place_at v this w xs E (U : Prop) :
  repr this w xs → (Size this < Capacity this)%N → emplaces place_at v →
  (∀ w', ¬ never_throws → E this w') →
  (¬ sized this w → U) →
  wp (append_with grow_at place_at)
     (λ _ this' w', appended_in_place this w xs v this' w') E U this w.
Proof.
  intros Hrepr Hroom Hplace HE HU. unfold Size in Hroom.
  pose proof Hrepr as (Hsz & Hcap & _).
  assert (size_ this < capacity_ (data_ this))%N as Hroom' by done.
  eapply wp_append_place; [done|lia|done| | |].
  - intros w' Hthrow _. by apply HE.
  - intros b Hbuf Hb. apply HU. intros Hsized.
    pose proof (sized_inv _ _ _ _ Hsized Hbuf Hb) as Hlen.
    rewrite length_fmap in Hlen. unfold Capacity in Hroom. lia.
  - intros b k tr' Hbuf Hb.
    assert (repr (set_size (sz_add (size_ this) 1) this)
              (MkWorld (<[b:=(Live <$> xs ++ [v]) ++ replicate k Raw]> (heap w))
                 (tr' ++ trace w)) (xs ++ [v])) as Hrepr'.
    { destruct this as [[buf cap] sz]. unfold Capacity in *. cbn in *. subst buf.
      eapply repr_block'; cbn [heap]; [apply lookup_insert_eq|..].
      - rewrite sz_add_small by lia. rewrite length_app. cbn. lia.
      - rewrite sz_add_small by lia. lia. }
    split; [done|]. split; [unfold Size; cbn; apply sz_add_small; lia|].
    split; [done|]. split; [by apply repr_elements|]. cbn [heap]. split.
    + intros b'. destruct (decide (b' = b)) as [->|Hne].
      * rewrite lookup_insert_eq, Hb. by split; eauto.
      * by rewrite lookup_insert_ne.
    + intros b' Hne. rewrite Hbuf in Hne. cbn in Hne.
      apply lookup_insert_ne. congruence.
Qed.

(** Property X9.  With room left, [PushBack] and [EmplaceBack] which return have
    kept the storage: the new element is at the old size, the size is one
    more, the free store has the same blocks and the other blocks their
    contents; [EmplaceBack] returns the address of the new element.  They
    return when nothing throws. *)
Theorem append_with_room_keeps_storage this w xs :
  repr this w xs → (Size this < Capacity this)%N →
  (∀ v this' w', PushBack v this w = (Ok tt, this', w') →
     appended_in_place this w xs v this' w') ∧
  (∀ v this' w', PushBack_move v this w = (Ok tt, this', w') →
     appended_in_place this w xs v this' w') ∧
  (∀ args p this' w', EmplaceBack args this w = (Ok p, this', w') →
     appended_in_place this w xs (ctor_value args) this' w' ∧
     p = begin this +ₚ Z.of_N (Size this)) ∧
  (never_throws → sized this w →
     (∀ v, ∃ this' w', PushBack v this w = (Ok tt, this', w')) ∧
     (∀ v, ∃ this' w', PushBack_move v this w = (Ok tt, this', w')) ∧
     (∀ args, ∃ p this' w', EmplaceBack args this w = (Ok p, this', w'))).
Proof.
  intros Hrepr Hroom. pose proof Hrepr as (Hsz & Hcap & _).
  assert (HEB : ∀ args E (U : Prop),
    (∀ w', ¬ never_throws → E this w') → (¬ sized this w → U) →
    wp (EmplaceBack args)
       (λ p this' w', appended_in_place this w xs (ctor_value args) this' w' ∧
                      p = begin this +ₚ Z.of_N (Size this)) E U this w).
  { intros args E U HE HU. unfold EmplaceBack. apply wp_bind.
    eapply wp_mono;
      [apply (wp_append_in_place _ _ (ctor_value args) this w xs E U);
         [done|done|apply emplaces_placement_new|done|done]| |done|done].
    cbn beta. intros _ this1 w1 Happ. apply wp_bind, wp_get.
    pose proof Happ as (Hdata & Hsize & _). unfold Size, Capacity in *.
    unfold RawMemory_index. rewrite Hsize, Hdata.
    rewrite sz_sub_small by lia. rewrite decide_True by lia. apply wp_ret.
    split; [done|]. unfold begin, GetAddress. f_equal. lia. }
  split; [|split; [|split]].
  - intros v this' w' Hrun. revert Hrun.
    eapply (wp_Ok _ (λ _ this' w', appended_in_place this w xs v this' w')
              (λ _ _, True) True).
    apply wp_append_in_place; [done|done|apply emplaces_placement_new|done|done].
  - intros v this' w' Hrun. revert Hrun.
    eapply (wp_Ok _ (λ _ this' w', appended_in_place this w xs v this' w')
              (λ _ _, True) True).
    apply (wp_append_in_place _ _ (ctor_value (MoveCtor v)));
      [done|done|apply emplaces_placement_new|done|done].
  - intros args p this' w' Hrun. revert Hrun.
    eapply (wp_Ok _ (λ p this' w',
      appended_in_place this w xs (ctor_value args) this' w' ∧
      p = begin this +ₚ Z.of_N (Size this)) (λ _ _, True) True).
    by apply HEB.
  - intros Hnt Hsized. split; [|split].
    + intros v. destruct (wp_returns (PushBack v) this w) as ([] & ?); [|done].
      eapply wp_mono;
        [apply (wp_append_in_place _ _ v this w xs (λ _ _, False) False);
           [done|done|apply emplaces_placement_new|done|done]|done..].
    + intros v. destruct (wp_returns (PushBack_move v) this w) as ([] & ?); [|done].
      eapply wp_mono;
        [apply (wp_append_in_place _ _ (ctor_value (MoveCtor v)) this w xs
                  (λ _ _, False) False);
           [done|done|apply emplaces_placement_new|done|done]|done..].
    + intros args. apply wp_returns.
      eapply wp_mono; [apply (HEB args (λ _ _, False) False); done|done..].
Qed.

(** Property X10.  [PushBack(v)] and then [PopBack()] leave the elements and the
    size as they were, and a capacity which is not less; the two return when
    nothing throws and twice the size fits [size_t]. *)
Theorem PushBack_then_PopBack_restores this w xs v :
  repr this w xs →
  (∀ this' w', (PushBack v;; PopBack) this w = (Ok tt, this', w') →
     repr this' w' xs ∧ elements this' w' = Some xs ∧ Size this' = Size this ∧
     (Capacity this ≤ Capacity this')%N) ∧
  (never_throws → sized this w →
   ((2 * Size this + 1) * Npos sizeof < size_max)%N →
     ∃ this' w', (PushBack v;; PopBack) this w = (Ok tt, this', w')).
Proof.
  intros Hrepr. pose proof Hrepr as (Hsz & _). split.
  - intros this' w' Hrun.
    apply bind_Ok_inv in Hrun as ([] & this1 & w1 & Hpush & Hpop).
    assert (repr this1 w1 (xs ++ [v]) ∧ (Capacity this ≤ Capacity this1)%N)
      as (Hrepr1 & Hcap1).
    { split.
      - revert Hpush.
        eapply (wp_Ok _ (λ _ this' w', repr this' w' (xs ++ [v])) (λ _ _, True) True).
        apply (wp_run_op (OpPushBack v)). done.
      - revert Hpush.
        eapply (wp_Ok _ (λ _, not_less this) (not_less this) True).
        eapply wp_append_capacity;
          [done|apply emplaces_braced|apply emplaces_placement_new]. }
    assert (repr this' w' xs ∧ data_ this' = data_ this1) as (Hrepr2 & Hdata).
    { revert Hpop.
      eapply (wp_Ok _ (λ _ this' w', repr this' w' xs ∧ data_ this' = data_ this1)
                (λ _ _, True) True).
      eapply wp_PopBack; [exact Hrepr1|intros Hnil; by destruct xs|].
      intros b k ys y Heq Hbuf Hb. apply app_inj_tail in Heq as [<- <-].
      split; [|done]. pose proof Hrepr1 as (Hsz1 & Hc1 & _).
      rewrite length_app in Hsz1. cbn in Hsz1.
      destruct this1 as [[buf cap] sz].
      cbn [data_ size_ buffer_ capacity_ set_size] in *. subst buf.
      apply (repr_block' b (S k)); cbn [heap]; [apply lookup_insert_eq|done|lia]. }
    split; [done|]. split; [by apply repr_elements|]. pose proof Hrepr2 as (Hsz2 & _).
    unfold Size, Capacity in *. rewrite Hdata. split; [lia|done].
  - intros Hnt Hsized Hroom.
    destruct (wp_returns (PushBack v;; PopBack) this w) as ([] & ?); [|done].
    apply wp_bind.
    eapply wp_mono; [apply (wp_run_op_sized (OpPushBack v) this w xs)| |done|done];
      [done..| |].
    { unfold Size in Hroom. by rewrite Hsz in Hroom. }
    cbn beta. intros _ this1 w1 (Hrepr1 & _). by eapply wp_PopBack.
Qed.
End in_place.

(** ** [Erase] without the shift; growth; [RawMemory] *)

Section storage.
Context {T : Type} `{!Element T}.
Implicit Types (w : World T) (this rhs : Vector) (xs ys : list T).

Lemma Erase_unshifted this w ys y (i : nat) :
  is_nothrow_move_assignable = false → repr this w (ys ++ [y]) → i ≤ length ys →
  ∃ w',
    Erase (begin this +ₚ Z.of_nat i) this w =
      (Ok (if decide (ys = []) then end_ (set_size (N.of_nat (length ys)) this)
           else begin this +ₚ Z.of_nat i),
       set_size (N.of_nat (length ys)) this, w') ∧
    repr (set_size (N.of_nat (length ys)) this) w' ys ∧
    trace w' = EvDtor y :: trace w.
Proof.
  intros Hnt Hrepr Hi. pose proof Hrepr as (Hsz & Hcap & _).
  rewrite length_app in Hsz. cbn in Hsz.
  apply repr_inv in Hrepr as (_ & _ & Hblk).
  destruct Hblk as [(Hbuf & Hc0 & Hnil)|(b & k & Hbuf & Hb)]; [by destruct ys|].
  assert (repr (set_size (N.of_nat (length ys)) this)
            (MkWorld (<[b:=(Live <$> ys) ++ replicate (S k) Raw]> (heap w))
               (EvDtor y :: trace w)) ys) as Hrepr'.
  { destruct this as [[buf cap] sz].
    cbn [data_ size_ buffer_ capacity_ set_size] in *. subst buf.
    apply (repr_block' b (S k)); cbn [heap]; [apply lookup_insert_eq|done|lia]. }
  exists (MkWorld (<[b:=(Live <$> ys) ++ replicate (S k) Raw]> (heap w))
            (EvDtor y :: trace w)).
  split; [|split; [exact Hrepr'|done]].
  - apply wp_run. unfold Erase. apply wp_bind, wp_get. rewrite decide_True by lia.
    assert (distance (cbegin this) (begin this +ₚ Z.of_nat i) = Some (Z.of_nat i)) as ->.
    { unfold distance, cbegin, begin, GetAddress. rewrite Hbuf. cbn.
      rewrite decide_True by done. f_equal. lia. }
    rewrite Hnt. apply wp_bind, wp_ret, wp_bind.
    unfold end_, GetAddress. rewrite Hbuf. unfold ptr_add. cbn [p_base p_off].
    change 1%Z with (Z.of_nat (length [y])).
    eapply wp_destroy_n; cbn [heap trace]; [exact Hb|lia| |].
    { intros j x Hj. destruct j; [|done]. cbn in Hj. injection Hj as <-.
      rewrite fmap_app, <-app_assoc. rewrite lookup_app_r; rewrite length_fmap; [|lia].
      replace (Z.to_nat (0 + Z.of_N (size_ this) + -1) + 0 - length ys) with 0 by lia.
      done. }
    apply wp_bind, wp_modify, wp_bind, wp_get.
    rewrite sz_sub_small by lia.
    replace (size_ this - 1)%N with (N.of_nat (length ys)) by lia.
    cbn [set_size size_ data_ length replicate]. rewrite Hbuf.
    replace (Z.to_nat (0 + Z.of_N (size_ this) + -1))
      with (length (Live <$> ys : list (cell T))) by (rewrite length_fmap; lia).
    rewrite fmap_app, <-app_assoc, list_inserts_app_at. cbn [app fmap list_fmap].
    change (list_inserts 0 [Raw] (Live y :: replicate k Raw))
      with (replicate (S k) (Raw : cell T)).
    unfold begin, end_, GetAddress. cbn [set_size data_ size_]. rewrite Hbuf.
    unfold ptr_add. cbn [p_base p_off].
    case_decide as Hpos; apply wp_ret.
    + rewrite decide_False by (intros ->; cbn in Hpos; lia). reflexivity.
    + rewrite decide_True by (destruct ys; [done|cbn in Hpos; lia]). reflexivity.
Qed.

(** Property X13.  For an element type whose move assignment may throw, [Erase]
    at the position of the [i]-th element returns and removes the last
    element, whichever [i]: the other elements stay, the last one is
    destroyed, the size is one less, and the result is the same position, or
    [end()] when nothing is left. *)
Theorem Erase_without_shift_removes_last this w ys y (i : nat) :
  is_nothrow_move_assignable = false → repr this w (ys ++ [y]) → i ≤ length ys →
  ∃ this' w',
    Erase (begin this +ₚ Z.of_nat i) this w =
      (Ok (if decide (ys = []) then end_ this' else begin this +ₚ Z.of_nat i),
       this', w') ∧
    repr this' w' ys ∧ elements this' w' = Some ys ∧
    Size this' = (Size this - 1)%N ∧ data_ this' = data_ this ∧
    trace w' = EvDtor y :: trace w.
Proof.
  intros Hnt Hrepr Hi.
  destruct (Erase_unshifted this w ys y i Hnt Hrepr Hi) as (w' & Hrun & Hrepr' & Htr).
  exists (set_size (N.of_nat (length ys)) this), w'.
  split; [done|]. split; [done|]. split; [by apply repr_elements|].
  pose proof Hrepr as (Hsz & _). rewrite length_app in Hsz. cbn in Hsz.
  unfold Size. cbn. split; [lia|done].
Qed.

(** Property X11.  [Reserve(n)] beyond the capacity, and [PushBack] and
    [EmplaceBack] on a full vector, which return have begun with the
    allocation of the new capacity, left the vector in a block which was not
    in the free store, with exactly that capacity, released the old block and
    changed no other block. *)
Theorem growth_moves_to_fresh_storage this w xs :
  repr this w xs →
  (∀ n this' w', (Capacity this < n)%N → Reserve n this w = (Ok tt, this', w') →
     relocated this w n this' w') ∧
  (Size this = Capacity this →
     (∀ v this' w', PushBack v this w = (Ok tt, this', w') →
        relocated this w (grown (Size this)) this' w') ∧
     (∀ v this' w', PushBack_move v this w = (Ok tt, this', w') →
        relocated this w (grown (Size this)) this' w') ∧
     (∀ args p this' w', EmplaceBack args this w = (Ok p, this', w') →
        relocated this w (grown (Size this)) this' w')).
Proof.
  intros Hrepr. split.
  - intros n this' w' Hlt Hrun. revert Hrun.
    eapply (wp_Ok _ (λ _ this' w', relocated this w n this' w') (λ _ _, True) True).
    eapply wp_Reserve; [done|lia|]. intros _. split; [done|]. split; [done|].
    intros a tr' Ha _. by eapply relocated_intro.
  - intros Hfull.
    assert (Happ : ∀ grow_at place_at v, emplaces grow_at v →
      wp (append_with grow_at place_at)
         (λ _ this' w', relocated this w (grown (Size this)) this' w')
         (λ _ _, True) True this w).
    { intros grow_at place_at v Hgrow.
      eapply wp_append_grow; [done|done|done|done|done|].
      intros a tr' Ha _. by eapply relocated_intro. }
    split; [|split].
    + intros v this' w' Hrun. revert Hrun.
      eapply (wp_Ok _ (λ _ this' w', relocated this w (grown (Size this)) this' w')
                (λ _ _, True) True).
      eapply Happ, emplaces_braced.
    + intros v this' w' Hrun. revert Hrun.
      eapply (wp_Ok _ (λ _ this' w', relocated this w (grown (Size this)) this' w')
                (λ _ _, True) True).
      eapply Happ, (emplaces_placement_new (MoveCtor v)).
    + intros args p this' w' Hrun. revert Hrun.
      eapply (wp_Ok _ (λ _ this' w', relocated this w (grown (Size this)) this' w')
                (λ _ _, True) True).
      unfold EmplaceBack. apply wp_bind.
      eapply wp_mono; [eapply Happ, (emplaces_placement_new args)| |done|done].
      cbn beta. intros _ this1 w1 Hrel. apply wp_bind, wp_get.
      unfold RawMemory_index. case_decide; [by apply wp_ret|done].
Qed.

(** Property X18.  When a copy assignment from a source larger than the capacity
    ends in an exception, the destination is the object it was, with its
    elements, the free store is the one it was, and the source holds its
    elements. *)
Theorem copy_assign_failure_with_reallocation_leaves_vector_unchanged
    this rhs w xs ys this' w' :
  repr this w xs → repr rhs w ys → (Capacity this < Size rhs)%N →
  Vector_copy_assign (Some rhs) this w = (Throw, this', w') →
  untouched this w xs this' w' ∧ repr rhs w' ys.
Proof.
  intros Hthis Hrhs Hlt Hrun. revert Hrun.
  eapply (wp_Throw _ (λ _ _ _, True)
            (λ this' w', untouched this w xs this' w' ∧ repr rhs w' ys) True).
  eapply wp_copy_assign_realloc; [done|done|done| |done|done].
  intros w1 _ Hheap. split; [by apply untouched_intro|]. by eapply repr_heap.
Qed.
End storage.

Section raw_memory.
Context {T : Type} `{!Element T} {St : Type}.
Implicit Types (w : World T) (s : St).

Lemma arena_cells_overflow n :
  (size_max ≤ n * Npos sizeof)%N → arena_cells n < N.to_nat n.
Proof.
  intros Hover. unfold arena_cells, arena_bytes, sz_mul, wrap.
  assert (((n * N.pos sizeof) `mod` size_max) `div` N.pos sizeof < n)%N; [|lia].
  apply N.Div0.div_lt_upper_bound.
  assert ((n * N.pos sizeof) `mod` size_max < size_max)%N by (by apply N.mod_lt).
  lia.
Qed.

(** Property X6.  [RawMemory(n)] which returns has capacity [n]: without storage
    for [n = 0], and otherwise with a fresh block of raw cells from one
    [operator new] of [n * sizeof(T)] bytes, the product taken in [size_t];
    its destructor then leaves the free store as it was before.  When
    [operator new] throws the free store has not changed.  The block has room
    for [n] elements when the product fits [size_t], and for fewer when it
    wraps. *)
Theorem RawMemory_ctor_dtor_round_trip n s w :
  (∀ r s' w', RawMemory_ctor n s w = (Ok r, s', w') →
     s' = s ∧ capacity_ r = n ∧
     (n = 0%N → r = RawMemory_default ∧ w' = w) ∧
     (n ≠ 0%N → ∃ a, buffer_ r = Ptr (Some a) 0 ∧ heap w !! a = None ∧
                     heap w' = <[a := replicate (arena_cells n) Raw]> (heap w) ∧
                     trace w' = EvNew (arena_bytes n) :: trace w) ∧
     ∃ w'', RawMemory_dtor r s' w' = (Ok tt, s', w'') ∧ heap w'' = heap w) ∧
  (∀ s' w', RawMemory_ctor n s w = (Throw, s', w') → s' = s ∧ heap w' = heap w) ∧
  ((n * Npos sizeof < size_max)%N → arena_cells n = N.to_nat n) ∧
  ((size_max ≤ n * Npos sizeof)%N → arena_cells n < N.to_nat n).
Proof.
  split; [|split; [|split]].
  - intros r s' w' Hrun. revert Hrun.
    eapply (wp_Ok _ (λ r s' w',
      s' = s ∧ capacity_ r = n ∧
      (n = 0%N → r = RawMemory_default ∧ w' = w) ∧
      (n ≠ 0%N → ∃ a, buffer_ r = Ptr (Some a) 0 ∧ heap w !! a = None ∧
                      heap w' = <[a := replicate (arena_cells n) Raw]> (heap w) ∧
                      trace w' = EvNew (arena_bytes n) :: trace w) ∧
      ∃ w'', RawMemory_dtor r s' w' = (Ok tt, s', w'') ∧ heap w'' = heap w)
      (λ _ _, True) True).
    apply wp_RawMemory_ctor; [done| |].
    + intros ->. split; [done|]. split; [done|]. split; [done|]. split; [done|].
      exists w. done.
    + intros Hn a Ha. split; [done|]. split; [done|]. split; [done|].
      split; [by exists a|].
      eexists. split.
      * apply wp_run. unfold RawMemory_dtor, Deallocate. cbn [buffer_].
        eapply wp_operator_delete; cbn [heap]; [apply lookup_insert_eq|done].
      * cbn [heap]. by rewrite delete_insert_id.
  - intros s' w' Hrun. revert Hrun.
    eapply (wp_Throw _ (λ _ _ _, True) (λ s' w', s' = s ∧ heap w' = heap w) True).
    apply wp_RawMemory_ctor; done.
  - apply arena_cells_exact.
  - apply arena_cells_overflow.
Qed.
End raw_memory.

(** ** [Vector(size_t)] *)

Section value_construct.
Context {T : Type} `{!Element T} {St : Type}.
Implicit Types (w : World T) (s : St) (blk : list (cell T)) (U : Prop).

Lemma wp_uninitialized_value_construct_n b (o : Z) (n : nat) blk
    (Q : unit → St → World T → Prop) E U s w :
  heap w !! b = Some blk → (0 ≤ o)%Z →
  (¬ fits o n blk → U) →
  (∀ k tr', k < n → fits o k blk → ¬ never_throws →
     E s (MkWorld (<[b := list_inserts (Z.to_nat o) (replicate k Raw) blk]> (heap w))
                  tr')) →
  (fits o n blk →
     Q tt s (MkWorld
               (<[b := list_inserts (Z.to_nat o) (replicate n (Live value_init)) blk]>
                  (heap w))
               (replicate n (EvCtor DefaultCtor) ++ trace w))) →
  wp (uninitialized_value_construct_n (Ptr (Some b) o) (Z.of_nat n)) Q E U s w.
Proof.
  intros Hb Ho HU HE HQ. unfold uninitialized_value_construct_n. rewrite Nat2Z.id.
  apply (wp_for_n (λ k s' w', s' = s ∧ fits o k blk ∧
    w' = MkWorld
           (<[b := list_inserts (Z.to_nat o) (replicate k (Live value_init)) blk]>
              (heap w))
           (replicate k (EvCtor DefaultCtor) ++ trace w))).
  - split; [done|]. split; [by left|]. cbn. rewrite insert_id by done.
    by rewrite world_eta.
  - intros k s' w' Hk (-> & Hfit & ->). unfold ptr_add. cbn [p_base p_off].
    apply wp_catch. eapply wp_placement_new; cbn [heap trace].
    + apply lookup_insert_eq.
    + intros _ Hthrow. apply wp_bind.
      replace (0 + Z.of_nat k)%Z
        with (Z.of_nat (length (replicate k (value_init : T))))
        by (rewrite length_replicate; lia).
      eapply wp_destroy_n; cbn [heap trace].
      * apply lookup_insert_eq.
      * done.
      * intros j v' Hj. apply lookup_replicate in Hj as [-> Hjlt].
        destruct Hfit as [->|Hfit]; [lia|].
        rewrite list_lookup_inserts by (rewrite ?length_replicate; lia).
        replace (Z.to_nat o + j - Z.to_nat o) with j by lia.
        by apply lookup_replicate_2.
      * apply wp_throw. rewrite insert_insert_eq, length_replicate.
        rewrite list_inserts_over by (by rewrite !length_replicate).
        by apply HE.
    + intros Hn. apply HU. intros [Hz|Hfit']; [lia|]. apply Hn.
      rewrite length_inserts. lia.
    + rewrite length_inserts. intros Hin. split; [done|]. split; [right; lia|].
      rewrite insert_insert_eq. f_equal. f_equal.
      rewrite replicate_S_end, list_inserts_snoc, length_replicate.
      cbn. f_equal. lia.
  - intros s' w' (-> & Hfit & ->). by apply HQ.
Qed.

Lemma fits_replicate (o : Z) (n cells : nat) :
  (0 ≤ o)%Z → (Z.to_nat o + n ≤ cells) → fits o n (replicate cells (Raw : cell T)).
Proof. intros Ho Hle. right. rewrite length_replicate. lia. Qed.

(** Property X5.  [Vector(n)] which returns has made a vector of size and capacity
    [n] with [n] value-initialised elements in a fresh block, and [Vector(0)]
    is the default vector; when it ends in an exception the free store has
    the blocks it had; it returns when nothing throws and [n] elements fit
    [size_t]. *)
Theorem Vector_size_ctor_value_initialises (n : N) s w :
  (n < size_max)%N →
  (∀ v s' w', Vector_size_ctor n s w = (Ok v, s', w') →
     s' = s ∧ Size v = n ∧ Capacity v = n ∧
     repr v w' (replicate (N.to_nat n) value_init) ∧
     elements v w' = Some (replicate (N.to_nat n) value_init) ∧
     block_at (buffer_ (data_ v)) w = None ∧
     (∀ b, p_base (buffer_ (data_ v)) ≠ Some b → heap w' !! b = heap w !! b) ∧
     (n = 0%N → v = Vector_default ∧ w' = w) ∧
     (n ≠ 0%N → trace w' = replicate (N.to_nat n) (EvCtor DefaultCtor) ++
                           EvNew (arena_bytes n) :: trace w)) ∧
  (∀ s' w', Vector_size_ctor n s w = (Throw, s', w') → s' = s ∧ heap w' = heap w) ∧
  (never_throws → (n * Npos sizeof < size_max)%N →
     ∃ v w', Vector_size_ctor n s w = (Ok v, s, w')).
Proof.
  intros Hn.
  assert (Hwp : ∀ E (U : Prop),
    (∀ w', ¬ never_throws → heap w' = heap w → E s w') →
    (¬ (N.to_nat n ≤ arena_cells n) → U) →
    wp (Vector_size_ctor n)
       (λ v s' w',
          s' = s ∧ Size v = n ∧ Capacity v = n ∧
          repr v w' (replicate (N.to_nat n) value_init) ∧
          elements v w' = Some (replicate (N.to_nat n) value_init) ∧
          block_at (buffer_ (data_ v)) w = None ∧
          (∀ b, p_base (buffer_ (data_ v)) ≠ Some b → heap w' !! b = heap w !! b) ∧
          (n = 0%N → v = Vector_default ∧ w' = w) ∧
          (n ≠ 0%N → trace w' = replicate (N.to_nat n) (EvCtor DefaultCtor) ++
                                EvNew (arena_bytes n) :: trace w))
       E U s w).
  { intros E U HE HU. unfold Vector_size_ctor. apply wp_bind, wp_RawMemory_ctor.
    - intros _ Hthrow. by apply HE.
    - intros ->. apply wp_bind, wp_catch. change (Z.of_N 0) with 0%Z.
      unfold uninitialized_value_construct_n. cbn [Z.to_nat for_n].
      apply wp_ret, wp_ret. split; [done|]. split; [done|]. split; [done|].
      split; [apply repr_null|]. split; [by apply repr_elements, repr_null|]. done.
    - intros Hnz a Ha. apply wp_bind, wp_catch. unfold GetAddress. cbn [buffer_].
      replace (Z.of_N n) with (Z.of_nat (N.to_nat n)) by lia.
      fold (arena_bytes n). fold (arena_cells n).
      eapply wp_uninitialized_value_construct_n; cbn [heap trace].
      + apply lookup_insert_eq.
      + done.
      + intros Hnf. apply HU. intros Hle. apply Hnf, fits_replicate; [done|lia].
      + intros k tr' Hk _ Hthrow. apply wp_bind.
        eapply wp_operator_delete; cbn [heap trace]; [apply lookup_insert_eq|].
        apply wp_throw, HE; [done|]. cbn [heap]. heap_eq.
      + intros Hfit. apply wp_ret.
        assert (Hle : N.to_nat n ≤ arena_cells n).
        { destruct Hfit as [Hz|Hfit]; [lia|]. rewrite length_replicate in Hfit. lia. }
        rewrite insert_insert_eq. change (Z.to_nat 0) with 0.
        rewrite list_inserts_replicate_0 by (by rewrite length_replicate).
        rewrite length_replicate, <-fmap_replicate.
        assert (repr (MkVector (MkRawMemory (Ptr (Some a) 0) n) n)
                  (MkWorld (<[a := (Live <$> replicate (N.to_nat n) value_init) ++
                                   replicate (arena_cells n - N.to_nat n) Raw]> (heap w))
                     (replicate (N.to_nat n) (EvCtor DefaultCtor) ++
                      EvNew (arena_bytes n) :: trace w))
                  (replicate (N.to_nat n) value_init)) as Hrepr.
        { eapply repr_block'; cbn [heap]; [apply lookup_insert_eq| |lia].
          rewrite length_replicate. lia. }
        split; [done|]. split; [done|]. split; [done|]. split; [done|].
        split; [by apply repr_elements|]. split; [unfold block_at; by cbn|].
        split; [|done]. intros b Hb. cbn [heap]. apply lookup_insert_ne.
        cbn in Hb. congruence. }
  split; [|split].
  - intros v s' w' Hrun.
    pose proof (Hwp (λ _ _, True) True ltac:(done) ltac:(done)) as H.
    exact (wp_Ok _ _ _ _ _ _ _ _ _ H Hrun).
  - intros s' w' Hrun.
    pose proof (Hwp (λ s' w', s' = s ∧ heap w' = heap w) True
                  ltac:(done) ltac:(done)) as H.
    exact (wp_Throw _ _ _ _ _ _ _ _ H Hrun).
  - intros Hnt Hfit.
    destruct (wp_returns (Vector_size_ctor n) s w) as (v & s' & w' & Hrun).
    + eapply wp_mono; [apply (Hwp (λ _ _, False) False)|done..]; [done|].
      rewrite arena_cells_exact by done. lia.
    + exists v, w'. assert (s' = s) as ->; [|done].
      pose proof (Hwp (λ _ _, True) True ltac:(done) ltac:(done)) as H.
      by destruct (wp_Ok _ _ _ _ _ _ _ _ _ H Hrun) as (-> & _).
Qed.
End value_construct.

(** ** [Resize] *)

Section resize.
Context {T : Type} `{!Element T}.
Implicit Types (w : World T) (this : Vector) (xs : list T) (U : Prop).

Lemma wp_Resize_fill this1 w1 xs (n : N) (Q : unit → Vector → World T → Prop) E U :
  repr this1 w1 xs → (size_ this1 < n)%N → (n ≤ capacity_ (data_ this1))%N →
  (∀ tr', ¬ never_throws → E this1 (MkWorld (heap w1) tr')) →
  (∀ b k, buffer_ (data_ this1) = Ptr (Some b) 0 →
     heap w1 !! b = Some ((Live <$> xs) ++ replicate k Raw) →
     (¬ (N.to_nat n ≤ length xs + k) → U) ∧
     (N.to_nat n ≤ length xs + k →
        Q tt (set_size n this1)
          (MkWorld
             (<[b := (Live <$> xs ++ replicate (N.to_nat n - length xs) value_init) ++
                     replicate (length xs + k - N.to_nat n) Raw]> (heap w1))
             (replicate (N.to_nat n - length xs) (EvCtor DefaultCtor) ++ trace w1)))) →
  wp (this ← get;
      uninitialized_value_construct_n
        (GetAddress (data_ this) +ₚ Z.of_N (size_ this))
        (Z.of_N (sz_sub n (size_ this)));;
      modify (set_size n)) Q E U this1 w1.
Proof.
  intros Hrepr Hlt Hle HE HQ. apply wp_bind, wp_get.
  apply repr_inv in Hrepr as (Hsz & Hcap & Hblk).
  destruct Hblk as [(Hbuf & Hc0 & ->)|(b & k & Hbuf & Hb)]; [lia|].
  destruct (HQ b k Hbuf Hb) as (HU & HQ'). clear HQ.
  rewrite sz_sub_small by lia. unfold GetAddress. rewrite Hbuf.
  unfold ptr_add. cbn [p_base p_off].
  replace (Z.of_N (n - size_ this1)) with (Z.of_nat (N.to_nat n - length xs)) by lia.
  apply wp_bind.
  eapply wp_uninitialized_value_construct_n; [exact Hb|lia| | |].
  - intros Hnf. apply HU. intros Hfit. apply Hnf. right.
    rewrite length_app, length_fmap, length_replicate. lia.
  - intros j tr' Hj Hfit Hthrow.
    rewrite list_inserts_same; [rewrite insert_id by done; by apply HE|].
    intros i x Hi. apply lookup_replicate in Hi as [-> Hi].
    destruct Hfit as [->|Hfit]; [lia|].
    rewrite length_app, length_fmap, length_replicate in Hfit.
    rewrite lookup_app_r by (rewrite length_fmap; lia).
    apply lookup_replicate_2. rewrite length_fmap. lia.
  - intros Hfit. apply wp_modify.
    assert (N.to_nat n ≤ length xs + k) as Hin.
    { destruct Hfit as [Hz|Hfit]; [lia|].
      rewrite length_app, length_fmap, length_replicate in Hfit. lia. }
    eapply post_eq; [apply (HQ' Hin)|done| |done]. f_equal.
    replace (Z.to_nat (0 + Z.of_N (size_ this1)))
      with (length (Live <$> xs : list (cell T))) by (rewrite length_fmap; lia).
    rewrite list_inserts_app_at, list_inserts_replicate_0
      by (rewrite length_replicate; lia).
    rewrite length_replicate, fmap_app, fmap_replicate, <-app_assoc.
    do 3 f_equal. lia.
Qed.

Lemma wp_Resize n this w xs E U :
  repr this w xs → (n < size_max)%N →
  (∀ this' w', ¬ never_throws →
     (is_copy_constructible = true → repr this' w' xs) → E this' w') →
  (¬ (sized this w ∧ (n * Npos sizeof < size_max)%N) → U) →
  wp (Resize n) (λ _ this' w', resized this w xs n this' w') E U this w.
Proof.
  intros Hrepr Hn HE HU. pose proof Hrepr as (Hsz & Hcap & _).
  unfold Resize. apply wp_bind, wp_get. case_decide as Hshrink.
  - (* fewer elements *)
    pose proof Hrepr as Hrepr0.
    apply repr_inv in Hrepr as (_ & _ & Hblk).
    destruct Hblk as [(Hbuf & Hc0 & ->)|(b & k & Hbuf & Hb)]; [cbn in Hsz; lia|].
    rewrite sz_sub_small by lia. unfold GetAddress. rewrite Hbuf.
    unfold ptr_add. cbn [p_base p_off].
    assert (Hdrop : length (drop (N.to_nat n) xs) = length xs - N.to_nat n)
      by apply length_drop.
    replace (Z.of_N (size_ this - n)) with (Z.of_nat (length (drop (N.to_nat n) xs)))
      by lia.
    apply wp_bind, wp_bind. eapply wp_destroy_n; [exact Hb|lia| |].
    { intros j x Hj. rewrite lookup_drop in Hj.
      replace (Z.to_nat (0 + Z.of_N n) + j) with (N.to_nat n + j) by lia.
      by apply repr_live. }
    apply wp_modify, wp_bind, wp_get. cbn [set_size size_].
    rewrite decide_False by lia. apply wp_ret.
    assert (Hblock : list_inserts (Z.to_nat (0 + Z.of_N n))
              (replicate (length (drop (N.to_nat n) xs)) Raw)
              ((Live <$> xs) ++ replicate k Raw) =
            (Live <$> take (N.to_nat n) xs) ++
            replicate (length xs - N.to_nat n + k) (Raw : cell T)).
    { rewrite <-(take_drop (N.to_nat n) xs) at 2. rewrite fmap_app, <-app_assoc.
      replace (Z.to_nat (0 + Z.of_N n))
        with (length (Live <$> take (N.to_nat n) xs : list (cell T)))
        by (rewrite length_fmap, length_take; lia).
      rewrite list_inserts_app_at. f_equal.
      rewrite <-(length_fmap Live (drop (N.to_nat n) xs)) at 1.
      rewrite list_inserts_0_r by (by rewrite length_replicate, !length_fmap).
      rewrite length_fmap, Hdrop. by rewrite replicate_add. }
    rewrite Hblock. unfold resized. cbn zeta.
    replace (N.to_nat n - length xs) with 0 by lia. cbn [replicate].
    rewrite app_nil_r.
    assert (repr (MkVector (data_ this) n)
              (MkWorld (<[b := (Live <$> take (N.to_nat n) xs) ++
                               replicate (length xs - N.to_nat n + k) Raw]> (heap w))
                 ((EvDtor <$> reverse (drop (N.to_nat n) xs)) ++ trace w))
              (take (N.to_nat n) xs)) as Hrepr'.
    { destruct this as [[buf cap] sz]. cbn [data_ size_ buffer_ capacity_] in *.
      subst buf. eapply repr_block'; cbn [heap]; [apply lookup_insert_eq| |lia].
      rewrite length_take. lia. }
    split; [done|]. split; [done|].
    split; [by apply repr_elements|]. split; [done|].
    split; [unfold Capacity; lia|]. split; [unfold Size; lia|]. done.
  - apply wp_bind, wp_ret, wp_bind, wp_get. case_decide as Hgrow.
    + (* more elements *)
      assert (Htake : take (N.to_nat n) xs = xs) by (apply take_ge; lia).
      assert (Hfinal : ∀ this1 w1 b k,
        buffer_ (data_ this1) = Ptr (Some b) 0 → size_ this1 = size_ this →
        (n ≤ capacity_ (data_ this1) < size_max)%N →
        ((n ≤ Capacity this)%N → data_ this1 = data_ this) →
        ((Capacity this < n)%N → capacity_ (data_ this1) = n) →
        N.to_nat n ≤ length xs + k →
        resized this w xs n (set_size n this1)
          (MkWorld
             (<[b := (Live <$> xs ++ replicate (N.to_nat n - length xs) value_init) ++
                     replicate (length xs + k - N.to_nat n) Raw]> (heap w1))
             (replicate (N.to_nat n - length xs) (EvCtor DefaultCtor) ++ trace w1))).
      { intros this1 w1 b k Hbuf1 Hsz1 Hcap1 Hkeep Hnew Hin.
        assert (repr (set_size n this1)
                  (MkWorld
                     (<[b := (Live <$> xs ++ replicate (N.to_nat n - length xs)
                                                value_init) ++
                             replicate (length xs + k - N.to_nat n) Raw]> (heap w1))
                     (replicate (N.to_nat n - length xs) (EvCtor DefaultCtor) ++
                      trace w1))
                  (xs ++ replicate (N.to_nat n - length xs) value_init)) as Hrepr'.
        { destruct this1 as [[buf cap] sz]. cbn [data_ size_ buffer_ capacity_ set_size] in *.
          subst buf. eapply repr_block'; cbn [heap]; [apply lookup_insert_eq| |lia].
          rewrite length_app, length_replicate. lia. }
        unfold resized. cbn zeta. rewrite Htake.
        split; [done|]. split; [done|]. split; [by apply repr_elements|].
        split; [intros Hc; cbn; by apply Hkeep|].
        split; [intros Hc; unfold Capacity; cbn; by apply Hnew|].
        unfold Size. split; lia. }
      apply wp_bind. eapply wp_Reserve; [exact Hrepr| |].
      * intros Hfits. eapply wp_Resize_fill; [exact Hrepr|lia|done| |].
        { intros tr' Hthrow. apply HE; [done|]. intros _.
          by eapply repr_heap; [|exact Hrepr]. }
        intros b k Hbuf Hb. split.
        { intros Hbad. apply HU. intros (Hsized & _).
          pose proof (sized_inv _ _ _ _ Hsized Hbuf Hb) as Hlen.
          rewrite length_app, length_fmap, length_replicate in Hlen.
          unfold Capacity in Hfits. lia. }
        intros Hin. eapply Hfinal; try done; [unfold Capacity in *; lia|].
        intros Hc. unfold Capacity in *. lia.
      * intros Hlt. unfold Capacity in Hlt. split; [|split].
        { intros w' Hthrow Hheap. apply HE; [done|]. intros Hcc.
          eapply repr_heap; [|exact Hrepr]. by apply Hheap. }
        { intros Hbad _. apply HU. intros (_ & Hbytes).
          rewrite arena_cells_exact in Hbad by done. lia. }
        intros a tr' Ha Hcells.
        assert (repr (MkVector (MkRawMemory (Ptr (Some a) 0) n) (size_ this))
                  (MkWorld (<[a := (Live <$> xs) ++
                                   replicate (arena_cells n - length xs) Raw]>
                              (release (data_ this) (heap w)))
                     (tr' ++ EvNew (arena_bytes n) :: trace w)) xs) as Hrepr1.
        { eapply repr_block'; cbn [heap]; [apply lookup_insert_eq|done|lia]. }
        eapply wp_Resize_fill; [exact Hrepr1|done|done| |].
        { intros tr1 Hthrow. apply HE; [done|]. intros _.
          by eapply repr_heap; [|exact Hrepr1]. }
        intros b k Hbuf Hb. cbn [data_ buffer_ heap] in Hbuf, Hb.
        injection Hbuf as <-. rewrite lookup_insert_eq in Hb.
        injection Hb as Hk%app_inv_head. apply (f_equal length) in Hk.
        rewrite !length_replicate in Hk. split.
        { intros Hbad. apply HU. intros (_ & Hbytes).
          rewrite arena_cells_exact in * by done. lia. }
        intros Hin. cbn [heap]. rewrite insert_insert_eq.
        pose proof (Hfinal
          (MkVector (MkRawMemory (Ptr (Some a) 0) n) (size_ this))
          (MkWorld (release (data_ this) (heap w))
                   (tr' ++ EvNew (arena_bytes n) :: trace w)) a k) as Hres.
        cbn [heap trace] in Hres. apply Hres; cbn; try done.
        intros Hc. unfold Capacity in Hc. lia.
    + (* the same number *)
      apply wp_ret. assert (n = size_ this) as -> by lia.
      unfold resized. cbn zeta. rewrite Hsz, Nat2N.id, take_ge by lia.
      rewrite Nat.sub_diag. cbn [replicate]. rewrite app_nil_r.
      split; [done|]. split; [done|]. split; [by apply repr_elements|].
      split; [done|]. split; [unfold Capacity; lia|]. split; [done|].
      unfold Size. lia.
Qed.

(** Property X12.  [Resize(n)] which returns leaves size [n]: the old elements up
    to [n], then value-initialised ones.  Within the capacity the storage is
    kept, beyond it the capacity is [n]; shrinking destroys the elements
    from [n] on in index order and [Resize(Size())] does nothing.  When it
    ends in an exception, for a copy-constructible element type, the vector
    holds its old elements.  It returns when it does not grow, and when
    nothing throws and [n] elements fit [size_t]. *)
Theorem Resize_keeps_prefix_and_fills this w xs n :
  repr this w xs → (n < size_max)%N →
  (∀ this' w', Resize n this w = (Ok tt, this', w') → resized this w xs n this' w') ∧
  (is_copy_constructible = true →
     ∀ this' w', Resize n this w = (Throw, this', w') →
       repr this' w' xs ∧ elements this' w' = Some xs) ∧
  ((n ≤ Size this)%N → ∃ this' w', Resize n this w = (Ok tt, this', w')) ∧
  (never_throws → sized this w → (n * Npos sizeof < size_max)%N →
     ∃ this' w', Resize n this w = (Ok tt, this', w')).
Proof.
  intros Hrepr Hn. split; [|split; [|split]].
  - intros this' w' Hrun.
    pose proof (wp_Resize n this w xs (λ _ _, True) True Hrepr Hn
                  ltac:(done) ltac:(done)) as H.
    exact (wp_Ok _ _ _ _ _ _ _ _ _ H Hrun).
  - intros Hcc this' w' Hrun.
    pose proof (wp_Resize n this w xs
                  (λ this' w', repr this' w' xs ∧ elements this' w' = Some xs) True
                  Hrepr Hn) as H.
    refine (wp_Throw _ _ _ _ _ _ _ _ (H _ _) Hrun); [|done].
    intros this1 w1 _ Hr. split; [by apply Hr|]. by apply repr_elements, Hr.
  - intros Hle.
    destruct (wp_returns (Resize n) this w) as ([] & ?); [|done].
    pose proof Hrepr as (Hsz & Hcap & _). unfold Size in Hle.
    unfold Resize. apply wp_bind, wp_get. case_decide as Hshrink.
    + apply repr_inv in Hrepr as (_ & _ & Hblk).
      destruct Hblk as [(Hbuf & Hc0 & ->)|(b & k & Hbuf & Hb)]; [cbn in Hsz; lia|].
      rewrite sz_sub_small by lia. unfold GetAddress. rewrite Hbuf.
      unfold ptr_add. cbn [p_base p_off].
      replace (Z.of_N (size_ this - n))
        with (Z.of_nat (length (drop (N.to_nat n) xs)))
        by (rewrite length_drop; lia).
      apply wp_bind, wp_bind. eapply wp_destroy_n; [exact Hb|lia| |].
      { intros j x Hj. rewrite lookup_drop in Hj.
        replace (Z.to_nat (0 + Z.of_N n) + j) with (N.to_nat n + j) by lia.
        by apply repr_live. }
      apply wp_modify, wp_bind, wp_get. cbn [set_size size_].
      rewrite decide_False by lia. by apply wp_ret.
    + apply wp_bind, wp_ret, wp_bind, wp_get. rewrite decide_False by lia.
      by apply wp_ret.
  - intros Hnt Hsized Hfit.
    destruct (wp_returns (Resize n) this w) as ([] & ?); [|done].
    eapply wp_mono; [apply (wp_Resize n this w xs (λ _ _, False) False Hrepr Hn)|done..].
    + intros this' w' Hthrow. done.
    + intros Hbad. by apply Hbad.
Qed.
End resize.

(** ** Insertion into a list; rules for [Emplace] *)

Section inserted.
Context {A : Type}.
Implicit Types (xs : list A).

Lemma length_inserted i (v : A) xs : i ≤ length xs → length (inserted i v xs) = S (length xs).
Proof.
  intros Hi. unfold inserted. rewrite length_app, length_take. cbn.
  rewrite length_drop. lia.
Qed.

Lemma inserted_end (v : A) xs : inserted (length xs) v xs = xs ++ [v].
Proof. unfold inserted. by rewrite firstn_all, drop_all. Qed.

Lemma delete_inserted i (v : A) xs : i ≤ length xs → delete i (inserted i v xs) = xs.
Proof.
  intros Hi. unfold inserted. rewrite delete_take_drop.
  rewrite take_app_length' by (rewrite length_take; lia).
  rewrite (cons_middle v), app_assoc.
  rewrite drop_app_length' by (rewrite length_app, length_take; cbn; lia).
  apply take_drop.
Qed.

Lemma lookup_inserted i (v : A) xs : i ≤ length xs → inserted i v xs !! i = Some v.
Proof.
  intros Hi. unfold inserted. rewrite lookup_app_r by (rewrite length_take; lia).
  rewrite length_take. by replace (i - i `min` length xs) with 0 by lia.
Qed.

(** Moving the hole one place to the front. *)
Lemma inserted_step p (h h' x : A) xs :
  xs !! p = Some x →
  <[p := h']> (<[S p := x]> (inserted (S p) h xs)) = inserted p h' xs.
Proof.
  intros Hx. apply lookup_lt_Some in Hx as Hp. unfold inserted.
  rewrite (take_S_r _ _ _ Hx), (drop_S _ _ _ Hx), <-!app_assoc. cbn.
  assert (length (take p xs) = p) as Hlen by (rewrite length_take; lia).
  rewrite (insert_app_r_alt _ _ (S p)) by lia.
  rewrite Hlen. replace (S p - p) with 1 by lia. cbn.
  rewrite insert_app_r_alt by lia. rewrite Hlen, Nat.sub_diag. done.
Qed.

Lemma inserted_fill i (v : A) xs : <[i := v]> (inserted i v xs) = inserted i v xs.
Proof.
  unfold inserted. destruct (decide (i ≤ length xs)) as [Hi|Hi].
  - replace i with (length (take i xs)) at 1 by (rewrite length_take; lia).
    by rewrite insert_app_at.
  - rewrite list_insert_ge; [done|]. rewrite length_app, length_take. cbn.
    rewrite length_drop. lia.
Qed.

Lemma inserted_set i (h v : A) xs :
  i ≤ length xs → <[i := v]> (inserted i h xs) = inserted i v xs.
Proof.
  intros Hi. unfold inserted.
  replace i with (length (take i xs)) at 1 by (rewrite length_take; lia).
  by rewrite insert_app_at.
Qed.
End inserted.

Section emplace_rules.
Context {T : Type} `{!Element T} {St : Type}.
Implicit Types (w : World T) (s : St) (blk : list (cell T)) (U : Prop).

Lemma wp_move_assign_from b (od : Z) d v blk
    (Q : T → St → World T → Prop) E U s w :
  heap w !! b = Some blk → (0 ≤ od)%Z → blk !! Z.to_nat od = Some (Live d) →
  (¬ never_throws → E s (MkWorld (heap w) (EvMoveAssign d v :: trace w))) →
  Q (moved_from v) s (MkWorld (<[b := <[Z.to_nat od := Live v]> blk]> (heap w))
                              (EvMoveAssign d v :: trace w)) →
  wp (move_assign_from (Ptr (Some b) od) v) Q E U s w.
Proof.
  intros Hb Hod Hd HE HQ. unfold move_assign_from.
  apply wp_bind. eapply wp_load; [done..|].
  apply wp_bind, wp_get_trace, wp_bind, wp_emit.
  destruct (negb is_nothrow_move_assignable && move_assign_throws d v (trace w))
    eqn:Hthrow.
  - apply wp_throw, HE. intros (_ & _ & Hn & _). by rewrite Hn in Hthrow.
  - apply wp_bind. eapply wp_write_cell; cbn [heap trace]; [done| |].
    { intros Hn. exfalso. apply Hn. apply lookup_lt_Some in Hd. lia. }
    intros _. by apply wp_ret.
Qed.

Lemma wp_move_assign_at_any b (od os : Z) d v blk
    (Q : unit → St → World T → Prop) E U s w :
  heap w !! b = Some blk → (0 ≤ od)%Z → (0 ≤ os)%Z →
  blk !! Z.to_nat od = Some (Live d) → blk !! Z.to_nat os = Some (Live v) →
  (¬ never_throws → E s (MkWorld (heap w) (EvMoveAssign d v :: trace w))) →
  Q tt s (MkWorld (<[b := <[Z.to_nat os := Live (moved_from v)]>
                            (<[Z.to_nat od := Live v]> blk)]> (heap w))
                  (EvMoveAssign d v :: trace w)) →
  wp (move_assign_at (Ptr (Some b) od) (Ptr (Some b) os)) Q E U s w.
Proof.
  intros Hb Hod Hos Hd Hv HE HQ. unfold move_assign_at.
  apply wp_bind. eapply wp_load; [done..|].
  apply wp_bind. eapply wp_move_assign_from; [done..|].
  eapply wp_write_cell; cbn [heap trace]; [apply lookup_insert_eq| |].
  { intros Hn. exfalso. apply Hn. rewrite length_insert.
    apply lookup_lt_Some in Hv. lia. }
  intros _. by rewrite insert_insert_eq.
Qed.

Lemma wp_move_construct_at b (od os : Z) v blk
    (Q : unit → St → World T → Prop) E U s w :
  heap w !! b = Some blk → (0 ≤ os)%Z → blk !! Z.to_nat os = Some (Live v) →
  (¬ never_throws → E s (MkWorld (heap w) (EvCtor (MoveCtor v) :: trace w))) →
  (¬ (0 ≤ od < Z.of_nat (length blk))%Z → U) →
  ((0 ≤ od < Z.of_nat (length blk))%Z →
     Q tt s (MkWorld (<[b := <[Z.to_nat os := Live (moved_from v)]>
                               (<[Z.to_nat od := Live v]> blk)]> (heap w))
                     (EvCtor (MoveCtor v) :: trace w))) →
  wp (move_construct_at (Ptr (Some b) od) (Ptr (Some b) os)) Q E U s w.
Proof.
  intros Hb Hos Hv HE HU HQ. unfold move_construct_at.
  apply wp_bind. eapply wp_load; [done..|]. apply wp_bind.
  eapply wp_placement_new; [done| |done|].
  { intros _ Hthrow. by apply HE. }
  intros Hin. cbn [ctor_value].
  eapply wp_write_cell; cbn [heap trace]; [apply lookup_insert_eq| |].
  { intros Hn. exfalso. apply Hn. rewrite length_insert.
    apply lookup_lt_Some in Hv. lia. }
  intros _. rewrite insert_insert_eq. by apply HQ.
Qed.

(** [std::move_backward] over the elements from index [i] to the hole at
    index [n]: the hole ends at index [i]. *)
Lemma wp_std_move_backward_hole b (i n : nat) h xs post
    (Q : unit → St → World T → Prop) E U s w :
  i ≤ n → n ≤ length xs →
  heap w !! b = Some ((Live <$> inserted n h xs) ++ post) →
  (∀ w', ¬ never_throws → E s w') →
  (∀ h' tr', Q tt s (MkWorld (<[b := (Live <$> inserted i h' xs) ++ post]> (heap w))
                             (tr' ++ trace w))) →
  wp (std_move_backward (Ptr (Some b) (Z.of_nat i)) (Ptr (Some b) (Z.of_nat n))
        (Ptr (Some b) (Z.of_nat n + 1)))
     Q E U s w.
Proof.
  intros Hi Hn Hb HE HQ. unfold std_move_backward, distance. cbn [p_base p_off].
  rewrite decide_True by done.
  replace (Z.to_nat (Z.of_nat n - Z.of_nat i)) with (n - i) by lia.
  apply (wp_for_n (λ k s' w', s' = s ∧ ∃ h' tr',
    w' = MkWorld (<[b := (Live <$> inserted (n - k) h' xs) ++ post]> (heap w))
                 (tr' ++ trace w))).
  - split; [done|]. exists h, []. rewrite Nat.sub_0_r, insert_id by done.
    cbn [app]. by rewrite world_eta.
  - intros k s' w' Hk (-> & h' & tr' & ->). unfold ptr_add. cbn [p_base p_off].
    destruct (lookup_lt_is_Some_2 xs (n - S k) ltac:(lia)) as [x Hx].
    assert (Hsrc : inserted (n - k) h' xs !! (n - S k) = Some x).
    { unfold inserted. rewrite lookup_app_l by (rewrite length_take; lia).
      rewrite lookup_take_lt by lia. done. }
    assert (Hdst : inserted (n - k) h' xs !! (n - k) = Some h')
      by (apply lookup_inserted; lia).
    eapply (wp_move_assign_at_any b _ _ h' x); cbn [heap trace].
    + apply lookup_insert_eq.
    + lia.
    + lia.
    + replace (Z.to_nat (Z.of_nat n + 1 + - (1 + Z.of_nat k))) with (n - k) by lia.
      rewrite lookup_app_l by (rewrite length_fmap, length_inserted; lia).
      by rewrite list_lookup_fmap, Hdst.
    + replace (Z.to_nat (Z.of_nat n + - (1 + Z.of_nat k))) with (n - S k) by lia.
      rewrite lookup_app_l by (rewrite length_fmap, length_inserted; lia).
      by rewrite list_lookup_fmap, Hsrc.
    + intros Hthrow. by apply HE.
    + split; [done|]. exists (moved_from x), (EvMoveAssign h' x :: tr').
      rewrite insert_insert_eq. f_equal. f_equal.
      replace (Z.to_nat (Z.of_nat n + 1 + - (1 + Z.of_nat k))) with (S (n - S k)) by lia.
      replace (Z.to_nat (Z.of_nat n + - (1 + Z.of_nat k))) with (n - S k) by lia.
      replace (n - k) with (S (n - S k)) by lia.
      rewrite !insert_app_l by (rewrite ?length_insert, length_fmap, length_inserted; lia).
      f_equal. rewrite <-!list_fmap_insert. f_equal. by apply inserted_step.
  - intros s' w' (-> & h' & tr' & ->).
    replace (n - (n - i)) with i by lia. apply HQ.
Qed.
End emplace_rules.

(** ** [Emplace] on a full vector *)

Section emplace.
Context {T : Type} `{!Element T}.
Implicit Types (w : World T) (this : Vector) (xs : list T) (U : Prop).

Lemma left_behind_app xs1 xs2 :
  left_behind (xs1 ++ xs2) = left_behind xs1 ++ left_behind xs2.
Proof. unfold left_behind. destruct relocate_by_move; [apply fmap_app|done]. Qed.

Lemma block_insert_fill xs (i : nat) (v : T) cells :
  i ≤ length xs → length xs < cells →
  list_inserts (i + 1) (Live <$> drop i xs)
    (list_inserts 0 (Live <$> take i xs) (<[i := Live v]> (replicate cells Raw))) =
  (Live <$> inserted i v xs) ++ replicate (cells - S (length xs)) Raw.
Proof.
  intros Hi Hlt. unfold inserted.
  replace cells with (i + S (length xs - i + (cells - S (length xs)))) at 1 by lia.
  rewrite replicate_add. cbn [replicate].
  rewrite insert_app_r_alt by (rewrite length_replicate; lia).
  rewrite length_replicate, Nat.sub_diag. cbn [list_insert insert].
  rewrite list_inserts_0_r
    by (rewrite length_fmap, length_take, length_replicate; lia).
  replace (i + 1) with (length ((Live <$> take i xs) ++ [Live v] : list (cell T)))
    by (rewrite length_app, length_fmap, length_take; cbn; lia).
  replace ((Live <$> take i xs) ++
           Live v :: replicate (length xs - i + (cells - S (length xs))) Raw)
    with (((Live <$> take i xs) ++ [Live v]) ++
          replicate (length xs - i + (cells - S (length xs))) (Raw : cell T))
    by (by rewrite <-app_assoc).
  rewrite list_inserts_app_at, replicate_add.
  rewrite list_inserts_0_r by (by rewrite length_fmap, length_drop, length_replicate).
  rewrite fmap_app, fmap_cons, <-!app_assoc. done.
Qed.

Lemma old_block_left xs (i k : nat) :
  i ≤ length xs →
  list_inserts i (Live <$> left_behind (drop i xs))
    (list_inserts 0 (Live <$> left_behind (take i xs))
       ((Live <$> xs) ++ replicate k Raw)) =
  (Live <$> left_behind xs) ++ replicate k (Raw : cell T).
Proof.
  intros Hi. rewrite <-(take_drop i xs) at 3 4.
  rewrite left_behind_app, !fmap_app, <-!app_assoc.
  rewrite list_inserts_0_r
    by (rewrite !length_fmap, left_behind_length; done).
  replace i with (length (Live <$> left_behind (take i xs) : list (cell T))) at 1
    by (rewrite length_fmap, left_behind_length, length_take; lia).
  rewrite list_inserts_app_at. f_equal.
  apply list_inserts_0_r. by rewrite !length_fmap, left_behind_length.
Qed.

Lemma wp_migrate_n_strict {St} bs (os : Z) bd (od : Z) vs sblk dblk
    (Q : unit → St → World T → Prop) E U (s : St) w :
  heap w !! bs = Some sblk → heap w !! bd = Some dblk → bs ≠ bd →
  (0 ≤ os)%Z → (0 ≤ od)%Z →
  (∀ j v, vs !! j = Some v → sblk !! (Z.to_nat os + j) = Some (Live v)) →
  (¬ fits od (length vs) dblk → U) →
  (∀ sblk' dblk' tr', length dblk' = length dblk →
     (is_copy_constructible = true → sblk' = sblk ∧ relocate_by_move = false) →
     ¬ never_throws →
     E s (MkWorld (<[bs := sblk']> (<[bd := dblk']> (heap w))) tr')) →
  (fits od (length vs) dblk →
     Q tt s (MkWorld
               (<[bs := list_inserts (Z.to_nat os) (Live <$> left_behind vs) sblk]>
                  (<[bd := list_inserts (Z.to_nat od) (Live <$> vs) dblk]> (heap w)))
               ((EvCtor ∘ migrate_ctor <$> reverse vs) ++ trace w))) →
  wp (migrate_n (Ptr (Some bs) os) (Z.of_nat (length vs)) (Ptr (Some bd) od)) Q E U s w.
Proof.
  intros Hs Hd Hne Hos Hod Hvs HU HE HQ.
  destruct relocate_by_move eqn:Hrel.
  - unfold migrate_n, left_behind, migrate_ctor in *. rewrite Hrel in *.
    eapply wp_uninitialized_move_n; try done.
    + intros sblk' dblk' tr' Hlen Hnt Hthrow. apply HE; [done| |done].
      intros Hcc. unfold relocate_by_move in Hrel. rewrite Hnt, Hcc in Hrel. done.
    + intros Hfit. rewrite <-list_fmap_compose in HQ. by apply HQ.
  - eapply wp_migrate_n; try done.
    intros sblk' dblk' tr' Hlen Hsame Hthrow. apply HE; [done| |done].
    intros Hcc. by split; [apply Hsame|].
Qed.

Lemma wp_placement_new_nowhere {St} (o : Z) c (Q : unit → St → World T → Prop) E U
    (s : St) w :
  (∀ tr', ¬ never_throws → E s (MkWorld (heap w) tr')) → U →
  wp (placement_new (Ptr None o) c) Q E U s w.
Proof.
  intros HE HU. unfold placement_new. apply wp_bind, wp_construct; [by intros; apply HE|].
  done.
Qed.

Lemma wp_Emplace_grow this w xs (i : nat) args
    (Q : pointer → Vector → World T → Prop) E U :
  repr this w xs → size_ this = Capacity this → (0 < size_ this)%N → i ≤ length xs →
  (∀ w', ¬ never_throws → (is_copy_constructible = true → heap w' = heap w) →
         E this w') →
  (¬ (length xs < arena_cells (sz_mul (size_ this) 2)) → U) →
  (∀ a tr', heap w !! a = None → length xs < arena_cells (sz_mul (size_ this) 2) →
     Q (Ptr (Some a) (Z.of_nat i))
       (MkVector (MkRawMemory (Ptr (Some a) 0) (sz_mul (size_ this) 2))
                 (sz_add (size_ this) 1))
       (MkWorld (<[a := (Live <$> inserted i (ctor_value args) xs) ++
                        replicate (arena_cells (sz_mul (size_ this) 2) - S (length xs))
                                  Raw]>
                   (release (data_ this) (heap w)))
                (tr' ++ EvNew (arena_bytes (sz_mul (size_ this) 2)) :: trace w))) →
  wp (Emplace (begin this +ₚ Z.of_nat i) args) Q E U this w.
Proof.
  intros Hrepr Hfull Hpos Hi HE HU HQ. unfold Emplace. apply wp_bind, wp_get.
  rewrite decide_True by done.
  apply repr_inv in Hrepr as (Hsz & Hcap & Hblk).
  destruct Hblk as [(Hbuf & Hc0 & ->)|(b & k & Hbuf & Hb)]; [cbn in Hsz; lia|].
  assert (Hdist : distance (cbegin this) (begin this +ₚ Z.of_nat i) = Some (Z.of_nat i)).
  { unfold distance, cbegin, begin, GetAddress. rewrite Hbuf. cbn.
    rewrite decide_True by done. f_equal. lia. }
  assert (Hts : to_size_t (Z.of_nat i) = N.of_nat i).
  { apply to_size_t_small. unfold size_max in *. lia. }
  pose proof (arena_cells_le (sz_mul (size_ this) 2)) as Hcells.
  fold (arena_bytes (sz_mul (size_ this) 2)).
  apply wp_bind, wp_RawMemory_ctor.
  - intros _ Hthrow. by apply HE.
  - intros Hz. apply wp_scoped. rewrite Hdist, Hts.
    assert (U) as HU' by (apply HU; rewrite Hz in Hcells |- *; lia).
    unfold RawMemory_plus. cbn [capacity_ buffer_].
    case_decide; [|by apply wp_undefined].
    apply wp_bind, wp_ret. unfold ptr_add, nullptr. cbn [p_base p_off].
    apply wp_bind, wp_placement_new_nowhere; [|done].
    intros tr' Hthrow. cbn [fst snd]. unfold RawMemory_dtor, Deallocate. cbn [buffer_].
    apply wp_operator_delete_null. apply HE; [done|]. done.
  - intros Hnz a Ha. apply wp_scoped. rewrite Hdist, Hts.
    assert (b ≠ a) as Hab by congruence.
    fold (arena_bytes (sz_mul (size_ this) 2)).
    fold (arena_cells (sz_mul (size_ this) 2)).
    unfold RawMemory_plus. cbn [capacity_ buffer_].
    case_decide as Hle; [|apply wp_undefined, HU; lia].
    apply wp_bind, wp_ret. unfold ptr_add. cbn [p_base p_off].
    apply wp_bind. eapply wp_placement_new; cbn [heap trace].
    { apply lookup_insert_eq. }
    { intros _ Hthrow. cbn [fst snd]. unfold RawMemory_dtor, Deallocate. cbn [buffer_].
      eapply wp_operator_delete; cbn [heap trace]; [apply lookup_insert_eq|].
      apply HE; [done|]. intros _. cbn [heap]. heap_eq. }
    { intros Hn. apply HU. rewrite length_replicate in Hn. lia. }
    rewrite length_replicate. intros Hin. rewrite insert_insert_eq.
    unfold GetAddress. cbn [buffer_]. rewrite Hbuf. apply wp_bind.
    replace (Z.of_nat i) with (Z.of_nat (length (take i xs))) at 1
      by (rewrite length_take; lia).
    eapply wp_migrate_n_strict; cbn [heap trace].
    { rewrite lookup_insert_ne by done. exact Hb. }
    { apply lookup_insert_eq. }
    { done. }
    { done. }
    { done. }
    { intros j v Hj. apply lookup_take_Some in Hj as [Hj _]. by apply repr_live. }
    { intros Hnf. exfalso. apply Hnf. right.
      rewrite length_insert, length_replicate, length_take. lia. }
    { intros sblk' dblk' tr' _ Hsame Hthrow. cbn [fst snd].
      unfold RawMemory_dtor, Deallocate. cbn [buffer_].
      eapply wp_operator_delete; cbn [heap trace].
      { rewrite lookup_insert_ne by done. apply lookup_insert_eq. }
      apply HE; [done|]. intros Hcc. destruct (Hsame Hcc) as [-> _]. cbn [heap].
      heap_eq. }
    intros _. apply wp_bind. unfold ptr_add. cbn [p_base p_off].
    rewrite sz_sub_small by lia.
    replace (Z.of_N (size_ this - N.of_nat i)) with (Z.of_nat (length (drop i xs)))
      by (rewrite length_drop; lia).
    eapply wp_migrate_n_strict; cbn [heap trace].
    { apply lookup_insert_eq. }
    { rewrite lookup_insert_ne by done. apply lookup_insert_eq. }
    { done. }
    { lia. }
    { lia. }
    { intros j v Hj. rewrite lookup_drop in Hj.
      rewrite list_lookup_inserts_ge
        by (rewrite length_fmap, left_behind_length, length_take; lia).
      replace (Z.to_nat (0 + Z.of_nat i) + j) with (Z.to_nat 0 + (i + j)) by lia.
      by apply repr_live. }
    { intros Hnf. apply HU. intros Hlt. apply Hnf. right.
      rewrite length_inserts, length_insert, length_replicate, length_drop. lia. }
    { intros sblk' dblk' tr' _ Hsame Hthrow. cbn [fst snd].
      unfold RawMemory_dtor, Deallocate. cbn [buffer_].
      eapply wp_operator_delete; cbn [heap trace].
      { rewrite lookup_insert_ne by done. apply lookup_insert_eq. }
      apply HE; [done|]. intros Hcc. destruct (Hsame Hcc) as [-> Hrel]. cbn [heap].
      unfold left_behind. rewrite Hrel.
      rewrite (list_inserts_same _ _ ((Live <$> xs) ++ replicate k Raw)).
      - heap_eq.
      - intros j x Hj. rewrite list_lookup_fmap in Hj.
        destruct (take i xs !! j) as [y|] eqn:Hy; [|done]. cbn in Hj. injection Hj as <-.
        apply lookup_take_Some in Hy as [Hy _]. by apply (repr_live k xs j y). }
    intros Hfit.
    assert (Hlt : length xs < arena_cells (sz_mul (size_ this) 2)).
    { destruct Hfit as [Hz|Hfit].
      - rewrite length_drop in Hz. lia.
      - rewrite length_inserts, length_insert, length_replicate, length_drop in Hfit.
        lia. }
    change (Z.to_nat 0) with 0.
    replace (Z.to_nat (0 + Z.of_nat i)) with i by lia.
    replace (Z.to_nat (0 + Z.of_nat i + 1)) with (i + 1) by lia.
    replace (Z.to_nat (0 + Z.of_N (N.of_nat i))) with i by lia.
    rewrite old_block_left, block_insert_fill by done.
    apply wp_bind. rewrite <-(left_behind_length xs) in Hsz.
    replace (Z.of_N (size_ this)) with (Z.of_nat (length (left_behind xs))) by lia.
    eapply wp_destroy_n; cbn [heap trace].
    { apply lookup_insert_eq. }
    { done. }
    { intros j v. apply repr_live. }
    apply wp_bind, wp_modify, wp_bind, wp_modify, wp_bind, wp_get, wp_ret.
    cbn [swap_data RawMemory_Swap fst snd data_ buffer_ capacity_ set_size size_].
    unfold RawMemory_dtor, Deallocate. cbn [buffer_]. rewrite Hbuf.
    eapply wp_operator_delete; cbn [heap trace].
    { apply lookup_insert_eq. }
    unfold begin, GetAddress, ptr_add. cbn [data_ buffer_ p_base p_off].
    eapply post_eq;
      [apply (HQ a (EvDelete b :: (EvDtor <$> reverse (left_behind xs)) ++
                    (EvCtor ∘ migrate_ctor <$> reverse (drop i xs)) ++
                    (EvCtor ∘ migrate_ctor <$> reverse (take i xs)) ++
                    [EvCtor args]) Ha Hlt)|..].
    + done.
    + unfold release. rewrite Hbuf. cbn [p_base]. heap_eq.
    + cbn. by rewrite <-!app_assoc.
Qed.
End emplace.

(** ** [Emplace] with room left *)

Section emplace_in_place.
Context {T : Type} `{!Element T}.
Implicit Types (w : World T) (this : Vector) (xs : list T) (U : Prop).

Lemma block_open_hole xs (z : T) (k : nat) :
  <[length xs := Live (moved_from z)]>
    (<[S (length xs) := Live z]> ((Live <$> xs ++ [z]) ++ replicate (S k) Raw)) =
  (Live <$> inserted (length xs) (moved_from z) (xs ++ [z])) ++ replicate k Raw.
Proof.
  unfold inserted. rewrite take_app_length, drop_app_length.
  rewrite !fmap_app, <-!app_assoc. cbn.
  rewrite (insert_app_r_alt _ _ (S (length xs))) by (rewrite length_fmap; lia).
  rewrite length_fmap. replace (S (length xs) - length xs) with 1 by lia. cbn.
  rewrite insert_app_r_alt by (rewrite length_fmap; lia).
  by rewrite length_fmap, Nat.sub_diag.
Qed.

Lemma wp_Emplace_place this w xs (i : nat) args
    (Q : pointer → Vector → World T → Prop) E U :
  repr this w xs → (size_ this < Capacity this)%N → i < length xs →
  (∀ w', ¬ never_throws → E this w') →
  (∀ b, buffer_ (data_ this) = Ptr (Some b) 0 → heap w !! b = Some (Live <$> xs) → U) →
  (∀ b k tr', buffer_ (data_ this) = Ptr (Some b) 0 →
     heap w !! b = Some ((Live <$> xs) ++ replicate (S k) Raw) →
     Q (Ptr (Some b) (Z.of_nat i)) (set_size (sz_add (size_ this) 1) this)
       (MkWorld (<[b := (Live <$> inserted i (ctor_value args) xs) ++ replicate k Raw]>
                   (heap w))
                (tr' ++ trace w))) →
  wp (Emplace (begin this +ₚ Z.of_nat i) args) Q E U this w.
Proof.
  intros Hrepr Hroom Hi HE HU HQ. unfold Emplace. apply wp_bind, wp_get.
  unfold Capacity in Hroom.
  apply repr_inv in Hrepr as (Hsz & Hcap & Hblk).
  rewrite decide_False by (unfold Capacity; lia). rewrite decide_True by lia.
  destruct Hblk as [(Hbuf & Hc0 & ->)|(b & k & Hbuf & Hb)]; [cbn in Hi; lia|].
  assert (distance (cbegin this) (begin this +ₚ Z.of_nat i) = Some (Z.of_nat i)) as ->.
  { unfold distance, cbegin, begin, GetAddress. rewrite Hbuf. cbn.
    rewrite decide_True by done. f_equal. lia. }
  assert (Hts : to_size_t (Z.of_nat i) = N.of_nat i).
  { apply to_size_t_small. unfold size_max in *. lia. }
  destruct (exists_last (l := xs)) as (front & z & ->); [intros ->; cbn in Hi; lia|].
  rewrite length_app in Hsz, Hi. cbn [length] in Hsz, Hi.
  assert (HE' : ∀ (copy_elem : T) w',
    ¬ never_throws →
    wp (destroy_local (this, copy_elem).2) (λ _ s'' w'', E s'' w'') (λ _ _, U) U
       (this, copy_elem).1 w').
  { intros copy_elem w' Hthrow. apply wp_destroy_local. by apply HE. }
  apply wp_bind, wp_construct.
  { intros _ Hthrow. by apply HE. }
  apply wp_scoped. unfold RawMemory_plus. rewrite decide_True by lia.
  apply wp_bind, wp_ret. unfold RawMemory_index.
  rewrite sz_sub_small, Hts by lia.
  rewrite (decide_True (P := (size_ this - 1 < capacity_ (data_ this))%N)) by lia.
  rewrite (decide_True (P := (N.of_nat i < capacity_ (data_ this))%N)) by lia.
  apply wp_bind, wp_ret. rewrite Hbuf. unfold ptr_add. cbn [p_base p_off].
  apply wp_bind.
  eapply (wp_move_construct_at b _ _ z); cbn [heap trace].
  { exact Hb. }
  { lia. }
  { replace (Z.to_nat (0 + Z.of_N (size_ this - 1))) with (length front) by lia.
    rewrite lookup_app_l by (rewrite length_fmap, length_app; cbn; lia).
    rewrite list_lookup_fmap, lookup_app_r, Nat.sub_diag by lia. done. }
  { intros Hthrow. by apply HE'. }
  { intros Hn. destruct k as [|k].
    - apply (HU b Hbuf). by rewrite app_nil_r in Hb.
    - exfalso. apply Hn.
      rewrite length_app, length_fmap, length_app, length_replicate. cbn. lia. }
  intros Hin. destruct k as [|k].
  { rewrite length_app, length_fmap, length_app in Hin. cbn in Hin. lia. }
  replace (Z.to_nat (0 + Z.of_N (size_ this - 1))) with (length front) by lia.
  replace (Z.to_nat (0 + Z.of_N (size_ this))) with (S (length front)) by lia.
  rewrite block_open_hole. apply wp_bind.
  unfold begin, end_, GetAddress. rewrite Hbuf. unfold ptr_add. cbn [p_base p_off].
  replace (0 + Z.of_nat i)%Z with (Z.of_nat i) by lia.
  replace (0 + Z.of_N (size_ this) + -1)%Z with (Z.of_nat (length front)) by lia.
  replace (0 + Z.of_N (size_ this))%Z with (Z.of_nat (length front) + 1)%Z by lia.
  eapply (wp_std_move_backward_hole b i (length front) (moved_from z) (front ++ [z])
            (replicate k Raw)); cbn [heap trace].
  { lia. }
  { rewrite length_app. cbn. lia. }
  { apply lookup_insert_eq. }
  { intros w' Hthrow. by apply HE'. }
  intros h' tr'. rewrite insert_insert_eq.
  apply wp_bind, wp_ret. cbn [p_base p_off]. apply wp_bind.
  eapply (wp_move_assign_from b _ h'); cbn [heap trace].
  { apply lookup_insert_eq. }
  { lia. }
  { replace (Z.to_nat (0 + Z.of_N (N.of_nat i))) with i by lia.
    rewrite lookup_app_l
      by (rewrite length_fmap, length_inserted; rewrite length_app; cbn; lia).
    rewrite list_lookup_fmap, lookup_inserted by (rewrite length_app; cbn; lia).
    done. }
  { intros Hthrow. by apply HE'. }
  apply wp_bind, wp_modify, wp_bind, wp_get, wp_ret. cbn [fst snd].
  apply wp_destroy_local. rewrite insert_insert_eq.
  unfold begin, GetAddress. cbn [set_size data_]. rewrite Hbuf. cbn [p_base p_off].
  eapply post_eq;
    [apply (HQ b k (EvDtor (moved_from (ctor_value args)) ::
                    EvMoveAssign h' (ctor_value args) :: tr' ++
                    [EvCtor (MoveCtor z); EvCtor args]) Hbuf Hb)|..].
  - done.
  - f_equal. replace (Z.to_nat (0 + Z.of_N (N.of_nat i))) with i by lia.
    rewrite insert_app_l
      by (rewrite length_fmap, length_inserted; rewrite length_app; cbn; lia).
    rewrite <-list_fmap_insert, inserted_set by (rewrite length_app; cbn; lia).
    done.
  - cbn. by rewrite <-!app_assoc.
Qed.
End emplace_in_place.

(** ** [Emplace], the rule *)

Section emplace_claims.
Context {T : Type} `{!Element T}.
Implicit Types (w : World T) (this : Vector) (xs : list T) (U : Prop).

Lemma wp_Emplace_empty this w args (pos : pointer)
    (Q : pointer → Vector → World T → Prop) E U :
  repr this w [] →
  (∀ w', ¬ never_throws → E this w') →
  (¬ (sized this w ∧ room_to_double this) → U) →
  (∀ this' w', repr this' w' [ctor_value args] → Size this' = 1%N →
     ((Size this < Capacity this)%N → data_ this' = data_ this) →
     (Size this = Capacity this →
        Capacity this' = grown (Size this) ∧
        block_at (buffer_ (data_ this')) w = None) →
     Q (begin this') this' w') →
  wp (Emplace pos args) Q E U this w.
Proof.
  intros Hrepr HE HU HQ. pose proof Hrepr as (Hsz & Hcap & _). cbn in Hsz.
  unfold Emplace. apply wp_bind, wp_get.
  rewrite decide_False by lia. rewrite decide_False by lia.
  unfold EmplaceBack. apply wp_bind, wp_bind.
  assert (Hfin : ∀ this' w', repr this' w' [ctor_value args] → Size this' = 1%N →
    ((Size this < Capacity this)%N → data_ this' = data_ this) →
    (Size this = Capacity this →
       Capacity this' = grown (Size this) ∧
       block_at (buffer_ (data_ this')) w = None) →
    wp (this0 ← get; RawMemory_index (data_ this0) (sz_sub (size_ this0) 1))
       (λ _ s' w'0, wp (this0 ← get; mret (GetAddress (data_ this0))) Q E U s' w'0)
       E U this' w').
  { intros this' w' Hrepr' Hsize Hkeep Hnew. apply wp_bind, wp_get.
    pose proof Hrepr' as (Hsz' & Hcap' & _). cbn in Hsz'.
    unfold RawMemory_index. rewrite sz_sub_small by lia.
    rewrite decide_True by lia. apply wp_ret, wp_bind, wp_get, wp_ret.
    by apply HQ. }
  destruct (decide (Size this = Capacity this)) as [Hfull|Hroom].
  - eapply wp_mono;
      [apply (wp_append_grew _ _ (ctor_value args) this w [] E U);
         [done|done|apply emplaces_placement_new|done|]| |done|done].
    + intros Hbad. apply HU. intros (_ & Hdouble). apply Hbad. by eapply room_cells.
    + cbn beta. intros _ this' w' (Hcap' & Hsize' & Hrepr' & _ & Hfresh & _).
      apply Hfin; [done| |unfold Size, Capacity in *; lia|].
      * unfold Size in *. lia.
      * intros _. split; [|done]. rewrite Hcap'. unfold grown, Size.
        by rewrite !decide_True by lia.
  - assert (Size this < Capacity this)%N as Hlt by (unfold Size, Capacity in *; lia).
    eapply wp_mono;
      [apply (wp_append_in_place _ _ (ctor_value args) this w [] E U);
         [done|done|apply emplaces_placement_new|done|]| |done|done].
    + intros Hbad. apply HU. by intros (? & _).
    + cbn beta. intros _ this' w' (Hdata & Hsize' & Hrepr' & _).
      apply Hfin; [done| |done|]; [unfold Size in *; lia|].
      intros Hfull. unfold Size, Capacity in *. lia.
Qed.
Lemma begin_plus_0 this : begin this +ₚ Z.of_nat 0 = begin this.
Proof.
  unfold ptr_add. destruct (begin this) as [base off]. cbn. f_equal. lia.
Qed.

Lemma wp_Emplace this w xs (i : nat) args E U :
  repr this w xs → can_emplace this xs i →
  (∀ w', ¬ never_throws → E this w') →
  (¬ (sized this w ∧ room_to_double this) → U) →
  wp (Emplace (begin this +ₚ Z.of_nat i) args)
     (λ p this' w', emplaced this w xs i (ctor_value args) p this' w') E U this w.
Proof.
  intros Hrepr (Hi & Hend) HE HU. pose proof Hrepr as (Hsz & Hcap & _).
  assert (Hcell : ∀ this' w', repr this' w' (inserted i (ctor_value args) xs) →
    cell_at (begin this' +ₚ Z.of_nat i) w' = Some (Live (ctor_value args))).
  { intros this' w' Hrepr'. eapply repr_cell; [done|]. by apply lookup_inserted. }
  destruct (decide (xs = [])) as [->|Hne].
  - cbn in Hi. assert (i = 0) as -> by lia.
    eapply wp_Emplace_empty; [done|done|done|].
    intros this' w' Hrepr' Hsize Hkeep Hnew. unfold emplaced. rewrite begin_plus_0.
    split; [done|]. split; [by apply repr_elements|].
    split; [unfold Size in *; cbn in Hsz; lia|]. split; [done|].
    split; [|done]. rewrite <-(begin_plus_0 this'). by apply Hcell.
  - assert (0 < size_ this)%N as Hpos by (destruct xs; [done|cbn in Hsz; lia]).
    destruct (decide (size_ this = Capacity this)) as [Hfull|Hroom].
    + pose proof (arena_cells_le (sz_mul (size_ this) 2)) as Hcells.
      assert (Hgm : (sz_mul (size_ this) 2 < size_max)%N).
      { unfold sz_mul, wrap, size_max. by apply N.mod_lt. }
      eapply wp_Emplace_grow; [done|done|done|done| | |].
      * intros w' Hthrow _. by apply HE.
      * intros Hbad. apply HU. intros (_ & Hdouble). apply Hbad.
        pose proof (room_cells this xs w Hrepr Hfull Hdouble) as Hrc.
        unfold grown in Hrc. by rewrite decide_False in Hrc by lia.
      * intros a tr' Ha Hlt.
        assert (repr (MkVector (MkRawMemory (Ptr (Some a) 0) (sz_mul (size_ this) 2))
                        (sz_add (size_ this) 1))
                  (MkWorld
                     (<[a := (Live <$> inserted i (ctor_value args) xs) ++
                             replicate (arena_cells (sz_mul (size_ this) 2) -
                                        S (length xs)) Raw]>
                        (release (data_ this) (heap w)))
                     (tr' ++ EvNew (arena_bytes (sz_mul (size_ this) 2)) :: trace w))
                  (inserted i (ctor_value args) xs)) as Hrepr'.
        { eapply repr_block'; cbn [heap]; [apply lookup_insert_eq|..].
          - rewrite sz_add_small by lia. rewrite length_inserted by done. lia.
          - rewrite sz_add_small by lia. lia. }
        split; [done|]. split; [by apply repr_elements|].
        split; [unfold Size; cbn; apply sz_add_small; lia|]. split; [done|].
        split; [by apply (Hcell _ _ Hrepr')|].
        split; [unfold Size, Capacity in *; lia|]. intros _.
        split; [unfold Capacity, grown, Size; cbn; by rewrite decide_False by lia|].
        unfold block_at. by cbn.
    + assert (i < length xs) as Hlt.
      { destruct (decide (i = length xs)) as [Heq|]; [|lia].
        destruct (Hend Heq) as [?|?]; [done|]. unfold Size in *. done. }
      assert (size_ this < Capacity this)%N as Hroom' by (unfold Capacity in *; lia).
      eapply wp_Emplace_place; [done|done|done|done| |].
      * intros b Hbuf Hb. apply HU. intros (Hsized & _).
        pose proof (sized_inv _ _ _ _ Hsized Hbuf Hb) as Hlen.
        rewrite length_fmap in Hlen. unfold Capacity in *. lia.
      * intros b k tr' Hbuf Hb.
        assert (repr (set_size (sz_add (size_ this) 1) this)
                  (MkWorld
                     (<[b := (Live <$> inserted i (ctor_value args) xs) ++
                             replicate k Raw]> (heap w))
                     (tr' ++ trace w))
                  (inserted i (ctor_value args) xs)) as Hrepr'.
        { destruct this as [[buf cap] sz]. unfold Capacity in *. cbn in *. subst buf.
          eapply repr_block'; cbn [heap]; [apply lookup_insert_eq|..].
          - rewrite sz_add_small by lia. rewrite length_inserted by done. lia.
          - rewrite sz_add_small by lia. lia. }
        split; [done|]. split; [by apply repr_elements|].
        split; [unfold Size; cbn; apply sz_add_small; unfold Capacity in *; lia|].
        split; [unfold begin, GetAddress, ptr_add; cbn; rewrite Hbuf; cbn;
                f_equal; try lia|].
        split.
        { replace (Ptr (Some b) (Z.of_nat i))
            with (begin (set_size (sz_add (size_ this) 1) this) +ₚ Z.of_nat i).
          - by apply (Hcell _ _ Hrepr').
          - unfold begin, GetAddress, ptr_add. cbn. rewrite Hbuf. cbn.
            f_equal; try lia. }
        split; [done|]. intros Hfull. unfold Size, Capacity in *. lia.
Qed.
End emplace_claims.

(** ** [Emplace] and [Insert], the statements *)

Section insert_claims.
Context {T : Type} `{!Element T}.
Implicit Types (w : World T) (this : Vector) (xs : list T) (U : Prop).

(** Property X14.  [Emplace] and [Insert] at the position [begin() + i] (at
    [end()] only for an empty or a full vector) which return have put the
    new value before the [i]-th element and added one to the size; the result
    is [begin() + i] of the vector they leave and points to the new element.
    With room left the storage is kept; a full vector goes to a fresh block
    of twice the size, or of one element.  [Emplace] returns when nothing
    throws and the doubled capacity fits [size_t]. *)
Theorem Emplace_inserts_at_position this w xs (i : nat) :
  repr this w xs → can_emplace this xs i →
  (∀ args p this' w',
     Emplace (begin this +ₚ Z.of_nat i) args this w = (Ok p, this', w') →
     emplaced this w xs i (ctor_value args) p this' w') ∧
  (∀ v p this' w',
     Insert (begin this +ₚ Z.of_nat i) v this w = (Ok p, this', w') →
     emplaced this w xs i v p this' w') ∧
  (∀ v p this' w',
     Insert_move (begin this +ₚ Z.of_nat i) v this w = (Ok p, this', w') →
     emplaced this w xs i v p this' w') ∧
  (never_throws → sized this w → room_to_double this →
     ∀ args, ∃ p this' w',
       Emplace (begin this +ₚ Z.of_nat i) args this w = (Ok p, this', w')).
Proof.
  intros Hrepr Hpos.
  assert (Hok : ∀ args p this' w',
    Emplace (begin this +ₚ Z.of_nat i) args this w = (Ok p, this', w') →
    emplaced this w xs i (ctor_value args) p this' w').
  { intros args p this' w' Hrun.
    pose proof (wp_Emplace this w xs i args (λ _ _, True) True Hrepr Hpos
                  ltac:(done) ltac:(done)) as H.
    exact (wp_Ok _ _ _ _ _ _ _ _ _ H Hrun). }
  split; [exact Hok|]. split; [|split].
  - intros v p this' w' Hrun. exact (Hok (CopyCtor v) p this' w' Hrun).
  - intros v p this' w' Hrun. exact (Hok (MoveCtor v) p this' w' Hrun).
  - intros Hnt Hsized Hdouble args. apply wp_returns.
    eapply wp_mono; [apply (wp_Emplace this w xs i args (λ _ _, False) False Hrepr Hpos)
                    |done..].
    + intros w' Hthrow. done.
    + intros Hbad. by apply Hbad.
Qed.

(** Property X15.  For an element type whose move assignment cannot throw, and
    a position at which [Insert] inserts ([can_emplace]: not [end()] of a
    vector which is neither empty nor full), [Erase] at the position an
    [Insert] returned gives back the elements and the size from before the
    [Insert], and returns that position. *)
Theorem Insert_then_Erase_restores this w xs (i : nat) v p this1 w1 :
  is_nothrow_move_assignable = true →
  repr this w xs → can_emplace this xs i →
  Insert (begin this +ₚ Z.of_nat i) v this w = (Ok p, this1, w1) →
  ∃ this2 w2,
    Erase p this1 w1 = (Ok p, this2, w2) ∧
    repr this2 w2 xs ∧ elements this2 w2 = Some xs ∧ Size this2 = Size this.
Proof.
  intros Hnt Hrepr Hpos Hrun.
  pose proof (wp_Emplace this w xs i (CopyCtor v) (λ _ _, True) True Hrepr Hpos
                ltac:(done) ltac:(done)) as H.
  pose proof (wp_Ok _ _ _ _ _ _ _ _ _ H Hrun) as (Hrepr1 & _ & Hsize & -> & _).
  destruct Hpos as (Hi & _). cbn [ctor_value] in *.
  destruct (Erase_nothrow this1 w1 (inserted i v xs) i v Hnt Hrepr1
              (lookup_inserted i v xs Hi)) as (w2 & Hrun2 & Hrepr2 & _).
  rewrite delete_inserted in Hrepr2 by done.
  eexists _, w2. split; [exact Hrun2|]. split; [done|].
  split; [by apply repr_elements|].
  unfold Size. cbn. rewrite length_inserted by done.
  pose proof Hrepr as (Hsz & _). lia.
Qed.

(** Property X16.  When [Emplace] on a full vector ends in an exception, for an
    element type with a copy constructor, the vector is the object it was,
    with its elements, and the free store is the one it was. *)
Theorem Emplace_failure_on_full_vector_leaves_it_unchanged this w xs (i : nat) :
  is_copy_constructible = true → repr this w xs → i ≤ length xs →
  Size this = Capacity this →
  ∀ args this' w',
    Emplace (begin this +ₚ Z.of_nat i) args this w = (Throw, this', w') →
    untouched this w xs this' w'.
Proof.
  intros Hcc Hrepr Hi Hfull args this' w' Hrun. revert Hrun.
  eapply (wp_Throw _ (λ _ _ _, True) (λ this' w', untouched this w xs this' w') True).
  pose proof Hrepr as (Hsz & Hcap & _). unfold Size in Hfull.
  destruct (decide (0 < size_ this)%N) as [Hpos|Hzero].
  - eapply wp_Emplace_grow; [done|done|done|done| |done|done].
    intros w1 _ Hheap. apply untouched_intro; [done|]. by apply Hheap.
  - unfold Emplace. apply wp_bind, wp_get.
    rewrite decide_False by lia. rewrite decide_False by done.
    unfold EmplaceBack. apply wp_bind, wp_bind.
    eapply wp_mono;
      [eapply wp_append_untouched; [done|done|apply emplaces_placement_new..]
      | |done|done].
    cbn beta. intros _ this1 w2 _. apply wp_bind, wp_get.
    unfold RawMemory_index. case_decide; [|done].
    by apply wp_ret, wp_bind, wp_get, wp_ret.
Qed.


End insert_claims.

(** ** The vector stays well formed *)

Section invariant.
Context {T : Type} `{!Element T}.
Implicit Types (w : World T) (this : Vector) (xs : list T) (U : Prop).




Lemma wp_Emplace_defined this w xs (i : nat) args :
  repr this w xs → sized this w → room_to_double this → i ≤ N.to_nat (size_ this) →
  (i = N.to_nat (size_ this) → size_ this = 0%N ∨ size_ this = Capacity this) →
  wp (Emplace (begin this +ₚ Z.of_nat i) args) (λ _ _ _, True) (λ _ _, True) False
     this w.
Proof.
  intros Hrepr Hsized Hroom Hi Hend. pose proof Hrepr as (Hsz & Hcap & _).
  assert (can_emplace this xs i) as Hpos.
  { split; [lia|]. intros ->. destruct Hend as [Hz|Hfull]; [lia| |by right].
    left. destruct xs; [done|]. cbn in Hsz. lia. }
  eapply wp_mono; [apply (wp_Emplace this w xs i args (λ _ _, True) False);
                     [done|done|done|]
                  |done..].
  intros Hbad. by apply Hbad.
Qed.



Lemma wp_append_defined grow_at place_at v this w xs :
  repr this w xs → sized this w → room_to_double this →
  emplaces grow_at v → emplaces place_at v →
  wp (append_with grow_at place_at) (λ _ this' w', repr this' w' (xs ++ [v]))
     (λ _ _, True) False this w.
Proof.
  intros Hrepr Hsized Hroom Hgrow Hplace.
  destruct (decide (Size this = Capacity this)) as [Hfull|Hnfull].
  - eapply wp_mono;
      [apply (wp_append_grew grow_at place_at v this w xs (λ _ _, True) False);
         [done|done|done|done|]
      | |done|done].
    + intros Hbad. apply Hbad. by eapply room_cells.
    + by intros _ this' w' (_ & _ & ? & _).
  - pose proof Hrepr as (_ & Hcap & _).
    eapply wp_mono;
      [apply (wp_append_in_place grow_at place_at v this w xs (λ _ _, True) False);
         [done|unfold Size, Capacity in *; lia|done|done|]
      | |done|done].
    + intros Hbad. by apply Hbad.
    + by intros _ this' w' (_ & _ & ? & _).
Qed.

Lemma wp_run_call_defined this w xs c :
  repr this w xs → defined_call this w c →
  wp (run_call c) (λ _ _ _, True) (λ _ _, True) False this w.
Proof.
  intros Hrepr (Hsized & Hc). pose proof Hrepr as (Hsz & Hcap & _).
  assert (Hunit : ∀ A (m : M T Vector A),
            wp m (λ _ _ _, True) (λ _ _, True) False this w →
            wp (m;; mret tt) (λ _ _ _, True) (λ _ _, True) False this w).
  { intros A m Hm. apply wp_bind. eapply wp_mono; [exact Hm| |done|done]. by intros. }
  assert (Hpos : (1 ≤ N.pos sizeof)%N) by lia.
  destruct c as [n|n|v|v|args| |pos args|pos v|pos v|pos|[rhs|]|i];
    cbn [run_call] in *.
  - eapply wp_Reserve; [done|done|]. intros Hlt. split; [done|].
    split; [|done]. intros Hbad _. apply Hbad. rewrite arena_cells_exact by done.
    unfold Capacity in Hlt. lia.
  - eapply wp_mono; [apply (wp_Resize n this w xs (λ _ _, True) False);
                       [done|nia|done|]| |done|done].
    + intros Hbad. by apply Hbad.
    + done.
  - eapply wp_mono; [apply (wp_append_defined _ _ v this w xs);
                       [done|done|done|apply emplaces_braced
                       |apply emplaces_placement_new]
                    |done..].
  - eapply wp_mono;
      [apply (wp_append_defined _ _ (ctor_value (MoveCtor v)) this w xs);
         [done|done|done|apply emplaces_placement_new|apply emplaces_placement_new]
      |done..].
  - apply Hunit. unfold EmplaceBack. apply wp_bind.
    eapply wp_mono;
      [apply (wp_append_defined _ _ (ctor_value args) this w xs);
         [done|done|done|apply emplaces_placement_new|apply emplaces_placement_new]
      | |done|done].
    cbn beta. intros _ this1 w1 (Hsz1 & Hcap1 & _). apply wp_bind, wp_get.
    rewrite length_app in Hsz1. cbn in Hsz1.
    unfold RawMemory_index. rewrite sz_sub_small by lia.
    rewrite decide_True by lia. by apply wp_ret.
  - eapply wp_PopBack; [done|done|done].
  - destruct Hc as (Hroom & i & Hi & Hend & ->). apply Hunit.
    by apply (wp_Emplace_defined this w xs i args).
  - destruct Hc as (Hroom & i & Hi & Hend & ->). apply Hunit.
    by apply (wp_Emplace_defined this w xs i (CopyCtor v)).
  - destruct Hc as (Hroom & i & Hi & Hend & ->). apply Hunit.
    by apply (wp_Emplace_defined this w xs i (MoveCtor v)).
  - apply Hunit. destruct Hc as [Hzero|(i & Hi & ->)].
    + unfold Erase. apply wp_bind, wp_get.
      rewrite decide_False by lia. by apply wp_ret.
    + destruct is_nothrow_move_assignable eqn:Hnt.
      * destruct (lookup_lt_is_Some_2 xs i ltac:(lia)) as [x Hx].
        destruct (Erase_nothrow this w xs i x Hnt Hrepr Hx) as (w' & Hrun & _).
        unfold wp. by rewrite Hrun.
      * destruct (exists_last (l := xs)) as (ys & y & ->);
          [intros ->; cbn in Hsz; lia|].
        rewrite length_app in Hsz. cbn in Hsz.
        destruct (Erase_unshifted this w ys y i Hnt Hrepr ltac:(lia))
          as (w' & Hrun & _).
        unfold wp. by rewrite Hrun.
  - destruct Hc as (Hsized' & ys & Hrhs & Hdis).
    eapply wp_mono;
      [apply (wp_copy_assign_copied this rhs w xs ys (λ _ _, True) False);
         [done|done|done|done|]
      |done..].
    intros Hbad. by apply Hbad.
  - by apply wp_ret.
  - apply Hunit. unfold Vector_index. apply wp_bind, wp_get.
    rewrite decide_True by done. unfold RawMemory_index.
    rewrite decide_True by lia. by apply wp_ret.
Qed.

(** Property X22.  A member function called within bounds ([defined_call]: a
    block as large as the capacity says, sizes which fit [size_t], a
    position of the vector, an index below the size) returns or throws: it
    reaches no access outside a block, no read of raw storage and no failed
    assertion. *)
Theorem member_functions_have_defined_behaviour this w xs c :
  repr this w xs → defined_call this w c →
  (run_call c this w).1.1 ≠ Undefined.
Proof.
  intros Hrepr Hdef.
  exact (wp_defined _ _ _ (wp_run_call_defined this w xs c Hrepr Hdef)).
Qed.
End invariant.

(** ** Copy assignment which fails *)

Section copy_assign_partial.
Context {T : Type} `{!Element T}.
Implicit Types (w : World T) (this rhs : Vector) (xs ys : list T) (U : Prop).

Lemma list_inserts_raw_back (i k : nat) (vs l : list (cell T)) :
  length vs = k →
  (∀ j, j < k → i + j < length l → l !! (i + j) = Some Raw) →
  list_inserts i (replicate k Raw) (list_inserts i vs l) = l.
Proof.
  intros Hlen Hraw. apply list_eq. intros n.
  destruct (decide (n < length l)) as [Hn|Hn].
  - destruct (decide (i ≤ n < i + k)) as [Hin|Hout].
    + rewrite list_lookup_inserts
        by (rewrite ?length_replicate, ?length_inserts; lia).
      rewrite lookup_replicate_2 by lia.
      replace n with (i + (n - i)) at 1 by lia. symmetry. apply Hraw; lia.
    + destruct (decide (n < i)).
      * by rewrite !list_lookup_inserts_lt by lia.
      * by rewrite !list_lookup_inserts_ge by (rewrite ?length_replicate; lia).
  - rewrite !lookup_ge_None_2; [done|lia|rewrite !length_inserts; lia].
Qed.

Lemma wp_assign_prefix_partial {St} (dst src : RawMemory) bd bs ds vs drest sblk
    (Q : unit → St → World T → Prop) E U (s : St) w :
  buffer_ dst = Ptr (Some bd) 0 → buffer_ src = Ptr (Some bs) 0 → bd ≠ bs →
  heap w !! bd = Some ((Live <$> ds) ++ drest) → heap w !! bs = Some sblk →
  length ds = length vs →
  (N.of_nat (length vs) ≤ capacity_ dst)%N → (N.of_nat (length vs) ≤ capacity_ src)%N →
  (∀ j v, vs !! j = Some v → sblk !! j = Some (Live v)) →
  (∀ k tr', k < length vs → ¬ never_throws →
     E s (MkWorld (<[bd := (Live <$> take k vs) ++ (Live <$> drop k ds) ++ drest]>
                     (heap w)) tr')) →
  Q tt s (MkWorld (<[bd := (Live <$> vs) ++ drest]> (heap w))
                  (reverse (zip_with EvCopyAssign ds vs) ++ trace w)) →
  wp (assign_prefix dst src (N.of_nat (length vs))) Q E U s w.
Proof.
  intros Hdst Hsrc Hne Hd Hs Hlen Hcd Hcs Hvs HE HQ. unfold assign_prefix.
  rewrite Nat2N.id.
  apply (wp_for_n (λ k s' w', s' = s ∧
    w' = MkWorld (<[bd := (Live <$> take k vs) ++ (Live <$> drop k ds) ++ drest]> (heap w))
                 (reverse (zip_with EvCopyAssign (take k ds) (take k vs)) ++ trace w))).
  - split; [done|]. rewrite !take_0, drop_0. cbn. rewrite insert_id by done.
    by rewrite world_eta.
  - intros k s' w' Hk [-> ->].
    destruct (lookup_lt_is_Some_2 vs k Hk) as [v Hv].
    destruct (lookup_lt_is_Some_2 ds k ltac:(lia)) as [d Hdk].
    replace (Z.to_N (0 + Z.of_nat k)) with (N.of_nat k) by lia.
    unfold RawMemory_index. rewrite !decide_True by lia.
    apply wp_bind, wp_ret, wp_bind, wp_ret.
    rewrite Hdst, Hsrc. unfold ptr_add. cbn [p_base p_off].
    assert (Hlt : length (take k vs) = k) by (rewrite length_take; lia).
    eapply (wp_copy_assign_at bd _ bs _ d v); cbn [heap trace].
    + apply lookup_insert_eq.
    + rewrite lookup_insert_ne by done. exact Hs.
    + lia.
    + lia.
    + replace (Z.to_nat (0 + Z.of_N (N.of_nat k))) with (length (Live <$> take k vs) + 0)
        by (rewrite length_fmap; lia).
      rewrite lookup_app_r, Nat.add_sub' by lia.
      rewrite (drop_S _ _ _ Hdk). done.
    + replace (Z.to_nat (0 + Z.of_N (N.of_nat k))) with k by lia. eauto.
    + intros Hthrow. by apply HE.
    + split; [done|]. rewrite insert_insert_eq. f_equal.
      * f_equal.
        replace (Z.to_nat (0 + Z.of_N (N.of_nat k))) with (length (Live <$> take k vs))
          by (rewrite length_fmap; lia).
        rewrite insert_app_at, (drop_S _ _ _ Hdk). cbn.
        rewrite (take_S_r _ _ _ Hv), fmap_app, <-app_assoc. done.
      * rewrite (take_S_r _ _ _ Hv), (take_S_r _ _ _ Hdk).
        rewrite zip_with_app by (rewrite !length_take; lia).
        cbn. by rewrite reverse_snoc.
  - intros s' w' [-> ->].
    rewrite firstn_all. rewrite <-Hlen, firstn_all, drop_all. exact HQ.
Qed.

Lemma wp_uninitialized_copy_n_rollback {St} bs (os : Z) bd (od : Z) vs sblk dblk
    (Q : unit → St → World T → Prop) E (s : St) w :
  heap w !! bs = Some sblk → heap w !! bd = Some dblk → bs ≠ bd →
  (0 ≤ os)%Z → (0 ≤ od)%Z →
  (∀ j v, vs !! j = Some v → sblk !! (Z.to_nat os + j) = Some (Live v)) →
  (∀ j, j < length vs → Z.to_nat od + j < length dblk →
     dblk !! (Z.to_nat od + j) = Some Raw) →
  (∀ tr', ¬ never_throws → E s (MkWorld (heap w) tr')) →
  (fits od (length vs) dblk →
     Q tt s (MkWorld (<[bd := list_inserts (Z.to_nat od) (Live <$> vs) dblk]> (heap w))
                     ((EvCtor ∘ CopyCtor <$> reverse vs) ++ trace w))) →
  wp (uninitialized_copy_n (Ptr (Some bs) os) (Z.of_nat (length vs)) (Ptr (Some bd) od))
     Q E True s w.
Proof.
  intros Hs Hd Hne Hos Hod Hvs Hraw HE HQ. unfold uninitialized_copy_n. rewrite Nat2Z.id.
  apply (wp_for_n (λ k s' w', s' = s ∧ fits od k dblk ∧
    w' = MkWorld (<[bd := list_inserts (Z.to_nat od) (Live <$> take k vs) dblk]> (heap w))
                 ((EvCtor ∘ CopyCtor <$> reverse (take k vs)) ++ trace w))).
  - split; [done|]. split; [by left|].
    rewrite take_0. cbn. rewrite insert_id by done. by rewrite world_eta.
  - intros k s' w' Hk (-> & Hfit & ->).
    destruct (lookup_lt_is_Some_2 vs k Hk) as [v Hv].
    unfold ptr_add. cbn [p_base p_off].
    assert (Hlk : length (take k vs) = k) by (rewrite length_take; lia).
    apply wp_catch, wp_bind.
    eapply wp_load; cbn [heap trace].
    { rewrite lookup_insert_ne by done. done. }
    { lia. }
    { replace (Z.to_nat (os + (0 + Z.of_nat k))) with (Z.to_nat os + k) by lia. eauto. }
    eapply wp_placement_new_checked; cbn [heap trace].
    + apply lookup_insert_eq.
    + intros Hthrow. apply throws_not_never in Hthrow. apply wp_bind.
      replace (0 + Z.of_nat k)%Z with (Z.of_nat (length (take k vs))) by lia.
      eapply wp_destroy_n; cbn [heap trace].
      * apply lookup_insert_eq.
      * done.
      * intros j v' Hj. apply lookup_lt_Some in Hj as Hjlt. rewrite Hlk in Hjlt.
        destruct Hfit as [->|Hfit]; [lia|].
        rewrite list_lookup_inserts by (rewrite ?length_fmap, ?Hlk; lia).
        rewrite list_lookup_fmap. replace (Z.to_nat od + j - Z.to_nat od) with j by lia.
        by rewrite Hj.
      * apply wp_throw. rewrite insert_insert_eq.
        rewrite list_inserts_raw_back.
        -- rewrite insert_id by done. by apply HE.
        -- by rewrite length_fmap.
        -- intros j Hj. rewrite Hlk in Hj. apply Hraw. lia.
    + done.
    + rewrite length_inserts. intros Hin Hok. split; [done|]. split; [right; lia|].
      rewrite insert_insert_eq. f_equal.
      * f_equal. rewrite (take_S_r _ _ _ Hv), fmap_app.
        change (Live <$> [v]) with [Live v].
        rewrite list_inserts_snoc, length_fmap, Hlk.
        cbn. f_equal. lia.
      * rewrite (take_S_r _ _ _ Hv), reverse_snoc. done.
  - intros s' w' (-> & Hfit & ->). rewrite firstn_all. by apply HQ.
Qed.

Lemma partly_assigned_intro this rhs w xs ys b kk j tr' :
  repr this w xs → repr rhs w ys → disjoint this rhs →
  buffer_ (data_ this) = Ptr (Some b) 0 →
  heap w !! b = Some ((Live <$> xs) ++ replicate kk Raw) →
  j ≤ length xs → j ≤ length ys →
  partly_assigned this rhs w xs ys this
    (MkWorld (<[b := (Live <$> (take j ys ++ drop j xs)) ++ replicate kk Raw]> (heap w))
             tr').
Proof.
  intros Hthis Hrhs Hdis Hbuf Hb Hjx Hjy.
  assert (Hrepr : repr this
    (MkWorld (<[b := (Live <$> (take j ys ++ drop j xs)) ++ replicate kk Raw]> (heap w))
             tr') (take j ys ++ drop j xs)).
  { destruct Hthis as (Hsz & Hcap & _). destruct this as [[buf cap] sz]. cbn in *.
    subst buf. eapply repr_block'; cbn [heap].
    - apply lookup_insert_eq.
    - rewrite length_app, length_take, length_drop. lia.
    - done. }
  split; [done|]. split; [|split].
  - eapply repr_frame; [|exact Hrhs]. intros bs Hbs. cbn [heap].
    apply lookup_insert_ne. intros <-.
    destruct Hdis as [Hd|Hd]; rewrite Hbuf in Hd; [done|]. cbn in Hd. congruence.
  - intros b' Hb'. cbn [heap]. apply lookup_insert_ne. rewrite Hbuf in Hb'. cbn in Hb'.
    congruence.
  - exists j. split; [done|]. split; [done|]. split; [done|by apply repr_elements].
Qed.

Lemma partly_assigned_block this rhs w xs ys this' b blk blk' tr :
  partly_assigned this rhs w xs ys this' (MkWorld (<[b := blk]> (heap w)) tr) →
  blk = blk' →
  partly_assigned this rhs w xs ys this' (MkWorld (<[b := blk']> (heap w)) tr).
Proof. by intros ? <-. Qed.

Lemma wp_copy_assign_keep_partial this rhs w xs ys :
  repr this w xs → repr rhs w ys → disjoint this rhs → (size_ rhs ≤ Capacity this)%N →
  wp (Vector_copy_assign (Some rhs)) (λ _ _ _, True)
     (λ this' w', partly_assigned this rhs w xs ys this' w') True this w.
Proof.
  intros Hthis0 Hrhs0 Hdis Hle. unfold Vector_copy_assign.
  apply wp_bind, wp_get. rewrite decide_False by (unfold Capacity in *; lia).
  pose proof Hthis0 as Hthis. pose proof Hrhs0 as Hrhs.
  apply repr_inv in Hthis as (Hsz & Hcap & Hblk).
  apply repr_inv in Hrhs as (Hsz' & Hcap' & Hblk').
  unfold Capacity in Hle.
  case_decide as Hshrink.
  - destruct Hblk as [(Hbuf & Hc0 & ->)|(b & k & Hbuf & Hb)]; [cbn in Hsz; lia|].
    rewrite sz_sub_small by lia.
    assert (Hblock : (Live <$> xs) ++ replicate k (Raw : cell T) =
                     (Live <$> take (length ys) xs) ++
                     ((Live <$> drop (length ys) xs) ++ replicate k Raw)).
    { rewrite <-(take_drop (length ys) xs) at 1. by rewrite fmap_app, <-app_assoc. }
    apply wp_bind.
    assert (Hrest : ∀ tr,
      wp
        (destroy_n (GetAddress (data_ this) +ₚ Z.of_N (size_ rhs))
           (Z.of_N (size_ this - size_ rhs)) ≫= λ _, modify (set_size (size_ rhs)))
        (λ _ _ _, True) (λ this' w', partly_assigned this rhs w xs ys this' w') True this
        (MkWorld (<[b := (Live <$> ys) ++ (Live <$> drop (length ys) xs) ++ replicate k Raw]>
                    (heap w)) tr)).
    { intros tr. apply wp_bind. unfold GetAddress. rewrite Hbuf.
      unfold ptr_add. cbn [p_base p_off].
      replace (Z.of_N (size_ this - size_ rhs)) with (Z.of_nat (length (drop (length ys) xs)))
        by (rewrite length_drop; lia).
      eapply wp_destroy_n; cbn [heap trace].
      - apply lookup_insert_eq.
      - lia.
      - intros j x Hj.
        replace (Z.to_nat (0 + Z.of_N (size_ rhs)) + j) with (length (Live <$> ys) + j)
          by (rewrite length_fmap; lia).
        rewrite lookup_app_r, Nat.add_sub' by lia.
        rewrite lookup_app_l by (rewrite length_fmap; by eapply lookup_lt_Some).
        by rewrite list_lookup_fmap, Hj.
      - by apply wp_modify. }
    destruct Hblk' as [(Hbuf' & Hc0' & ->)|(bs & k' & Hbuf' & Hb')].
    + cbn in Hsz'. rewrite Hsz'. apply wp_assign_prefix_0.
      rewrite <-Hsz'. rewrite drop_0 in *. cbn [length fmap list_fmap app] in *.
      eapply wp_world_eq; [|apply (Hrest (trace w))].
      rewrite insert_id by done. by rewrite world_eta.
    + assert (b ≠ bs) as Hne.
      { destruct Hdis as [Hd|Hd]; rewrite Hbuf in Hd; [done|]. rewrite Hbuf' in Hd.
        cbn in Hd. congruence. }
      rewrite Hsz'. pose proof Hb as Hb0. rewrite Hblock in Hb.
      eapply (wp_assign_prefix_partial _ _ b bs (take (length ys) xs) ys);
        [exact Hbuf|exact Hbuf'|exact Hne|exact Hb|exact Hb'|..].
      * rewrite length_take. lia.
      * lia.
      * lia.
      * intros j v Hj. change j with (Z.to_nat 0 + j). by apply repr_live.
      * intros j tr' Hj Hthrow.
        eapply partly_assigned_block;
          [apply (partly_assigned_intro this rhs w xs ys b k j tr');
             try done; lia|].
        rewrite fmap_app, <-!app_assoc. f_equal.
        rewrite app_assoc, <-fmap_app. f_equal. f_equal.
        rewrite <-(take_drop (length ys) xs) at 1.
        rewrite drop_app_le by (rewrite length_take; lia). done.
      * rewrite <-Hsz'. apply Hrest.
  - rewrite sz_sub_small by lia.
    destruct Hblk' as [(Hbuf' & Hc0' & ->)|(bs & k' & Hbuf' & Hb')].
    + cbn in Hsz'. assert (xs = []) as -> by (destruct xs; [done|cbn in Hsz; lia]).
      cbn in Hsz. rewrite Hsz, Hsz'. cbn [N.sub]. change (Z.of_N 0) with 0%Z.
      by apply wp_bind, wp_assign_prefix_0, wp_bind, wp_uninitialized_copy_n_0, wp_modify.
    + destruct Hblk as [(Hbuf & Hc0 & ->)|(b & k & Hbuf & Hb)].
      * cbn in Hsz. assert (ys = []) as -> by (destruct ys; [done|cbn in Hsz'; lia]).
        cbn in Hsz'. rewrite Hsz, Hsz'. cbn [N.sub]. change (Z.of_N 0) with 0%Z.
        by apply wp_bind, wp_assign_prefix_0, wp_bind, wp_uninitialized_copy_n_0,
          wp_modify.
      * assert (b ≠ bs) as Hne.
        { destruct Hdis as [Hd|Hd]; rewrite Hbuf in Hd; [done|]. rewrite Hbuf' in Hd.
          cbn in Hd. congruence. }
        apply wp_bind.
        replace (size_ this) with (N.of_nat (length (take (length xs) ys))) at 1
          by (rewrite length_take; lia).
        eapply (wp_assign_prefix_partial _ _ b bs xs (take (length xs) ys));
          [exact Hbuf|exact Hbuf'|exact Hne|exact Hb|exact Hb'|..].
        -- rewrite length_take. lia.
        -- rewrite length_take. lia.
        -- rewrite length_take. lia.
        -- intros j v Hj. apply lookup_take_Some in Hj as [Hj _].
           change j with (Z.to_nat 0 + j). by apply repr_live.
        -- intros j tr' Hj Hthrow. rewrite length_take in Hj.
           eapply partly_assigned_block;
             [apply (partly_assigned_intro this rhs w xs ys b k j tr');
                try done; lia|].
           rewrite fmap_app, <-!app_assoc. f_equal.
           rewrite take_take. f_equal. f_equal. lia.
        -- apply wp_bind. unfold GetAddress. rewrite Hbuf, Hbuf'.
           unfold ptr_add. cbn [p_base p_off].
           replace (Z.of_N (size_ rhs - size_ this))
             with (Z.of_nat (length (drop (length xs) ys)))
             by (rewrite length_drop; lia).
           eapply wp_uninitialized_copy_n_rollback; cbn [heap trace].
           ++ rewrite lookup_insert_ne by done. exact Hb'.
           ++ apply lookup_insert_eq.
           ++ done.
           ++ lia.
           ++ lia.
           ++ intros j v Hj. rewrite lookup_drop in Hj.
              replace (Z.to_nat (0 + Z.of_N (size_ this)) + j)
                with (Z.to_nat 0 + (length xs + j)) by lia.
              by apply repr_live.
           ++ intros j Hj Hin.
              rewrite length_app, length_fmap, length_take, length_replicate in Hin.
              rewrite lookup_app_r by (rewrite length_fmap, length_take; lia).
              apply lookup_replicate_2. rewrite length_fmap, length_take. lia.
           ++ intros tr' Hthrow.
              eapply partly_assigned_block;
                [apply (partly_assigned_intro this rhs w xs ys b k (length xs) tr');
                   try done; lia|].
              by rewrite drop_all, app_nil_r.
           ++ intros Hfit. by apply wp_modify.
Qed.

(** Property X19.  When a copy assignment which keeps the storage ends in an
    exception, the destination is the same object and holds the first [k]
    elements of the source and then its own from the [k]-th on, for some
    [k]; the source and the other blocks are as they were. *)
Theorem copy_assign_failure_in_place_keeps_a_valid_vector this rhs w xs ys this' w' :
  repr this w xs → repr rhs w ys → disjoint this rhs → (Size rhs ≤ Capacity this)%N →
  Vector_copy_assign (Some rhs) this w = (Throw, this', w') →
  partly_assigned this rhs w xs ys this' w'.
Proof.
  intros Hthis Hrhs Hdis Hle Hrun.
  pose proof (wp_copy_assign_keep_partial this rhs w xs ys Hthis Hrhs Hdis Hle) as H.
  exact (wp_Throw _ _ _ _ _ _ _ _ H Hrun).
Qed.
End copy_assign_partial.

(** ** Examples for the rest of the interface *)

Lemma can_emplace_three_1 : can_emplace three [1; 2; 3]%Z 1.
Proof. split; [cbn; lia|]. cbn. intros H. discriminate H. Defined.

(** The destructor on [[5; 6]]. *)
Lemma Vector_dtor_destroys_and_releases_witness :
  repr two store [5; 6]%Z ∧
  ∃ w', Vector_dtor two tt store = (Ok tt, tt, w') ∧
        trace w' = [EvDelete 1%positive; EvDtor 6%Z; EvDtor 5%Z] ∧
        block_at (buffer_ (data_ two)) w' = None ∧
        heap w' !! 2%positive = heap store !! 2%positive.
Proof.
  split; [exact repr_two|].
  destruct (Vector_dtor_destroys_and_releases two store [5; 6]%Z tt repr_two)
    as (w' & Hrun & _ & Htr & Hblk & Hrest).
  exists w'. split; [exact Hrun|]. split; [exact Htr|].
  split; [apply Hblk; discriminate|apply Hrest; discriminate].
Defined.

(** A copy of [[5; 6]]. *)
Lemma Vector_copy_ctor_copies_witness :
  repr two store [5; 6]%Z ∧
  ∃ v w', Vector_copy_ctor (Element0 := probe true true None) two tt store =
            (Ok v, tt, w') ∧
          elements v w' = Some [5; 6]%Z ∧ elements two w' = Some [5; 6]%Z ∧
          Capacity v = 2%N ∧ block_at (buffer_ (data_ v)) store = None.
Proof.
  split; [exact repr_two|].
  destruct (Vector_copy_ctor_copies (Element0 := probe true true None)
              two store [5; 6]%Z tt repr_two) as (Hok & Hreturns).
  destruct (Hreturns (probe_never_throws true true) eq_refl) as (v & w' & Hrun).
  destruct (Hok v tt w' Hrun) as (_ & _ & Hel & _ & Hel' & _ & Hcap & Hfresh & _).
  exists v, w'. split; [exact Hrun|]. split; [exact Hel|]. split; [exact Hel'|].
  split; [exact Hcap|exact Hfresh].
Defined.

(** The second copy constructor call throws while [[5; 6]] is copied. *)
Lemma Vector_copy_ctor_failure_leaves_no_block_witness :
  repr two store [5; 6]%Z ∧
  let r := Vector_copy_ctor (Element0 := probe false true (Some 1)) two tt store in
  r.1.1 = Throw ∧ heap r.2 = heap store ∧ elements two r.2 = Some [5; 6]%Z.
Proof.
  split; [exact repr_two|]. intros r.
  assert (Hrun : Vector_copy_ctor (Element0 := probe false true (Some 1)) two tt store =
                 (Throw, r.1.2, r.2)) by (vm_compute; reflexivity).
  destruct (Vector_copy_ctor_failure_leaves_no_block
              (Element0 := probe false true (Some 1)) two store [5; 6]%Z tt repr_two
              r.1.2 r.2 Hrun) as (_ & Hheap & _ & Hel).
  split; [vm_compute; reflexivity|]. split; [exact Hheap|exact Hel].
Defined.

(** [[5; 6]] is copied and the copy destroyed. *)
Lemma copy_then_destroy_restores_free_store_witness :
  repr two store [5; 6]%Z ∧
  let v := MkVector (MkRawMemory (Ptr (Some 3%positive) 0) 2) 2 in
  let r := Vector_copy_ctor (Element0 := probe true true None) two tt store in
  r.1.1 = Ok v ∧
  ∃ w'', Vector_dtor v tt r.2 = (Ok tt, tt, w'') ∧ heap w'' = heap store ∧
         repr two w'' [5; 6]%Z.
Proof.
  split; [exact repr_two|]. intros v r.
  assert (Hrun : Vector_copy_ctor (Element0 := probe true true None) two tt store =
                 (Ok v, tt, r.2)) by (vm_compute; reflexivity).
  destruct (copy_then_destroy_restores_free_store
              (Element0 := probe true true None) two store [5; 6]%Z tt v tt r.2
              repr_two Hrun) as (w'' & Hdtor & Hheap & Hrepr & _).
  split; [vm_compute; reflexivity|]. exists w''.
  split; [exact Hdtor|]. split; [exact Hheap|exact Hrepr].
Defined.

(** Index 1 and index 3 on [[1; 2; 3]]. *)
Lemma Vector_index_checks_bounds_witness :
  repr three store [1; 2; 3]%Z ∧ [1; 2; 3]%Z !! N.to_nat 1 = Some 2%Z ∧
  (Size three ≤ 3)%N ∧
  Vector_index 1 three store = (Ok (begin three +ₚ 1), three, store) ∧
  load (begin three +ₚ 1) three store = (Ok 2%Z, three, store) ∧
  Vector_index 3 three store = (Undefined, three, store).
Proof.
  split; [exact repr_three|]. split; [reflexivity|]. split; [reflexivity|].
  destruct (Vector_index_checks_bounds three store [1; 2; 3]%Z 1 repr_three)
    as (Hin & _).
  destruct (Vector_index_checks_bounds three store [1; 2; 3]%Z 3 repr_three)
    as (_ & Hout).
  destruct (Hin 2%Z eq_refl) as (Hrun & Hload).
  split; [exact Hrun|]. split; [exact Hload|]. apply Hout. reflexivity.
Defined.

(** [PopBack] on [[1; 2; 3]]. *)
Lemma PopBack_removes_last_witness :
  repr three store [1; 2; 3]%Z ∧
  ∃ this' w', PopBack three store = (Ok tt, this', w') ∧
              elements this' w' = Some [1; 2]%Z ∧ Size this' = 2%N ∧
              data_ this' = data_ three ∧ trace w' = [EvDtor 3%Z].
Proof.
  split; [exact repr_three|].
  destruct (PopBack_removes_last three store [1; 2; 3]%Z repr_three)
    as (this' & w' & Hrun & _ & Hel & Hdata & _ & Hlast).
  destruct (Hlast [1; 2]%Z 3%Z eq_refl) as (Hsize & Htr).
  exists this', w'. split; [exact Hrun|]. split; [exact Hel|].
  split; [exact Hsize|]. split; [exact Hdata|exact Htr].
Defined.

(** [PushBack(7)] on [[1; 2; 3]] of capacity four. *)
Lemma append_with_room_keeps_storage_witness :
  repr three store [1; 2; 3]%Z ∧ (Size three < Capacity three)%N ∧
  let r := PushBack (Element0 := probe true true None) 7%Z three store in
  r.1.1 = Ok tt ∧ data_ r.1.2 = data_ three ∧ Size r.1.2 = 4%N ∧
  elements r.1.2 r.2 = Some [1; 2; 3; 7]%Z.
Proof.
  split; [exact repr_three|]. split; [reflexivity|]. intros r.
  assert (Hrun : PushBack (Element0 := probe true true None) 7%Z three store =
                 (Ok tt, r.1.2, r.2)) by (vm_compute; reflexivity).
  destruct (append_with_room_keeps_storage (Element0 := probe true true None)
              three store [1; 2; 3]%Z repr_three eq_refl) as (HPushBack & _).
  destruct (HPushBack 7%Z r.1.2 r.2 Hrun) as (Hdata & Hsize & _ & Hel & _).
  split; [vm_compute; reflexivity|]. split; [exact Hdata|].
  split; [exact Hsize|exact Hel].
Defined.

(** [PushBack(7); PopBack()] on the full vector [[5; 6]]. *)
Lemma PushBack_then_PopBack_restores_witness :
  repr two store [5; 6]%Z ∧
  let r := (PushBack (Element0 := probe true true None) 7%Z;; PopBack) two store in
  r.1.1 = Ok tt ∧ elements r.1.2 r.2 = Some [5; 6]%Z ∧ Size r.1.2 = Size two ∧
  (Capacity two ≤ Capacity r.1.2)%N.
Proof.
  split; [exact repr_two|]. intros r.
  assert (Hrun : (PushBack (Element0 := probe true true None) 7%Z;; PopBack) two store =
                 (Ok tt, r.1.2, r.2)) by (vm_compute; reflexivity).
  destruct (PushBack_then_PopBack_restores (Element0 := probe true true None)
              two store [5; 6]%Z 7%Z repr_two) as (Hok & _).
  destruct (Hok r.1.2 r.2 Hrun) as (_ & Hel & Hsize & Hcap).
  split; [vm_compute; reflexivity|]. split; [exact Hel|]. split; [exact Hsize|exact Hcap].
Defined.

(** [Erase(begin())] on [[1; 2; 3]] leaves [[1; 2]]. *)
Lemma Erase_without_shift_removes_last_witness :
  is_nothrow_move_assignable (Element := probe true false None) = false ∧
  repr three store ([1; 2] ++ [3])%Z ∧ 0 ≤ length [1; 2]%Z ∧
  ∃ this' w',
    Erase (Element0 := probe true false None) (begin three +ₚ 0) three store =
      (Ok (begin three +ₚ 0), this', w') ∧
    elements this' w' = Some [1; 2]%Z ∧ Size this' = 2%N ∧
    trace w' = [EvDtor 3%Z].
Proof.
  split; [reflexivity|]. split; [exact repr_three|]. split; [cbn; lia|].
  destruct (Erase_without_shift_removes_last (Element0 := probe true false None)
              three store [1; 2]%Z 3%Z 0 eq_refl repr_three ltac:(cbn; lia))
    as (this' & w' & Hrun & _ & Hel & Hsize & _ & Htr).
  exists this', w'. split; [exact Hrun|]. split; [exact Hel|].
  split; [exact Hsize|exact Htr].
Defined.

(** [Reserve(8)] on [[5; 6]] of capacity two. *)
Lemma growth_moves_to_fresh_storage_witness :
  repr two store [5; 6]%Z ∧ (Capacity two < 8)%N ∧
  let r := Reserve (Element0 := probe true true None) 8 two store in
  r.1.1 = Ok tt ∧ Capacity r.1.2 = 8%N ∧ buffer_ (data_ r.1.2) ≠ nullptr ∧
  block_at (buffer_ (data_ r.1.2)) store = None ∧
  block_at (buffer_ (data_ two)) r.2 = None.
Proof.
  split; [exact repr_two|]. split; [reflexivity|]. intros r.
  assert (Hrun : Reserve (Element0 := probe true true None) 8 two store =
                 (Ok tt, r.1.2, r.2)) by (vm_compute; reflexivity).
  destruct (growth_moves_to_fresh_storage (Element0 := probe true true None)
              two store [5; 6]%Z repr_two) as (HReserve & _).
  destruct (HReserve 8%N r.1.2 r.2 eq_refl Hrun) as (Hcap & Hbuf & Hfresh & Hold & _).
  split; [vm_compute; reflexivity|]. split; [exact Hcap|]. split; [exact Hbuf|].
  split; [exact Hfresh|]. apply Hold. discriminate.
Defined.

(** The second copy constructor call throws while [[5; 6]] of capacity two is
    assigned [[1; 2; 3]]. *)
Lemma copy_assign_failure_with_reallocation_leaves_vector_unchanged_witness :
  repr two store [5; 6]%Z ∧ repr three store [1; 2; 3]%Z ∧
  (Capacity two < Size three)%N ∧
  let r := Vector_copy_assign (Element0 := probe false true (Some 1)) (Some three)
             two store in
  r.1.1 = Throw ∧ untouched two store [5; 6]%Z r.1.2 r.2 ∧
  repr three r.2 [1; 2; 3]%Z.
Proof.
  split; [exact repr_two|]. split; [exact repr_three|]. split; [reflexivity|].
  intros r.
  assert (Hrun : Vector_copy_assign (Element0 := probe false true (Some 1)) (Some three)
                   two store = (Throw, r.1.2, r.2)) by (vm_compute; reflexivity).
  destruct (copy_assign_failure_with_reallocation_leaves_vector_unchanged
              (Element0 := probe false true (Some 1)) two three store
              [5; 6]%Z [1; 2; 3]%Z r.1.2 r.2 repr_two repr_three eq_refl Hrun)
    as (Hsame & Hrhs).
  split; [vm_compute; reflexivity|]. split; [exact Hsame|exact Hrhs].
Defined.

(** [RawMemory(3)] and its destructor. *)
Lemma RawMemory_ctor_dtor_round_trip_witness :
  let m := MkRawMemory (Ptr (Some 3%positive) 0) 3 in
  let r := RawMemory_ctor (Element0 := probe true true None) 3 tt store in
  r.1.1 = Ok m ∧ heap r.2 !! 3%positive = Some [Raw; Raw; Raw] ∧
  ∃ w'', RawMemory_dtor m tt r.2 = (Ok tt, tt, w'') ∧ heap w'' = heap store.
Proof.
  intros m r.
  assert (Hrun : RawMemory_ctor (Element0 := probe true true None) 3 tt store =
                 (Ok m, tt, r.2)) by (vm_compute; reflexivity).
  destruct (RawMemory_ctor_dtor_round_trip (Element0 := probe true true None)
              3 tt store) as (Hok & _).
  destruct (Hok m tt r.2 Hrun) as (_ & _ & _ & _ & w'' & Hdtor & Hheap).
  split; [vm_compute; reflexivity|]. split; [vm_compute; reflexivity|].
  exists w''. split; [exact Hdtor|exact Hheap].
Defined.

(** [Vector(3)]. *)
Lemma Vector_size_ctor_value_initialises_witness :
  (3 < size_max)%N ∧
  ∃ v w', Vector_size_ctor (Element0 := probe true true None) 3 tt store =
            (Ok v, tt, w') ∧
          elements v w' = Some [0; 0; 0]%Z ∧ Size v = 3%N ∧ Capacity v = 3%N ∧
          block_at (buffer_ (data_ v)) store = None.
Proof.
  split; [reflexivity|].
  destruct (Vector_size_ctor_value_initialises (Element0 := probe true true None)
              3 tt store eq_refl) as (Hok & _ & Hreturns).
  destruct (Hreturns (probe_never_throws true true) eq_refl) as (v & w' & Hrun).
  destruct (Hok v tt w' Hrun) as (_ & Hsize & Hcap & _ & Hel & Hfresh & _).
  exists v, w'. split; [exact Hrun|]. split; [exact Hel|]. split; [exact Hsize|].
  split; [exact Hcap|exact Hfresh].
Defined.

(** [Resize(5)] on [[1; 2; 3]] of capacity four. *)
Lemma Resize_keeps_prefix_and_fills_witness :
  repr three store [1; 2; 3]%Z ∧ (5 < size_max)%N ∧
  let r := Resize (Element0 := probe true true None) 5 three store in
  r.1.1 = Ok tt ∧ elements r.1.2 r.2 = Some [1; 2; 3; 0; 0]%Z ∧
  Size r.1.2 = 5%N ∧ Capacity r.1.2 = 5%N.
Proof.
  split; [exact repr_three|]. split; [reflexivity|]. intros r.
  assert (Hrun : Resize (Element0 := probe true true None) 5 three store =
                 (Ok tt, r.1.2, r.2)) by (vm_compute; reflexivity).
  destruct (Resize_keeps_prefix_and_fills (Element0 := probe true true None)
              three store [1; 2; 3]%Z 5 repr_three eq_refl) as (Hok & _).
  destruct (Hok r.1.2 r.2 Hrun) as (Hsize & _ & Hel & _ & Hcap & _).
  split; [vm_compute; reflexivity|]. split; [exact Hel|]. split; [exact Hsize|].
  apply Hcap. reflexivity.
Defined.

(** [Insert(begin() + 1, 9)] on [[1; 2; 3]] of capacity four. *)
Lemma Emplace_inserts_at_position_witness :
  repr three store [1; 2; 3]%Z ∧ can_emplace three [1; 2; 3]%Z 1 ∧
  let r := Insert (Element0 := probe true true None) (begin three +ₚ 1) 9%Z
             three store in
  r.1.1 = Ok (begin three +ₚ 1) ∧ elements r.1.2 r.2 = Some [1; 9; 2; 3]%Z ∧
  Size r.1.2 = 4%N ∧ data_ r.1.2 = data_ three.
Proof.
  split; [exact repr_three|]. split; [exact can_emplace_three_1|]. intros r.
  assert (Hrun : Insert (Element0 := probe true true None) (begin three +ₚ 1) 9%Z
                   three store = (Ok (begin three +ₚ 1), r.1.2, r.2))
    by (vm_compute; reflexivity).
  destruct (Emplace_inserts_at_position (Element0 := probe true true None)
              three store [1; 2; 3]%Z 1 repr_three can_emplace_three_1)
    as (_ & HInsert & _).
  destruct (HInsert 9%Z _ r.1.2 r.2 Hrun) as (_ & Hel & Hsize & _ & _ & Hdata & _).
  split; [vm_compute; reflexivity|]. split; [exact Hel|]. split; [exact Hsize|].
  apply Hdata. reflexivity.
Defined.

(** [Insert(begin() + 1, 9)] on [[1; 2; 3]], then [Erase] of the result. *)
Lemma Insert_then_Erase_restores_witness :
  is_nothrow_move_assignable (Element := probe true true None) = true ∧
  repr three store [1; 2; 3]%Z ∧ can_emplace three [1; 2; 3]%Z 1 ∧
  let r := Insert (Element0 := probe true true None) (begin three +ₚ 1) 9%Z
             three store in
  r.1.1 = Ok (begin three +ₚ 1) ∧
  ∃ this2 w2,
    Erase (Element0 := probe true true None) (begin three +ₚ 1) r.1.2 r.2 =
      (Ok (begin three +ₚ 1), this2, w2) ∧
    elements this2 w2 = Some [1; 2; 3]%Z ∧ Size this2 = Size three.
Proof.
  split; [reflexivity|]. split; [exact repr_three|].
  split; [exact can_emplace_three_1|]. intros r.
  assert (Hrun : Insert (Element0 := probe true true None) (begin three +ₚ 1) 9%Z
                   three store = (Ok (begin three +ₚ 1), r.1.2, r.2))
    by (vm_compute; reflexivity).
  destruct (Insert_then_Erase_restores (Element0 := probe true true None)
              three store [1; 2; 3]%Z 1 9%Z _ r.1.2 r.2 eq_refl repr_three
              can_emplace_three_1 Hrun) as (this2 & w2 & HErase & _ & Hel & Hsize).
  split; [vm_compute; reflexivity|]. exists this2, w2.
  split; [exact HErase|]. split; [exact Hel|exact Hsize].
Defined.

(** The third copy constructor call throws in [Emplace(begin() + 1, 9)] on the
    full vector [[5; 6]]. *)
Lemma Emplace_failure_on_full_vector_leaves_it_unchanged_witness :
  is_copy_constructible (Element := probe false true (Some 2)) = true ∧
  repr two store [5; 6]%Z ∧ 1 ≤ length [5; 6]%Z ∧ Size two = Capacity two ∧
  let r := Emplace (Element0 := probe false true (Some 2)) (begin two +ₚ 1)
             (CopyCtor 9%Z) two store in
  r.1.1 = Throw ∧ untouched two store [5; 6]%Z r.1.2 r.2.
Proof.
  split; [reflexivity|]. split; [exact repr_two|]. split; [cbn; lia|].
  split; [reflexivity|]. intros r.
  assert (Hrun : Emplace (Element0 := probe false true (Some 2)) (begin two +ₚ 1)
                   (CopyCtor 9%Z) two store = (Throw, r.1.2, r.2))
    by (vm_compute; reflexivity).
  split; [vm_compute; reflexivity|].
  exact (Emplace_failure_on_full_vector_leaves_it_unchanged
           (Element0 := probe false true (Some 2)) two store [5; 6]%Z 1
           eq_refl repr_two ltac:(cbn; lia) eq_refl (CopyCtor 9%Z) r.1.2 r.2 Hrun).
Defined.




Lemma sized_three : sized (Element0 := probe true true None) three store.
Proof. split; [reflexivity|]. vm_compute. reflexivity. Defined.

Lemma defined_call_Insert :
  defined_call (Element0 := probe true true None) three store
    (CallInsert (begin three +ₚ 1) 9%Z).
Proof.
  split; [exact sized_three|]. split; [reflexivity|].
  exists 1. split; [cbn; lia|]. split; [|reflexivity]. cbn. intros H. discriminate H.
Defined.

(** [Insert(begin() + 1, 9)] on [[1; 2; 3]] of capacity four. *)
Lemma member_functions_have_defined_behaviour_witness :
  repr three store [1; 2; 3]%Z ∧
  defined_call (Element0 := probe true true None) three store
    (CallInsert (begin three +ₚ 1) 9%Z) ∧
  (run_call (Element0 := probe true true None) (CallInsert (begin three +ₚ 1) 9%Z)
     three store).1.1 ≠ Undefined.
Proof.
  split; [exact repr_three|]. split; [exact defined_call_Insert|].
  exact (member_functions_have_defined_behaviour (Element0 := probe true true None)
           three store [1; 2; 3]%Z (CallInsert (begin three +ₚ 1) 9%Z)
           repr_three defined_call_Insert).
Defined.

(** The second copy assignment throws while [[1; 2; 3]] is assigned [[5; 6]]:
    it is left with [[5; 2; 3]]. *)
Lemma copy_assign_failure_in_place_keeps_a_valid_vector_witness :
  repr three store [1; 2; 3]%Z ∧ repr two store [5; 6]%Z ∧ disjoint three two ∧
  (Size two ≤ Capacity three)%N ∧
  let r := Vector_copy_assign (Element0 := assign_probe 1) (Some two) three store in
  r.1.1 = Throw ∧ r.1.2 = three ∧ elements three r.2 = Some [5; 2; 3]%Z ∧
  elements two r.2 = Some [5; 6]%Z ∧
  partly_assigned three two store [1; 2; 3]%Z [5; 6]%Z r.1.2 r.2.
Proof.
  split; [exact repr_three|]. split; [exact repr_two|].
  split; [right; discriminate|]. split; [vm_compute; discriminate|]. intros r.
  assert (Hrun : Vector_copy_assign (Element0 := assign_probe 1) (Some two) three store =
                 (Throw, r.1.2, r.2)) by (vm_compute; reflexivity).
  assert (Hdis : disjoint three two) by (right; discriminate).
  assert (Hle : (Size two ≤ Capacity three)%N) by (vm_compute; discriminate).
  pose proof (copy_assign_failure_in_place_keeps_a_valid_vector
                (Element0 := assign_probe 1) three two store [1; 2; 3]%Z [5; 6]%Z
                r.1.2 r.2 repr_three repr_two Hdis Hle Hrun) as Hpartly.
  split; [vm_compute; reflexivity|]. split; [vm_compute; reflexivity|].
  split; [vm_compute; reflexivity|]. split; [vm_compute; reflexivity|]. exact Hpartly.
Defined.
